(** * mecab-spawn: the task queue and the EOS framing of [mecab-spawn.js]

    A shallow embedding of [src/mecab-spawn.js].  Buffers are lists of
    byte values, JavaScript strings are lists of UTF-16 code units, the
    [MeCab] object is a record that is passed from one event handler to
    the next, and every [while] loop of the source is a fuel-indexed
    function that answers [Diverges] when the fuel is gone before the
    loop has left. *)

From Stdlib Require Import String Ascii DecimalString.
From Stdlib Require Import List Arith ZArith Bool Lia.
From Stdlib Require Import Sorting.Sorted.
Import ListNotations.

Set Implicit Arguments.

(** ** Values of the JavaScript runtime *)

Module JS.

(** A [Buffer] is a sequence of bytes, each a [Z] in [0, 256). *)
Definition bytes := list Z.

(** A JavaScript string is a sequence of UTF-16 code units. *)
Definition jsstring := list Z.

(** An ASCII literal as a string and as the bytes [Buffer.from] gives
    for it. *)
Fixpoint lit (s : string) : list Z :=
  match s with
  | EmptyString => []
  | String c s' => Z.of_nat (nat_of_ascii c) :: lit s'
  end.

Definition HT : Z := 9.

(** [x.startsWith(needle)] on sequences. *)
Fixpoint startsWith (needle hay : list Z) : bool :=
  match needle, hay with
  | [], _ => true
  | _ :: _, [] => false
  | x :: needle', y :: hay' => (x =? y)%Z && startsWith needle' hay'
  end.

(** Leftmost match of [needle] in [hay]; [pos] is the index of the
    head of [hay] in the sequence the search started in. *)
Fixpoint search (needle hay : list Z) (pos : nat) {struct hay} : option nat :=
  if startsWith needle hay then Some pos
  else match hay with
       | [] => None
       | _ :: hay' => search needle hay' (S pos)
       end.

(** [buf.indexOf(value, byteOffset)] for a Buffer value and
    [str.indexOf(searchString, position)]: the index of the first
    occurrence at or after the offset, [None] for the -1 of
    JavaScript.  An empty needle is found at the offset, clamped to
    the length. *)
Definition indexOf (hay needle : list Z) (from : nat) : option nat :=
  search needle (skipn from hay) (Nat.min from (length hay)).

(** [buf.slice(start, end)]; the source only passes
    [0 <= start <= end <= length]. *)
Definition slice (b : bytes) (start stop : nat) : bytes :=
  firstn (stop - start) (skipn start b).

(** [buf.slice(start)]. *)
Definition sliceFrom (b : bytes) (start : nat) : bytes := skipn start b.

(** [str.substring(start, end)], which swaps its arguments when
    [start > end]. *)
Definition substring (s : jsstring) (start stop : nat) : jsstring :=
  firstn (Nat.max start stop - Nat.min start stop)
         (skipn (Nat.min start stop) s).

(** *** UTF-8 *)

Definition REPLACEMENT : Z := 0xFFFD.

Inductive lead :=
| Emit (c : Z)
| Need (n : nat) (cp lo hi : Z).

(** What a byte means at the start of a UTF-8 sequence. *)
Definition utf8_lead (b : Z) : lead :=
  if (b <=? 0x7F)%Z then Emit b
  else if ((0xC2 <=? b) && (b <=? 0xDF))%Z then
    Need 1 (Z.land b 0x1F) 0x80 0xBF
  else if ((0xE0 <=? b) && (b <=? 0xEF))%Z then
    Need 2 (Z.land b 0xF)
         (if (b =? 0xE0)%Z then 0xA0 else 0x80)
         (if (b =? 0xED)%Z then 0x9F else 0xBF)
  else if ((0xF0 <=? b) && (b <=? 0xF4))%Z then
    Need 3 (Z.land b 0x7)
         (if (b =? 0xF0)%Z then 0x90 else 0x80)
         (if (b =? 0xF4)%Z then 0x8F else 0xBF)
  else Emit REPLACEMENT.

(** The code points of a byte sequence; every maximal ill-formed part
    becomes U+FFFD.  [st] is the sequence under way: continuation
    bytes still needed, the code point so far and the range allowed
    for the next byte. *)
Fixpoint utf8_points (bs : bytes) (st : option (nat * Z * Z * Z)) : list Z :=
  match bs with
  | [] => match st with None => [] | Some _ => [REPLACEMENT] end
  | b :: bs' =>
      let start (pre : list Z) :=
        match utf8_lead b with
        | Emit c => pre ++ c :: utf8_points bs' None
        | Need n cp lo hi => pre ++ utf8_points bs' (Some (n, cp, lo, hi))
        end in
      match st with
      | None => start []
      | Some (n, cp, lo, hi) =>
          if ((lo <=? b) && (b <=? hi))%Z then
            let cp' := Z.lor (Z.shiftl cp 6) (Z.land b 0x3F) in
            match n with
            | S (S n') => utf8_points bs' (Some (S n', cp', 0x80, 0xBF)%Z)
            | _ => cp' :: utf8_points bs' None
            end
          else start [REPLACEMENT]
      end
  end.

(** The UTF-16 code units of one code point. *)
Definition utf16_units (cp : Z) : list Z :=
  if (cp <? 0x10000)%Z then [cp]
  else let c := (cp - 0x10000)%Z in
       [(0xD800 + Z.shiftr c 10)%Z; (0xDC00 + Z.land c 0x3FF)%Z].

(** [buf.toString('utf8')]. *)
Definition toString_utf8 (b : bytes) : jsstring :=
  flat_map utf16_units (utf8_points b None).

Definition is_high (c : Z) : bool := ((0xD800 <=? c) && (c <=? 0xDBFF))%Z.
Definition is_low (c : Z) : bool := ((0xDC00 <=? c) && (c <=? 0xDFFF))%Z.

(** The code points of a string; a lone surrogate becomes U+FFFD. *)
Fixpoint utf16_points (s : jsstring) : list Z :=
  match s with
  | [] => []
  | c :: s' =>
      if is_high c then
        match s' with
        | d :: s'' =>
            if is_low d then
              (0x10000 + Z.shiftl (c - 0xD800) 10 + (d - 0xDC00))%Z
                :: utf16_points s''
            else REPLACEMENT :: utf16_points s'
        | [] => [REPLACEMENT]
        end
      else if is_low c then REPLACEMENT :: utf16_points s'
      else c :: utf16_points s'
  end.

(** The UTF-8 bytes of one code point. *)
Definition utf8_bytes (cp : Z) : bytes :=
  let cont (sh : Z) := Z.lor 0x80 (Z.land (Z.shiftr cp sh) 0x3F) in
  if (cp <? 0x80)%Z then [cp]
  else if (cp <? 0x800)%Z then [Z.lor 0xC0 (Z.shiftr cp 6); cont 0%Z]
  else if (cp <? 0x10000)%Z then
    [Z.lor 0xE0 (Z.shiftr cp 12); cont 6%Z; cont 0%Z]
  else [Z.lor 0xF0 (Z.shiftr cp 18); cont 12%Z; cont 6%Z; cont 0%Z].

(** [Buffer.from(str)]. *)
Definition Buffer_from (s : jsstring) : bytes :=
  flat_map utf8_bytes (utf16_points s).

(** [str.replace(pattern, replacement)] for a string pattern: the
    first occurrence only. *)
Definition replace (s pattern replacement : jsstring) : jsstring :=
  match indexOf s pattern 0 with
  | None => s
  | Some i => firstn i s ++ replacement ++ skipn (i + length pattern) s
  end.

(** [str.split(re)] for a regular expression that is a class of
    single characters, [sep] deciding the class; [cur] is the piece
    under way, reversed. *)
Fixpoint split_class (sep : Z -> bool) (cur : jsstring) (s : jsstring)
  : list jsstring :=
  match s with
  | [] => [rev cur]
  | c :: s' =>
      if sep c then rev cur :: split_class sep [] s'
      else split_class sep (c :: cur) s'
  end.

End JS.

Import JS.

(** ** The module constants and the platform *)

(** [os.EOL] is decided by the platform the program runs on. *)
Inductive Platform := POSIX | Windows.

Definition CR : Z := 13.
Definition LF : Z := 10.
Definition CRLF : bytes := [13; 10]%Z.

Definition EOL (os : Platform) : jsstring :=
  match os with
  | POSIX => [10]%Z
  | Windows => [13; 10]%Z
  end.

(** ** What runs, what it yields *)

(** A handler of the source returns, throws a [TypeError] (a method
    looked up on a value that has none), or is still in a loop when the
    fuel is gone. *)
Inductive outcome (A : Type) :=
| Normal (a : A)
| TypeError
| Diverges.
Arguments TypeError {A}.
Arguments Diverges {A}.

Definition bind {A B} (c : outcome A) (k : A -> outcome B) : outcome B :=
  match c with
  | Normal a => k a
  | TypeError => TypeError
  | Diverges => Diverges
  end.

Notation "x <- c ;; k" := (bind c (fun x => k))
  (at level 61, c at next level, right associativity).
Notation "' p <- c ;; k" := (bind c (fun x => let p := x in k))
  (at level 61, p pattern, c at next level, right associativity).

(** An element of a result array: what the line parser made of a line,
    or the EOS object. *)
Inductive item (R E : Type) :=
| Parsed (r : R)
| Boundary (e : E).
Arguments Parsed {R E} r.
Arguments Boundary {R E} e.

(** What a promise of the module is resolved with: the result array of
    a read task or the message of a kill task. *)
Inductive value (R E : Type) :=
| Result (l : list (item R E))
| Message (s : string).
Arguments Result {R E} l.
Arguments Message {R E} s.

(** What a promise is rejected with: one of the message strings of the
    source or the error object of the ['error'] event. *)
Inductive reason :=
| Text (s : string)
| ErrorObject (e : string).

Inductive settlement (R E : Type) :=
| Fulfilled (v : value R E)
| Rejected (r : reason).
Arguments Fulfilled {R E} v.
Arguments Rejected {R E} r.

(** What happens, in the order it happens: a write to the standard
    input of the subprocess, a signal sent to it, the promise of a task
    that settles (a promise settles once; a later [resolve] or [reject]
    of it is not seen), and a call of an [async] method that threw.
    The promise which such a call hands back is rejected with the
    exception; the promise of the task the call made, numbered [id], is
    left as it is, and the caller does not get hold of it. *)
Inductive effect (R E : Type) :=
| StdinWrite (b : bytes)
| ProcessKill (signal : string)
| Settle (id : nat) (s : settlement R E)
| CallRejected (id : nat).
Arguments StdinWrite {R E} b.
Arguments ProcessKill {R E} signal.
Arguments Settle {R E} id s.
Arguments CallRejected {R E} id.

(** ** The child process *)

Module ChildProcess.

(** Of the object [spawn] of [child_process] hands back the model keeps
    what its method [kill] looks at first: [signals] decides the names
    of signals that [kill] accepts, which are those of
    [os.constants.signals], in capitals or not. *)
Record t := make { signals : string -> bool }.

(** [subprocess.kill(signal)] with the name of a signal: a name the
    platform does not know makes it throw
    [TypeError [ERR_UNKNOWN_SIGNAL]] before anything is sent; a known
    one is sent.  What the operating system answers (the process is
    gone already, the signal is refused) is not followed. *)
Definition kill {R E} (this : t) (signal : string)
  : outcome (list (effect R E)) :=
  if signals this signal then Normal [ProcessKill signal] else TypeError.

End ChildProcess.

(** A decoder hands back a string (as [iconv.decode] does) or a Buffer;
    the source calls [toString('utf8')] on either. *)
Inductive decoded :=
| DString (s : jsstring)
| DBuffer (b : bytes).

Definition toString (d : decoded) : jsstring :=
  match d with
  | DString s => s
  | DBuffer b => toString_utf8 b
  end.

(** The first argument of [analyze]: a string or a Buffer. *)
Inductive input :=
| Str (s : jsstring)
| Buf (b : bytes).

(** ** class DeferredTask *)

Module DeferredTask.

(** [id] stands for the identity of the object: the number of tasks
    constructed before it.  [promise] is [None] while pending. *)
Record t (R E : Type) := make {
  id : nat;
  promise : option (settlement R E)
}.

Definition settle {R E} (this : t R E) (s : settlement R E)
  : t R E * list (effect R E) :=
  match promise this with
  | None => (make (id this) (Some s), [Settle (id this) s])
  | Some _ => (this, [])
  end.

Definition resolve {R E} (this : t R E) (v : value R E) :=
  settle this (Fulfilled v).

Definition reject {R E} (this : t R E) (r : reason) :=
  settle this (Rejected r).

End DeferredTask.

(** ** class MeCabReadTask: the fields *)

Module MeCabReadTask.

Record t (R E : Type) := make {
  super : DeferredTask.t R E;
  _result : list (item R E);
  _lastBuffer : option bytes;
  _maxEos : nat;
  _eosCount : nat;
  _eosSample : bytes;
  _decoder : option (bytes -> decoded);
  _eosObject : E
}.

Definition with_super {R E} (this : t R E) (d : DeferredTask.t R E) :=
  make d (_result this) (_lastBuffer this) (_maxEos this) (_eosCount this)
       (_eosSample this) (_decoder this) (_eosObject this).

Definition with_lastBuffer {R E} (this : t R E) (b : option bytes) :=
  make (super this) (_result this) b (_maxEos this) (_eosCount this)
       (_eosSample this) (_decoder this) (_eosObject this).

Definition with_eosCount {R E} (this : t R E) (n : nat) :=
  make (super this) (_result this) (_lastBuffer this) (_maxEos this) n
       (_eosSample this) (_decoder this) (_eosObject this).

(** [this._result.push(x)] *)
Definition push {R E} (this : t R E) (x : item R E) :=
  make (super this) (_result this ++ [x]) (_lastBuffer this) (_maxEos this)
       (_eosCount this) (_eosSample this) (_decoder this) (_eosObject this).

End MeCabReadTask.

(** ** class MeCabKillTask: the fields *)

Module MeCabKillTask.

Record t (R E : Type) := make {
  super : DeferredTask.t R E;
  _signal : string
}.

End MeCabKillTask.

(** An element of [_tasks]. *)
Inductive Task (R E : Type) :=
| Read (task : MeCabReadTask.t R E)
| Kill (task : MeCabKillTask.t R E).
Arguments Read {R E} task.
Arguments Kill {R E} task.

Definition base {R E} (task : Task R E) : DeferredTask.t R E :=
  match task with
  | Read r => MeCabReadTask.super r
  | Kill k => MeCabKillTask.super k
  end.

Definition with_base {R E} (task : Task R E) (d : DeferredTask.t R E) : Task R E :=
  match task with
  | Read r => Read (MeCabReadTask.with_super r d)
  | Kill k => Kill (MeCabKillTask.make d (MeCabKillTask._signal k))
  end.

Definition task_id {R E} (task : Task R E) : nat := DeferredTask.id (base task).

Definition pending {R E} (task : Task R E) : bool :=
  match DeferredTask.promise (base task) with
  | None => true
  | Some _ => false
  end.

(** [task.resolve(value)] and [task.reject(reason)], inherited by both
    classes. *)
Definition resolve {R E} (task : Task R E) (v : value R E)
  : Task R E * list (effect R E) :=
  let '(d, fx) := DeferredTask.resolve (base task) v in (with_base task d, fx).

Definition reject {R E} (task : Task R E) (r : reason)
  : Task R E * list (effect R E) :=
  let '(d, fx) := DeferredTask.reject (base task) r in (with_base task d, fx).

(** ** class MeCab: the fields *)

Module MeCab.

(** [created] counts the tasks constructed so far and [trace] records
    the effects performed so far; neither is a field of the source. *)
Record t (R E : Type) := make {
  _encoder : option (bytes -> bytes);
  _decoder : option (bytes -> decoded);
  _eosSample : bytes;
  _eosObject : E;
  lineParser : jsstring -> R;
  _tasks : list (Task R E);
  _process : ChildProcess.t;
  created : nat;
  trace : list (effect R E)
}.

Definition with_encoder {R E} (this : t R E) e :=
  make e (_decoder this) (_eosSample this) (_eosObject this)
       (lineParser this) (_tasks this) (_process this) (created this)
       (trace this).

Definition with_decoder {R E} (this : t R E) d :=
  make (_encoder this) d (_eosSample this) (_eosObject this)
       (lineParser this) (_tasks this) (_process this) (created this)
       (trace this).

Definition with_eosSample {R E} (this : t R E) s :=
  make (_encoder this) (_decoder this) s (_eosObject this)
       (lineParser this) (_tasks this) (_process this) (created this)
       (trace this).

Definition with_eosObject {R E} (this : t R E) o :=
  make (_encoder this) (_decoder this) (_eosSample this) o
       (lineParser this) (_tasks this) (_process this) (created this)
       (trace this).

Definition with_lineParser {R E} (this : t R E) p :=
  make (_encoder this) (_decoder this) (_eosSample this) (_eosObject this)
       p (_tasks this) (_process this) (created this) (trace this).

Definition with_tasks {R E} (this : t R E) ts :=
  make (_encoder this) (_decoder this) (_eosSample this) (_eosObject this)
       (lineParser this) ts (_process this) (created this) (trace this).

Definition with_created {R E} (this : t R E) n :=
  make (_encoder this) (_decoder this) (_eosSample this) (_eosObject this)
       (lineParser this) (_tasks this) (_process this) n (trace this).

(** Append to the record of effects. *)
Definition emit {R E} (this : t R E) (fx : list (effect R E)) :=
  make (_encoder this) (_decoder this) (_eosSample this) (_eosObject this)
       (lineParser this) (_tasks this) (_process this) (created this)
       (trace this ++ fx).

End MeCab.

(** [task.start()]: nothing for a read task, which inherits the empty
    method of [DeferredTask]; [this._mecab._process.kill(this._signal)]
    for a kill task, which throws when the signal is not known.
    [mecab] is the object the task was constructed for, as it is when
    the task is started. *)
Definition start {R E} (mecab : MeCab.t R E) (task : Task R E)
  : outcome (list (effect R E)) :=
  match task with
  | Read _ => Normal []
  | Kill k =>
      ChildProcess.kill (MeCab._process mecab) (MeCabKillTask._signal k)
  end.

(** How a call of a method ends: it returns, or it throws. *)
Inductive completion := Returned | Threw.

(** ** class MeCabReadTask: the methods *)

Section ReadTaskMethods.

Variables R E : Type.
Variable os : Platform.

Import MeCabReadTask.

(** [new MeCabReadTask(mecab, lineBreaks, optDecoder)] *)
Definition newReadTask (mecab : MeCab.t R E) (lineBreaks : nat)
           (optDecoder : option (bytes -> decoded)) : MeCabReadTask.t R E :=
  MeCabReadTask.make
    (DeferredTask.make (MeCab.created mecab) None)
    [] None lineBreaks 0 (MeCab._eosSample mecab) optDecoder
    (MeCab._eosObject mecab).

(** [_concatBuffer (data)] returns the buffer to scan and leaves
    [_lastBuffer] null. *)
Definition _concatBuffer (this : t R E) (data : bytes) : bytes * t R E :=
  match _lastBuffer this with
  | None => (data, this)
  | Some lastBuffer => (lastBuffer ++ data, with_lastBuffer this None)
  end.

(** The [while] loop of [_parseSentence]. *)
Fixpoint parseLoop (fuel : nat) (parse : jsstring -> R) (this : t R E)
         (sentence : jsstring) (offset : nat) : outcome (t R E) :=
  if offset <? length sentence then
    match fuel with
    | 0 => Diverges
    | S fuel' =>
        match indexOf sentence (EOL os) offset with
        | Some index =>
            let line := substring sentence offset index in
            parseLoop fuel' parse (push this (Parsed (parse line)))
                      sentence (index + length (EOL os))
        | None => Normal this
        end
    end
  else Normal this.

(** [_parseSentence (mecab, sentence)]; every turn of the loop moves
    [offset] forward, so the length of the sentence is fuel enough. *)
Definition _parseSentence (mecab : MeCab.t R E) (this : t R E)
           (sentence : jsstring) : outcome (t R E) :=
  parseLoop (length sentence) (MeCab.lineParser mecab) this sentence 0.

(** [this._decoder ? this._decoder(buffer.slice(offset, index)).toString('utf8')
                   : buffer.toString('utf8', offset, index)] *)
Definition decodeSentence (this : t R E) (buffer : bytes) (offset index : nat)
  : jsstring :=
  match _decoder this with
  | Some decoder => toString (decoder (slice buffer offset index))
  | None => toString_utf8 (slice buffer offset index)
  end.

(** The [while] loop of [readData]. *)
Fixpoint readLoop (fuel : nat) (mecab : MeCab.t R E) (this : t R E)
         (buffer : bytes) (offset : nat)
  : outcome (t R E * bool * list (effect R E)) :=
  if offset <? length buffer then
    match fuel with
    | 0 => Diverges
    | S fuel' =>
        match indexOf buffer (_eosSample this) offset with
        | None =>
            Normal (with_lastBuffer this (Some (sliceFrom buffer offset)),
                    false, [])
        | Some index =>
            let sentence := decodeSentence this buffer offset index in
            this <- match sentence with
                    | [] => Normal this
                    | _ :: _ => _parseSentence mecab this sentence
                    end ;;
            let this := with_eosCount this (S (_eosCount this)) in
            if _eosCount this =? _maxEos this then
              let '(d, fx) :=
                DeferredTask.resolve (super this) (Result (_result this)) in
              Normal (with_super this d, true, fx)
            else
              readLoop fuel' mecab
                       (push this (Boundary (_eosObject this)))
                       buffer (index + length (_eosSample this))
        end
    end
  else Normal (this, false, []).

(** [readData (mecab, data)].  A turn of the loop either moves
    [offset] forward or, with an empty [_eosSample], only counts one
    more EOS; the fuel covers both. *)
Definition readData (mecab : MeCab.t R E) (this : t R E) (data : bytes)
  : outcome (t R E * bool * list (effect R E)) :=
  let '(buffer, this) := _concatBuffer this data in
  readLoop (length buffer + _maxEos this) mecab this buffer 0.

End ReadTaskMethods.

(** ** class MeCab: the methods and the event handlers *)

Section MeCabMethods.

Variables R E : Type.
Variable os : Platform.

Import MeCab.

(** What [lb] holds in [_countSentences]: a number (0, [LF] or [CR])
    or the Buffer [CRLF]. *)
Inductive lineBreak :=
| Num (n : Z)
| CRLFBuffer.

(** [buffer.indexOf(lb, offset)]: a number is looked for as the byte
    [lb & 255]. *)
Definition needle (lb : lineBreak) : bytes :=
  match lb with
  | Num n => [Z.land n 255]
  | CRLFBuffer => CRLF
  end.

(** The [for] loop of [_countSentences], from index [i]; it yields
    [lb], [offset] and [count] as the loop leaves them. *)
Fixpoint detectLoop (fuel : nat) (buffer : bytes) (i : nat)
         (lb : lineBreak) (offset count : nat)
  : outcome (lineBreak * nat * nat) :=
  if i <? length buffer then
    match fuel with
    | 0 => Diverges
    | S fuel' =>
        let offset := i in
        let byte := nth i buffer 0%Z in
        if (byte =? LF)%Z then Normal (Num byte, offset, S count)
        else if (byte =? CR)%Z then
          if (i + 1 <? length buffer) && (nth (i + 1) buffer 0 =? LF)%Z
          then Normal (CRLFBuffer, S offset, S count)
          else Normal (Num CR, offset, S count)
        else detectLoop fuel' buffer (S i) lb offset count
    end
  else Normal (lb, offset, count).

(** The [while] loop of [_countSentences]. *)
Fixpoint countLoop (fuel : nat) (buffer : bytes) (lb : lineBreak)
         (lbBytes offset count : nat) : outcome nat :=
  if offset <? length buffer then
    match fuel with
    | 0 => Diverges
    | S fuel' =>
        match indexOf buffer (needle lb) offset with
        | Some index =>
            countLoop fuel' buffer lb lbBytes (index + lbBytes) (S count)
        | None => Normal count
        end
    end
  else Normal count.

(** [_countSentences (buffer)] *)
Definition _countSentences (buffer : bytes) : outcome nat :=
  '(lb, offset, count) <- detectLoop (length buffer) buffer 0 (Num 0) 0 0 ;;
  if count =? 0 then Normal 0
  else
    let lbBytes := match lb with CRLFBuffer => 2 | Num _ => 1 end in
    let offset := S offset in
    countLoop (length buffer) buffer lb lbBytes offset count.

(** [_addTask (task)]: the task is pushed, and started when it is the
    only one.  When [start] throws, so does [_addTask], and the task
    stays where it was pushed. *)
Definition _addTask (this : t R E) (task : Task R E)
  : t R E * completion :=
  let this := with_tasks this (_tasks this ++ [task]) in
  if length (_tasks this) =? 1 then
    match start this task with
    | Normal fx => (emit this fx, Returned)
    | _ => (this, Threw)
    end
  else (this, Returned).

(** [this._tasks.forEach(task => ...)] for a callback that settles the
    task: the tasks as they are afterwards, and the effects in order. *)
Fixpoint forEach (f : Task R E -> Task R E * list (effect R E))
         (tasks : list (Task R E)) : list (Task R E) * list (effect R E) :=
  match tasks with
  | [] => ([], [])
  | task :: rest =>
      let '(task', fx) := f task in
      let '(rest', fx') := forEach f rest in
      (task' :: rest', fx ++ fx')
  end.

(** [_rejectAllTasks (reason)] *)
Definition _rejectAllTasks (this : t R E) (r : reason) : t R E :=
  let '(_, fx) := forEach (fun task => reject task r) (_tasks this) in
  with_tasks (emit this fx) [].

(** [setEOSSample (sample)] *)
Definition setEOSSample (this : t R E) (sample : input) : t R E :=
  match sample with
  | Str s =>
      with_eosSample this
        (Buffer_from (replace s (lit "\n") (EOL os)))
  | Buf b => with_eosSample this b
  end.

Definition setEOSObject (this : t R E) (obj : E) : t R E :=
  with_eosObject this obj.

Definition setDefaultEncoder (this : t R E) encoder : t R E :=
  with_encoder this encoder.

Definition setDefaultDecoder (this : t R E) decoder : t R E :=
  with_decoder this decoder.

(** The first lines of [analyze]: the Buffer that goes out, encoded by
    [optEncoder] or else by the default encoder when there is one. *)
Definition outbound (this : t R E) (obj : input)
           (optEncoder : option (bytes -> bytes)) : bytes :=
  let buffer := match obj with Str s => Buffer_from s | Buf b => b end in
  match optEncoder with
  | Some encoder => encoder buffer
  | None =>
      match _encoder this with
      | Some encoder => encoder buffer
      | None => buffer
      end
  end.

(** [analyze (obj, optEncoder, optDecoder)].  The function is
    [async] and awaits nothing: its body runs when it is called, to its
    end or to the statement that throws, and then the promise of the
    call is rejected. *)
Definition analyze (this : t R E) (obj : input)
           (optEncoder : option (bytes -> bytes))
           (optDecoder : option (bytes -> decoded)) : outcome (t R E) :=
  let buffer := outbound this obj optEncoder in
  lineBreaks <- _countSentences buffer ;;
  let decoder :=
    match optDecoder with
    | Some d => Some d
    | None => _decoder this
    end in
  let task := newReadTask this (lineBreaks + 1) decoder in
  let this := with_created this (S (created this)) in
  match _addTask this (Read task) with
  | (this, Returned) =>
      let this := emit this [StdinWrite buffer] in
      let this := emit this [StdinWrite (Buffer_from (EOL os))] in
      Normal this
  | (this, Threw) =>
      Normal (emit this [CallRejected (task_id (Read task))])
  end.

(** [kill (optForce, optSignal)], an [async] function as well: when
    [_addTask] throws, the promise of the call is rejected and the
    promise of the task, which stays in the queue, is handed to
    nobody. *)
Definition kill (this : t R E) (optForce : bool) (optSignal : string)
  : t R E :=
  let this :=
    if optForce
    then _rejectAllTasks this (Text "The process was interrupted immediately.")
    else this in
  let task :=
    MeCabKillTask.make (DeferredTask.make (created this) None) optSignal in
  let this := with_created this (S (created this)) in
  match _addTask this (Kill task) with
  | (this, Returned) => this
  | (this, Threw) =>
      emit this [CallRejected (task_id (Kill task))]
  end.

(** The handler of ['close'].  [code] is the exit code, or null when
    a signal ended the process; it is truthy when it is a number
    other than 0. *)
Definition truthy (code : option Z) : bool :=
  match code with
  | Some c => negb (c =? 0)%Z
  | None => false
  end.

(** The text of [`${code}`] *)
Definition show (code : option Z) : string :=
  match code with
  | Some c => NilZero.string_of_int (Z.to_int c)
  | None => "null"
  end.

Definition closeTask (code : option Z) (task : Task R E)
  : Task R E * list (effect R E) :=
  if truthy code then
    reject task (Text ("MeCab process crushed. code:" ++ show code))
  else
    match task with
    | Read _ => reject task (Text "MeCab process is killed.")
    | Kill _ => resolve task (Message "MeCab process is killed.")
    end.

Definition onClose (this : t R E) (code : option Z) : t R E :=
  let '(tasks, fx) := forEach (closeTask code) (_tasks this) in
  emit (with_tasks this tasks) fx.

(** The handler of ['error']. *)
Definition onError (this : t R E) (error : string) : t R E :=
  _rejectAllTasks this (ErrorObject error).

(** The handler of ['data'] on the standard output of the subprocess.
    It throws when no read task is at the head of the queue, and when
    the task it starts after the head has completed throws. *)
Definition onData (this : t R E) (data : bytes) : outcome (t R E) :=
  match _tasks this with
  | [] => TypeError
  | Kill _ :: _ => TypeError
  | Read task :: rest =>
      ' (task', done, fx) <- readData os this task data ;;
      let this := emit (with_tasks this (Read task' :: rest)) fx in
      if done : bool then
        let this := with_tasks this rest in
        match rest with
        | next :: _ => fx' <- start this next ;; Normal (emit this fx')
        | [] => Normal this
        end
      else Normal this
  end.

End MeCabMethods.

(** ** The constructor *)

(** [createLineParser (sep)] for a separator that is a class of single
    characters. *)
Definition createLineParser (sep : Z -> bool) : jsstring -> list jsstring :=
  fun line => split_class sep [] line.

(** The class [/[\t,]/]. *)
Definition tabOrComma (c : Z) : bool := ((c =? HT) || (c =? 44))%Z.

(** [new MeCab(command, optArgv, optOptions)] once the subprocess is
    spawned; [process] is what [spawn] of [child_process] handed back.
    The literal ['EOS\\n'] of the source is the four letters
    and a backslash followed by [n]; a string literal of Rocq has no
    escapes, so [lit "EOS\n"] is that very string. *)
Definition spawn (os : Platform) (process : ChildProcess.t)
  : MeCab.t (list jsstring) jsstring :=
  let this :=
    MeCab.make None None [] [] (fun _ : jsstring => @nil jsstring) []
               process 0 [] in
  let this := setEOSSample os this (Str (lit "EOS\n")) in
  let this := setEOSObject this (lit "EOS") in
  MeCab.with_lineParser this (createLineParser tabOrComma).

(** ** Runs *)

(** What can happen to a [MeCab] object: a call of one of its methods or
    an event of the subprocess. *)
Inductive event (R E : Type) :=
| CallAnalyze (obj : input) (optEncoder : option (bytes -> bytes))
              (optDecoder : option (bytes -> decoded))
| CallKill (optForce : bool) (optSignal : string)
| CallSetDefaultEncoder (encoder : option (bytes -> bytes))
| CallSetDefaultDecoder (decoder : option (bytes -> decoded))
| CallSetEOSSample (sample : input)
| CallSetEOSObject (obj : E)
| SetLineParser (parse : jsstring -> R)
| StdoutData (data : bytes)
| ProcessClose (code : option Z)
| ProcessError (error : string).
Arguments CallAnalyze {R E} obj optEncoder optDecoder.
Arguments CallKill {R E} optForce optSignal.
Arguments CallSetDefaultEncoder {R E} encoder.
Arguments CallSetDefaultDecoder {R E} decoder.
Arguments CallSetEOSSample {R E} sample.
Arguments CallSetEOSObject {R E} obj.
Arguments SetLineParser {R E} parse.
Arguments StdoutData {R E} data.
Arguments ProcessClose {R E} code.
Arguments ProcessError {R E} error.

Definition step {R E} (os : Platform) (this : MeCab.t R E) (ev : event R E)
  : outcome (MeCab.t R E) :=
  match ev with
  | CallAnalyze obj optEncoder optDecoder =>
      analyze os this obj optEncoder optDecoder
  | CallKill optForce optSignal => Normal (kill this optForce optSignal)
  | CallSetDefaultEncoder encoder => Normal (setDefaultEncoder this encoder)
  | CallSetDefaultDecoder decoder => Normal (setDefaultDecoder this decoder)
  | CallSetEOSSample sample => Normal (setEOSSample os this sample)
  | CallSetEOSObject obj => Normal (setEOSObject this obj)
  | SetLineParser parse => Normal (MeCab.with_lineParser this parse)
  | StdoutData data => onData os this data
  | ProcessClose code => Normal (onClose this code)
  | ProcessError error => Normal (onError this error)
  end.

(** The events of a run, one after the other; the run ends where a
    handler does not return. *)
Fixpoint run {R E} (os : Platform) (this : MeCab.t R E)
         (evs : list (event R E)) : outcome (MeCab.t R E) :=
  match evs with
  | [] => Normal this
  | ev :: evs' => this' <- step os this ev ;; run os this' evs'
  end.

(** Feeding a read task the chunks of the subprocess one at a time, up
    to the chunk that completes it. *)
Fixpoint feed {R E} (os : Platform) (mecab : MeCab.t R E)
         (this : MeCabReadTask.t R E) (chunks : list bytes)
  : outcome (MeCabReadTask.t R E * bool * list (effect R E)) :=
  match chunks with
  | [] => Normal (this, false, [])
  | data :: chunks' =>
      ' (this', done, fx) <- readData os mecab this data ;;
      if done : bool then Normal (this', true, fx)
      else feed os mecab this' chunks'
  end.


(** ** The words of the specification *)

Module Spec.

(** The line terminator convention of a payload, decided by the first
    terminator met: LF, CR LF, or CR. *)
Fixpoint firstTerminator (payload : bytes) : option bytes :=
  match payload with
  | [] => None
  | b :: rest =>
      if (b =? LF)%Z then Some [LF]
      else if (b =? CR)%Z then
        match rest with
        | c :: _ => if (c =? LF)%Z then Some [CR; LF] else Some [CR]
        | [] => Some [CR]
        end
      else firstTerminator rest
  end.

(** The number of places of [s] at which [pat] occurs. *)
Fixpoint occurrences (pat s : list Z) : nat :=
  match s with
  | [] => 0
  | _ :: s' => (if startsWith pat s then 1 else 0) + occurrences pat s'
  end.

(** The number N of the request sizer: the occurrences of the
    convention of the payload, 0 when it has no terminator. *)
Definition terminators (payload : bytes) : nat :=
  match firstTerminator payload with
  | None => 0
  | Some lb => occurrences lb payload
  end.

(** Splitting a text on a separator that is not empty.  [skip] counts
    the characters of a separator just met that are still to pass,
    [cur] is the piece under way, reversed. *)
Fixpoint splitOn (sep : jsstring) (skip : nat) (cur : jsstring)
         (s : jsstring) : list jsstring :=
  match s with
  | [] => [rev cur]
  | c :: s' =>
      match skip with
      | S k => splitOn sep k cur s'
      | 0 =>
          if startsWith sep s
          then rev cur :: splitOn sep (length sep - 1) [] s'
          else splitOn sep 0 (c :: cur) s'
      end
  end.

Definition split (sep s : jsstring) : list jsstring := splitOn sep 0 [] s.

(** The lines of a text as the specification has them: the pieces
    between terminators, without the last piece when it is empty. *)
Definition lines (sep s : jsstring) : list jsstring :=
  let parts := split sep s in
  match last parts [0%Z] with
  | [] => removelast parts
  | _ :: _ => parts
  end.

(** The lines of a text that end in a terminator: the pieces between
    terminators without the piece after the last terminator. *)
Definition terminatedLines (sep s : jsstring) : list jsstring :=
  removelast (split sep s).

End Spec.

(** ** Notions the statements are written in *)

(** The ids of the promises settled in a trace, in order. *)
Definition settledIds {R E} (trace : list (effect R E)) : list nat :=
  flat_map (fun e => match e with Settle id _ => [id] | _ => [] end) trace.

(** The number of EOS objects in a result array. *)
Definition boundaries {R E} (l : list (item R E)) : nat :=
  length (filter (fun x => match x with Boundary _ => true | _ => false end) l).

(** [this._result.push(...xs)] *)
Definition pushAll {R E} (this : MeCabReadTask.t R E) (xs : list (item R E)) :=
  MeCabReadTask.make
    (MeCabReadTask.super this) (MeCabReadTask._result this ++ xs)
    (MeCabReadTask._lastBuffer this) (MeCabReadTask._maxEos this)
    (MeCabReadTask._eosCount this) (MeCabReadTask._eosSample this)
    (MeCabReadTask._decoder this) (MeCabReadTask._eosObject this).

(** The bytes a read task carries over to the next chunk. *)
Definition carry {R E} (this : MeCabReadTask.t R E) : bytes :=
  match MeCabReadTask._lastBuffer this with
  | None => []
  | Some b => b
  end.

(** A task whose promise is settled with [s]. *)
Definition settledWith {R E} (task : Task R E) (s : settlement R E) : Task R E :=
  with_base task (DeferredTask.make (task_id task) (Some s)).

(** What [task.resolve] and [task.reject] do to a task. *)
Definition settleTask {R E} (task : Task R E) (s : settlement R E)
  : Task R E * list (effect R E) :=
  let '(d, fx) := DeferredTask.settle (base task) s in (with_base task d, fx).

(** The rejections [_rejectAllTasks] performs: one for each task of the
    queue that is still pending, in the order of the queue. *)
Definition rejections {R E} (tasks : list (Task R E)) (r : reason)
  : list (effect R E) :=
  flat_map (fun task => if pending task
                        then [Settle (task_id task) (Rejected r)]
                        else []) tasks.

(** What [kill] does once the kill task is in the queue.  A task that
    is not [alone] there waits.  One that is alone is started at once:
    the signal is sent, or else, its name being unknown, [start] throws
    and the promise of the call is rejected. *)
Definition atCall {R E} (this : MeCab.t R E) (alone : bool)
           (optSignal : string) : list (effect R E) :=
  if alone then
    if ChildProcess.signals (MeCab._process this) optSignal
    then [ProcessKill optSignal]
    else [CallRejected (MeCab.created this)]
  else [].

(** The text of a segment: the decoder of the task applied to the whole
    of it, or else the bytes read as UTF-8. *)
Definition sentenceOf {R E} (this : MeCabReadTask.t R E) (segment : bytes)
  : jsstring :=
  match MeCabReadTask._decoder this with
  | Some decoder => toString (decoder segment)
  | None => toString_utf8 segment
  end.

(** The records of a segment: its lines that end in [EOL], parsed. *)
Definition records {R E} (os : Platform) (mecab : MeCab.t R E)
           (this : MeCabReadTask.t R E) (segment : bytes) : list (item R E) :=
  map (fun line => Parsed (MeCab.lineParser mecab line))
      (Spec.terminatedLines (EOL os) (sentenceOf this segment)).

(** A read task after the segment before a found EOS is parsed and the
    EOS is counted. *)
Definition counted {R E} (os : Platform) (mecab : MeCab.t R E)
           (this : MeCabReadTask.t R E) (segment : bytes) :=
  let this := pushAll this (records os mecab this segment) in
  MeCabReadTask.with_eosCount this (S (MeCabReadTask._eosCount this)).

(** The loop of [readData] seen from the bytes not yet consumed. *)
Fixpoint readRest {R E} (os : Platform) (fuel : nat) (mecab : MeCab.t R E)
         (this : MeCabReadTask.t R E) (rest : bytes)
  : outcome (MeCabReadTask.t R E * bool * list (effect R E)) :=
  match rest with
  | [] => Normal (this, false, [])
  | _ :: _ =>
      match fuel with
      | 0 => Diverges
      | S fuel' =>
          match search (MeCabReadTask._eosSample this) rest 0 with
          | None =>
              Normal (MeCabReadTask.with_lastBuffer this (Some rest), false, [])
          | Some k =>
              let this := counted os mecab this (firstn k rest) in
              if MeCabReadTask._eosCount this =? MeCabReadTask._maxEos this then
                let '(d, fx) :=
                  DeferredTask.resolve (MeCabReadTask.super this)
                    (Result (MeCabReadTask._result this)) in
                Normal (MeCabReadTask.with_super this d, true, fx)
              else
                readRest os fuel' mecab
                  (MeCabReadTask.push this
                     (Boundary (MeCabReadTask._eosObject this)))
                  (skipn (k + length (MeCabReadTask._eosSample this)) rest)
          end
      end
  end.

(** How the scan of some bytes and the scan of the same bytes followed
    by more are related: a scan that completes the task, or that does
    not end, is not changed by what follows; a scan that leaves the task
    incomplete has no effect and [continues] with what follows. *)
Definition extends {R E}
           (continues : MeCabReadTask.t R E ->
                        outcome (MeCabReadTask.t R E * bool * list (effect R E)) ->
                        Prop)
           (first whole : outcome (MeCabReadTask.t R E * bool * list (effect R E)))
  : Prop :=
  match first with
  | Normal (this', true, fx) => whole = Normal (this', true, fx)
  | Normal (this', false, fx) => fx = [] /\ continues this' whole
  | TypeError => False
  | Diverges => whole = Diverges
  end.

(** Where the first line terminator of some bytes starts, and what
    [_countSentences] takes it for. *)
Fixpoint firstBreak (s : bytes) : option (nat * lineBreak) :=
  match s with
  | [] => None
  | b :: rest =>
      if (b =? LF)%Z then Some (0, Num b)
      else if (b =? CR)%Z then
        match rest with
        | c :: _ => if (c =? LF)%Z then Some (0, CRLFBuffer) else Some (0, Num CR)
        | [] => Some (0, Num CR)
        end
      else option_map (fun '(i, lb) => (S i, lb)) (firstBreak rest)
  end.

(** What follows a scan that left the task incomplete: the scan of the
    carried bytes and the bytes that follow, with any fuel that is
    enough. *)
Definition rescans {R E} (os : Platform) (mecab : MeCab.t R E) (extra : bytes)
           (this' : MeCabReadTask.t R E)
           (whole : outcome (MeCabReadTask.t R E * bool * list (effect R E)))
  : Prop :=
  forall f2,
    length (carry this' ++ extra) + MeCabReadTask._maxEos this' <= f2 ->
    whole = readRest os f2 mecab (MeCabReadTask.with_lastBuffer this' None)
                     (carry this' ++ extra).

(** The three line terminators [_countSentences] can settle on. *)
Definition terminator (pat : bytes) : Prop :=
  pat = [LF] \/ pat = [CR] \/ pat = [CR; LF].

(** The callbacks the source gives [forEach] all settle the task. *)
Definition settles {R E} (f : Task R E -> Task R E * list (effect R E)) : Prop :=
  forall task, exists s, f task = settleTask task s.

(** The ids of the tasks of a queue that are still pending. *)
Definition pendingIds {R E} (tasks : list (Task R E)) : list nat :=
  map task_id (filter pending tasks).

(** What holds of every [MeCab] object a run reaches: the ids of the
    queue grow along the queue and are ids of constructed tasks, the
    promises settled so far were settled in the order of their ids, and a
    task of the queue that is still pending has a greater id than every
    promise settled so far. *)
Record Inv {R E} (m : MeCab.t R E) : Prop := {
  inv_queue : StronglySorted lt (map task_id (MeCab._tasks m));
  inv_fresh : Forall (fun id => id < MeCab.created m)
                     (map task_id (MeCab._tasks m));
  inv_settled : Forall (fun id => id < MeCab.created m)
                       (settledIds (MeCab.trace m));
  inv_order : StronglySorted lt (settledIds (MeCab.trace m));
  inv_pending :
    forall sid id,
      In sid (settledIds (MeCab.trace m)) ->
      In id (pendingIds (MeCab._tasks m)) ->
      sid < id
}.

(** The trace of a run that returned. *)
Definition traceOf {R E} (o : outcome (MeCab.t R E)) : outcome (list (effect R E)) :=
  m <- o ;; Normal (MeCab.trace m).

(** The queue of a run that returned. *)
Definition queueOf {R E} (o : outcome (MeCab.t R E)) : outcome (list (Task R E)) :=
  m <- o ;; Normal (MeCab._tasks m).

(** ** Inputs the statements are tried on *)

Module Example.

(** A line feed and a tab have no escape in a string literal. *)
Definition a1a2 : bytes := lit "a1" ++ [HT] ++ lit "a2" ++ [LF].
Definition b1b2 : bytes := lit "b1" ++ [HT] ++ lit "b2" ++ [LF].
Definition eos : bytes := lit "EOS" ++ [LF].

(** The text ["A\nB"] and the output of the subprocess for it. *)
Definition textAB : jsstring := lit "A" ++ [LF] ++ lit "B".
Definition outputAB : bytes := a1a2 ++ eos ++ b1b2 ++ eos.

(** A child process that knows the signals the examples send, and
    no signal called [SIGNONE]. *)
Definition child : ChildProcess.t :=
  ChildProcess.make
    (fun signal =>
       existsb (String.eqb signal)
               ["SIGHUP"%string; "SIGINT"%string; "SIGKILL"%string;
                "SIGTERM"%string]).

(** A [MeCab] object with one request ["A"] under way, and the request. *)
Definition oneRequest : MeCab.t (list jsstring) jsstring :=
  match analyze POSIX (spawn POSIX child) (Str (lit "A")) None None with
  | Normal m => m
  | _ => spawn POSIX child
  end.

Definition request : MeCabReadTask.t (list jsstring) jsstring :=
  match MeCab._tasks oneRequest with
  | Read task :: _ => task
  | _ => newReadTask (spawn POSIX child) 1 None
  end.

(** That request once the subprocess has answered [eos]. *)
Definition requestDone : MeCabReadTask.t (list jsstring) jsstring :=
  MeCabReadTask.with_super
    (MeCabReadTask.with_eosCount request 1)
    (DeferredTask.make 0 (Some (Fulfilled (Result [])))).

(** A [MeCab] object with two requests queued. *)
Definition twoQueued : MeCab.t (list jsstring) jsstring :=
  match run POSIX (spawn POSIX child)
            [CallAnalyze (Str (lit "A")) None None;
             CallAnalyze (Str (lit "B")) None None] with
  | Normal m => m
  | _ => spawn POSIX child
  end.

(** A [MeCab] object with three requests queued. *)
Definition threeRequests : MeCab.t (list jsstring) jsstring :=
  match run POSIX (spawn POSIX child)
            [CallAnalyze (Str (lit "A")) None None;
             CallAnalyze (Str (lit "B")) None None;
             CallAnalyze (Str (lit "C")) None None] with
  | Normal m => m
  | _ => spawn POSIX child
  end.

(** The results the specification gives for its two examples, and the
    result the program gives for the first. *)
Definition ab : list (item (list jsstring) jsstring) :=
  [Parsed [lit "a1"; lit "a2"]; Boundary (lit "EOS");
   Parsed [lit "b1"; lit "b2"]].

Definition abClaimed : list (item (list jsstring) jsstring) :=
  ab ++ [Boundary (lit "EOS")].

Definition loneClaimed : list (item (list jsstring) jsstring) :=
  [Boundary (lit "EOS")].

(** Two requests and the output of the subprocess for both, cut in the
    middle of the first EOS. *)
Definition twoRequests : list (event (list jsstring) jsstring) :=
  [CallAnalyze (Str (lit "A")) None None;
   CallAnalyze (Str (lit "B")) None None;
   StdoutData (a1a2 ++ lit "EO");
   StdoutData (lit "S" ++ [LF] ++ b1b2);
   StdoutData eos].

(** The [MeCab] object at the end of that run. *)
Definition twoDone : MeCab.t (list jsstring) jsstring :=
  match run POSIX (spawn POSIX child) twoRequests with
  | Normal m => m
  | _ => spawn POSIX child
  end.

(** A [MeCab] object with a request and then a kill queued. *)
Definition requestThenKill : MeCab.t (list jsstring) jsstring :=
  kill oneRequest false "SIGTERM".

Definition killTask : MeCabKillTask.t (list jsstring) jsstring :=
  MeCabKillTask.make (DeferredTask.make 1 None) "SIGTERM".

(** The output for ["A\nB"] in three chunks, the first EOS cut in two,
    and the read task once it has consumed them. *)
Definition chunksAB : list bytes :=
  [a1a2; lit "EO"; lit "S" ++ [LF] ++ b1b2 ++ eos].

Definition doneAB : MeCabReadTask.t (list jsstring) jsstring :=
  MeCabReadTask.make
    (DeferredTask.make 0 (Some (Fulfilled (Result ab))))
    ab None 2 2 eos None (lit "EOS").

(** A text whose last line has no terminator. *)
Definition unterminated : jsstring := lit "a" ++ [LF] ++ lit "b".

End Example.

(** ** Notions for the further properties *)

(** What a run of whole segments leaves in a result: the records of
    each segment and then the EOS object of the task. *)
Definition framed {R E} (os : Platform) (mecab : MeCab.t R E)
           (this : MeCabReadTask.t R E) (segments : list bytes)
  : list (item R E) :=
  flat_map (fun segment =>
              records os mecab this segment
                ++ [Boundary (MeCabReadTask._eosObject this)])
           segments.

(** The tasks constructed since the id [first] are all accounted for:
    each has settled or waits in the queue, and a task of the queue that
    is no longer pending has settled. *)
Record Accounted {R E} (first : nat) (m : MeCab.t R E) : Prop := {
  acc_all :
    forall id, first <= id < MeCab.created m ->
               In id (settledIds (MeCab.trace m))
               \/ In id (pendingIds (MeCab._tasks m));
  acc_queue :
    forall task, In task (MeCab._tasks m) ->
                 pending task = false ->
                 In (task_id task) (settledIds (MeCab.trace m))
}.

(** The separators of a line, for a class of separators. *)
Definition separators (sep : Z -> bool) (line : jsstring) : jsstring :=
  filter sep line.

(** The code of the backslash, which starts the two characters that
    [setEOSSample] replaces by [EOL]. *)
Definition BACKSLASH : Z := 92.

(** The characters of ASCII. *)
Definition ascii7 (c : Z) : Prop := (0 <= c < 128)%Z.

Module Sample.

(** The [MeCab] object after [setEOSSample('')], and a read task made
    for it then, which waits for the first of two EOS with an empty EOS
    sample. *)
Definition noSample : MeCab.t (list jsstring) jsstring :=
  setEOSSample POSIX (spawn POSIX Example.child) (Str []).

Definition emptySample : MeCabReadTask.t (list jsstring) jsstring :=
  newReadTask noSample 2 None.

(** A text with a line feed and a CR LF in it. *)
Definition mixed : bytes := lit "a" ++ [LF] ++ lit "b" ++ [CR; LF] ++ lit "c".

End Sample.

(** * Proofs *)

Unset Implicit Arguments.

(** ** Searching *)

Lemma startsWith_nil (hay : list Z) : startsWith [] hay = true.
Proof. destruct hay; reflexivity. Qed.

Lemma startsWith_length (needle hay : list Z) :
  startsWith needle hay = true -> length needle <= length hay.
Proof.
  revert hay. induction needle as [|x needle IH]; intros [|y hay] H; simpl in *;
    try lia; try discriminate.
  apply andb_true_iff in H. destruct H as [_ H]. apply IH in H. lia.
Qed.

Lemma startsWith_app (needle hay extra : list Z) :
  startsWith needle hay = true -> startsWith needle (hay ++ extra) = true.
Proof.
  revert hay. induction needle as [|x needle IH]; intros [|y hay] H; simpl in *;
    try reflexivity; try discriminate.
  apply andb_true_iff in H. destruct H as [H1 H2].
  rewrite H1, (IH _ H2). reflexivity.
Qed.

Lemma startsWith_app_inv (needle hay extra : list Z) :
  length needle <= length hay ->
  startsWith needle (hay ++ extra) = startsWith needle hay.
Proof.
  revert hay. induction needle as [|x needle IH]; intros [|y hay] H; simpl in *;
    try reflexivity; try lia.
  rewrite IH by lia. reflexivity.
Qed.

Lemma search_shift (needle hay : list Z) (pos : nat) :
  search needle hay pos = option_map (fun k => pos + k) (search needle hay 0).
Proof.
  revert pos. induction hay as [|y hay IH]; intros pos; simpl.
  - destruct (startsWith needle []); simpl; [f_equal; lia | reflexivity].
  - destruct (startsWith needle (y :: hay)); simpl; [f_equal; lia |].
    rewrite (IH (S pos)), (IH 1).
    destruct (search needle hay 0); simpl; [f_equal; lia | reflexivity].
Qed.

Lemma search_cons (needle : list Z) (y : Z) (hay : list Z) :
  search needle (y :: hay) 0 =
  if startsWith needle (y :: hay) then Some 0
  else option_map S (search needle hay 0).
Proof.
  simpl. destruct (startsWith needle (y :: hay)); [reflexivity |].
  rewrite search_shift. destruct (search needle hay 0); reflexivity.
Qed.

(** A match lies inside the sequence. *)
Lemma search_bound (needle hay : list Z) (k : nat) :
  search needle hay 0 = Some k -> k + length needle <= length hay.
Proof.
  revert k. induction hay as [|y hay IH]; intros k H.
  - simpl in H. destruct (startsWith needle []) eqn:Hs; [|discriminate].
    injection H as <-. apply startsWith_length in Hs. simpl in *. lia.
  - rewrite search_cons in H.
    destruct (startsWith needle (y :: hay)) eqn:Hs.
    + injection H as <-. apply startsWith_length in Hs. lia.
    + destruct (search needle hay 0) as [k'|]; [|discriminate].
      injection H as <-. specialize (IH _ eq_refl). simpl. lia.
Qed.

Lemma search_found (needle hay : list Z) (k : nat) :
  search needle hay 0 = Some k -> startsWith needle (skipn k hay) = true.
Proof.
  revert k. induction hay as [|y hay IH]; intros k H.
  - simpl in H. destruct (startsWith needle []) eqn:Hs; [|discriminate].
    injection H as <-. exact Hs.
  - rewrite search_cons in H.
    destruct (startsWith needle (y :: hay)) eqn:Hs.
    + injection H as <-. exact Hs.
    + destruct (search needle hay 0) as [k'|]; [|discriminate].
      injection H as <-. simpl. apply IH. reflexivity.
Qed.

(** The leftmost match of a sequence is the leftmost match of every
    sequence it starts. *)
Lemma search_app (needle hay extra : list Z) (k : nat) :
  search needle hay 0 = Some k -> search needle (hay ++ extra) 0 = Some k.
Proof.
  revert k. induction hay as [|y hay IH]; intros k H.
  - simpl in H. destruct (startsWith needle []) eqn:Hs; [|discriminate].
    injection H as <-. destruct needle; [|discriminate].
    destruct extra; reflexivity.
  - rewrite search_cons in H. simpl app. rewrite search_cons.
    destruct (startsWith needle (y :: hay)) eqn:Hs.
    + injection H as <-.
      change (y :: hay ++ extra) with ((y :: hay) ++ extra).
      rewrite (startsWith_app _ _ extra Hs). reflexivity.
    + destruct (search needle hay 0) as [k'|] eqn:Hk; [|discriminate].
      injection H as <-.
      change (y :: hay ++ extra) with ((y :: hay) ++ extra).
      rewrite startsWith_app_inv, Hs.
      * rewrite (IH _ eq_refl). reflexivity.
      * apply search_bound in Hk. simpl. lia.
Qed.

Lemma search_nil (hay : list Z) : search [] hay 0 = Some 0.
Proof. destruct hay; reflexivity. Qed.

Lemma indexOf_search (hay needle : list Z) (from : nat) :
  from <= length hay ->
  indexOf hay needle from =
  option_map (fun k => from + k) (search needle (skipn from hay) 0).
Proof.
  intros H. unfold indexOf. rewrite Nat.min_l by exact H. apply search_shift.
Qed.

(** ** Lines *)

Lemma EOL_length (os : Platform) : 0 < length (EOL os).
Proof. destruct os; simpl; lia. Qed.

Lemma splitOn_skip (sep : jsstring) (n : nat) (cur s : jsstring) :
  Spec.splitOn sep n cur s = Spec.splitOn sep 0 cur (skipn n s).
Proof.
  revert n. induction s as [|c s IH]; intros [|n]; try reflexivity.
  simpl. apply IH.
Qed.

Lemma splitOn_not_nil (sep : jsstring) (n : nat) (cur s : jsstring) :
  Spec.splitOn sep n cur s <> [].
Proof.
  revert n cur. induction s as [|c s IH]; intros n cur; simpl; [discriminate|].
  destruct n; [|apply IH].
  destruct (startsWith sep (c :: s)); [discriminate | apply IH].
Qed.

Lemma splitOn_none (sep cur s : jsstring) :
  search sep s 0 = None -> Spec.splitOn sep 0 cur s = [rev cur ++ s].
Proof.
  revert cur. induction s as [|c s IH]; intros cur H.
  - simpl. rewrite app_nil_r. reflexivity.
  - rewrite search_cons in H. simpl.
    destruct (startsWith sep (c :: s)); [discriminate|].
    destruct (search sep s 0); [discriminate|].
    rewrite IH by reflexivity. simpl. rewrite <- app_assoc. reflexivity.
Qed.

Lemma splitOn_some (sep cur s : jsstring) (k : nat) :
  0 < length sep ->
  search sep s 0 = Some k ->
  Spec.splitOn sep 0 cur s =
  (rev cur ++ firstn k s) :: Spec.splitOn sep 0 [] (skipn (k + length sep) s).
Proof.
  intros Hsep. revert cur k. induction s as [|c s IH]; intros cur k H.
  - apply search_bound in H. simpl in H. lia.
  - rewrite search_cons in H. simpl Spec.splitOn.
    destruct (startsWith sep (c :: s)) eqn:Hs.
    + injection H as <-. simpl firstn. rewrite app_nil_r.
      rewrite splitOn_skip. destruct (length sep) as [|n]; [lia|].
      simpl. rewrite Nat.sub_0_r. reflexivity.
    + destruct (search sep s 0) as [k'|]; [|discriminate].
      injection H as <-. rewrite (IH _ _ eq_refl). simpl.
      rewrite <- app_assoc. reflexivity.
Qed.

Lemma terminatedLines_none (sep s : jsstring) :
  search sep s 0 = None -> Spec.terminatedLines sep s = [].
Proof.
  intros H. unfold Spec.terminatedLines, Spec.split.
  rewrite splitOn_none by exact H. reflexivity.
Qed.

Lemma terminatedLines_some (sep s : jsstring) (k : nat) :
  0 < length sep ->
  search sep s 0 = Some k ->
  Spec.terminatedLines sep s =
  firstn k s :: Spec.terminatedLines sep (skipn (k + length sep) s).
Proof.
  intros Hsep H. unfold Spec.terminatedLines, Spec.split.
  rewrite (splitOn_some _ [] _ _ Hsep H). simpl.
  destruct (Spec.splitOn sep 0 [] (skipn (k + length sep) s)) eqn:Hd.
  - exfalso. exact (splitOn_not_nil _ _ _ _ Hd).
  - reflexivity.
Qed.

Lemma pushAll_nil {R E} (this : MeCabReadTask.t R E) : pushAll this [] = this.
Proof. destruct this. unfold pushAll. simpl. rewrite app_nil_r. reflexivity. Qed.

Lemma pushAll_push {R E} (this : MeCabReadTask.t R E) x xs :
  pushAll (MeCabReadTask.push this x) xs = pushAll this (x :: xs).
Proof.
  unfold pushAll, MeCabReadTask.push. simpl. rewrite <- app_assoc. reflexivity.
Qed.

Lemma substring_firstn (s : jsstring) (offset k : nat) :
  substring s offset (offset + k) = firstn k (skipn offset s).
Proof.
  unfold substring. rewrite Nat.max_r, Nat.min_l by lia.
  replace (offset + k - offset) with k by lia. reflexivity.
Qed.

(** The loop of [_parseSentence] pushes the parsed lines that end in
    [EOL], in order, whatever fuel it has beyond the length left. *)
Lemma parseLoop_spec {R E} (os : Platform) (parse : jsstring -> R)
      (sentence : jsstring) (fuel : nat) :
  forall (this : MeCabReadTask.t R E) (offset : nat),
    offset <= length sentence ->
    length sentence - offset <= fuel ->
    parseLoop os fuel parse this sentence offset =
    Normal (pushAll this
              (map (fun line => Parsed (parse line))
                   (Spec.terminatedLines (EOL os) (skipn offset sentence)))).
Proof.
  induction fuel as [|fuel IH]; intros this offset Hle Hfuel.
  - assert (offset = length sentence) as -> by lia.
    rewrite skipn_all.
    replace (parseLoop os 0 parse this sentence (length sentence))
      with (Normal this).
    + simpl. rewrite pushAll_nil. reflexivity.
    + destruct sentence; simpl; rewrite ?Nat.ltb_irrefl; reflexivity.
  - simpl. destruct (offset <? length sentence) eqn:Hlt.
    + apply Nat.ltb_lt in Hlt.
      rewrite indexOf_search by exact Hle.
      destruct (search (EOL os) (skipn offset sentence) 0) as [k|] eqn:Hk; simpl.
      * pose proof (search_bound _ _ _ Hk) as Hb. rewrite length_skipn in Hb.
        pose proof (EOL_length os) as Hpos.
        assert (H1 : offset + k + length (EOL os) <= length sentence) by lia.
        assert (H2 : length sentence - (offset + k + length (EOL os)) <= fuel) by lia.
        rewrite (IH _ _ H1 H2).
        rewrite pushAll_push, substring_firstn.
        rewrite (terminatedLines_some _ _ _ Hpos Hk), skipn_skipn. simpl.
        replace (k + length (EOL os) + offset) with (offset + k + length (EOL os)) by lia.
        reflexivity.
      * rewrite (terminatedLines_none _ _ Hk). simpl.
        rewrite pushAll_nil. reflexivity.
    + apply Nat.ltb_ge in Hlt. rewrite skipn_all2 by exact Hlt.
      simpl. rewrite pushAll_nil. reflexivity.
Qed.

Lemma _parseSentence_spec {R E} (os : Platform) (mecab : MeCab.t R E)
      (this : MeCabReadTask.t R E) (sentence : jsstring) :
  _parseSentence os mecab this sentence =
  Normal (pushAll this
            (map (fun line => Parsed (MeCab.lineParser mecab line))
                 (Spec.terminatedLines (EOL os) sentence))).
Proof.
  unfold _parseSentence. rewrite parseLoop_spec by lia. reflexivity.
Qed.

(** ** The loop of [readData] *)

(** Parsing the sentence before a found EOS, skipped by the source when
    the sentence is empty, pushes the records of the segment. *)
Lemma parse_step {R E} (os : Platform) (mecab : MeCab.t R E)
      (this : MeCabReadTask.t R E) (buffer : bytes) (offset k : nat) :
  match decodeSentence this buffer offset (offset + k) with
  | [] => Normal this
  | _ :: _ =>
      _parseSentence os mecab this
        (decodeSentence this buffer offset (offset + k))
  end =
  Normal (pushAll this (records os mecab this (firstn k (skipn offset buffer)))).
Proof.
  unfold records, sentenceOf, decodeSentence, slice.
  replace (offset + k - offset) with k by lia.
  set (sentence := match MeCabReadTask._decoder this with
                   | Some decoder => _
                   | None => _
                   end).
  destruct sentence eqn:Hs.
  - simpl. rewrite pushAll_nil. reflexivity.
  - rewrite _parseSentence_spec. reflexivity.
Qed.

Lemma readLoop_rest {R E} (os : Platform) (mecab : MeCab.t R E)
      (buffer : bytes) (fuel : nat) :
  forall (this : MeCabReadTask.t R E) (offset : nat),
    offset <= length buffer ->
    readLoop os fuel mecab this buffer offset =
    readRest os fuel mecab this (skipn offset buffer).
Proof.
  induction fuel as [|fuel IH]; intros this offset Hle.
  - simpl. destruct (offset <? length buffer) eqn:Hlt.
    + apply Nat.ltb_lt in Hlt.
      destruct (skipn offset buffer) eqn:Hs; [|reflexivity].
      apply (f_equal (@length Z)) in Hs. rewrite length_skipn in Hs.
      simpl in Hs. lia.
    + apply Nat.ltb_ge in Hlt. rewrite skipn_all2 by exact Hlt. reflexivity.
  - cbn [readLoop]. destruct (offset <? length buffer) eqn:Hlt.
    + apply Nat.ltb_lt in Hlt.
      destruct (skipn offset buffer) as [|b rest] eqn:Hs.
      { apply (f_equal (@length Z)) in Hs. rewrite length_skipn in Hs.
        simpl in Hs. lia. }
      cbn [readRest]. rewrite <- Hs.
      rewrite indexOf_search by exact Hle.
      destruct (search (MeCabReadTask._eosSample this) (skipn offset buffer) 0)
        as [k|] eqn:Hk; cbn [option_map].
      * rewrite parse_step. cbn [bind].
        fold (counted os mecab this (firstn k (skipn offset buffer))).
        pose proof (search_bound _ _ _ Hk) as Hb. rewrite length_skipn in Hb.
        destruct (MeCabReadTask._eosCount
                    (counted os mecab this (firstn k (skipn offset buffer)))
                  =? MeCabReadTask._maxEos
                       (counted os mecab this (firstn k (skipn offset buffer)))).
        -- reflexivity.
        -- cbn [counted MeCabReadTask._eosSample MeCabReadTask.with_eosCount
                 pushAll] in *.
           rewrite IH by lia. rewrite skipn_skipn.
           replace (k + length (MeCabReadTask._eosSample this) + offset)
             with (offset + k + length (MeCabReadTask._eosSample this)) by lia.
           reflexivity.
      * reflexivity.
    + apply Nat.ltb_ge in Hlt. rewrite skipn_all2 by exact Hlt. reflexivity.
Qed.

(** The loop never throws. *)
Lemma readRest_no_TypeError {R E} (os : Platform) (mecab : MeCab.t R E)
      (fuel : nat) :
  forall (this : MeCabReadTask.t R E) (rest : bytes),
    readRest os fuel mecab this rest <> TypeError.
Proof.
  induction fuel as [|fuel IH]; intros this [|b rest]; cbn [readRest];
    try discriminate.
  match goal with |- context [search ?s ?r 0] => destruct (search s r 0) end;
    [|discriminate].
  match goal with |- context [if ?c then _ else _] => destruct c end.
  - destruct (DeferredTask.resolve _ _). discriminate.
  - apply IH.
Qed.

(** With an EOS sample that is not empty every turn consumes a byte, and
    fuel beyond the number of bytes left changes nothing. *)
Lemma readRest_fuel_sample {R E} (os : Platform) (mecab : MeCab.t R E)
      (f1 : nat) :
  forall (f2 : nat) (this : MeCabReadTask.t R E) (rest : bytes),
    0 < length (MeCabReadTask._eosSample this) ->
    length rest <= f1 -> length rest <= f2 ->
    readRest os f1 mecab this rest = readRest os f2 mecab this rest.
Proof.
  induction f1 as [|f1 IH]; intros f2 this rest Hs H1 H2.
  - destruct rest; [|simpl in H1; lia]. destruct f2; reflexivity.
  - destruct rest as [|b rest]; [destruct f2; reflexivity|].
    destruct f2 as [|f2]; [simpl in H2; lia|].
    cbn [readRest].
    destruct (search (MeCabReadTask._eosSample this) (b :: rest) 0)
      as [k|] eqn:Hk; [|reflexivity].
    match goal with |- context [if ?c then _ else _] => destruct c end;
      [reflexivity|].
    apply search_bound in Hk.
    apply IH; simpl MeCabReadTask._eosSample;
      try rewrite length_skipn; simpl length in *; lia.
Qed.

(** With an empty EOS sample the loop does not look at the bytes left,
    as long as there are some. *)
Lemma readRest_empty_any {R E} (os : Platform) (mecab : MeCab.t R E)
      (fuel : nat) :
  forall (this : MeCabReadTask.t R E) (rest rest' : bytes),
    MeCabReadTask._eosSample this = [] ->
    rest <> [] -> rest' <> [] ->
    readRest os fuel mecab this rest = readRest os fuel mecab this rest'.
Proof.
  induction fuel as [|fuel IH]; intros this rest rest' Hs Hr Hr'.
  - destruct rest, rest'; try contradiction; reflexivity.
  - destruct rest as [|b rest]; [contradiction|].
    destruct rest' as [|b' rest']; [contradiction|].
    cbn [readRest]. simpl MeCabReadTask._eosSample.
    rewrite Hs, !search_nil. cbn [firstn].
    match goal with |- context [if ?c then _ else _] => destruct c end;
      [reflexivity|].
    cbn [length Nat.add skipn]. apply IH; [exact Hs | discriminate ..].
Qed.

(** With an empty EOS sample and bytes left, the loop ends only by
    completing the task. *)
Lemma readRest_empty_done {R E} (os : Platform) (mecab : MeCab.t R E)
      (fuel : nat) :
  forall (this this' : MeCabReadTask.t R E) (rest : bytes) fx,
    MeCabReadTask._eosSample this = [] ->
    rest <> [] ->
    readRest os fuel mecab this rest <> Normal (this', false, fx).
Proof.
  induction fuel as [|fuel IH]; intros this this' rest fx Hs Hr.
  - destruct rest; [contradiction | discriminate].
  - destruct rest as [|b rest]; [contradiction|].
    cbn [readRest]. simpl MeCabReadTask._eosSample.
    rewrite Hs, search_nil. cbn [firstn].
    match goal with |- context [if ?c then _ else _] => destruct c end.
    + destruct (DeferredTask.resolve _ _). discriminate.
    + cbn [length Nat.add skipn]. apply IH; [exact Hs | discriminate].
Qed.

(** With an empty EOS sample, bytes left and no EOS left to wait for, the
    loop does not end. *)
Lemma readRest_empty_diverges {R E} (os : Platform) (mecab : MeCab.t R E)
      (fuel : nat) :
  forall (this : MeCabReadTask.t R E) (rest : bytes),
    MeCabReadTask._eosSample this = [] ->
    rest <> [] ->
    MeCabReadTask._maxEos this <= MeCabReadTask._eosCount this ->
    readRest os fuel mecab this rest = Diverges.
Proof.
  induction fuel as [|fuel IH]; intros this rest Hs Hr Hc.
  - destruct rest; [contradiction | reflexivity].
  - destruct rest as [|b rest]; [contradiction|].
    cbn [readRest]. simpl MeCabReadTask._eosSample.
    rewrite Hs, search_nil. cbn [firstn].
    destruct (_ =? _) eqn:Heq.
    + apply Nat.eqb_eq in Heq. simpl in Heq. lia.
    + cbn [length Nat.add skipn]. apply IH; [exact Hs | discriminate |].
      simpl. lia.
Qed.

Lemma readRest_fuel_empty {R E} (os : Platform) (mecab : MeCab.t R E)
      (f1 : nat) :
  forall (f2 : nat) (this : MeCabReadTask.t R E) (rest : bytes),
    MeCabReadTask._eosSample this = [] ->
    rest <> [] ->
    MeCabReadTask._maxEos this - MeCabReadTask._eosCount this <= f1 ->
    MeCabReadTask._maxEos this - MeCabReadTask._eosCount this <= f2 ->
    readRest os f1 mecab this rest = readRest os f2 mecab this rest.
Proof.
  induction f1 as [|f1 IH]; intros f2 this rest Hs Hr H1 H2.
  - rewrite !readRest_empty_diverges by (assumption || lia). reflexivity.
  - destruct (Nat.le_gt_cases (MeCabReadTask._maxEos this)
                              (MeCabReadTask._eosCount this)) as [Hc|Hc].
    { rewrite !readRest_empty_diverges by assumption. reflexivity. }
    destruct f2 as [|f2]; [lia|].
    destruct rest as [|b rest]; [contradiction|].
    cbn [readRest]. simpl MeCabReadTask._eosSample.
    rewrite Hs, search_nil. cbn [firstn].
    match goal with |- context [if ?c then _ else _] => destruct c end;
      [reflexivity|].
    cbn [length Nat.add skipn].
    apply IH; [exact Hs | discriminate | simpl; lia | simpl; lia].
Qed.

(** The fuel [readData] gives its loop is enough: more of it changes
    nothing. *)
Lemma readRest_enough {R E} (os : Platform) (mecab : MeCab.t R E)
      (this : MeCabReadTask.t R E) (rest : bytes) (f1 f2 : nat) :
  length rest + MeCabReadTask._maxEos this <= f1 ->
  length rest + MeCabReadTask._maxEos this <= f2 ->
  readRest os f1 mecab this rest = readRest os f2 mecab this rest.
Proof.
  intros H1 H2.
  destruct (MeCabReadTask._eosSample this) as [|c sample] eqn:Hs.
  - destruct rest as [|b rest]; [destruct f1, f2; reflexivity|].
    apply readRest_fuel_empty; try assumption; try discriminate; lia.
  - apply readRest_fuel_sample; try lia. rewrite Hs. simpl. lia.
Qed.

(** ** Chunks *)

Lemma with_lastBuffer_None {R E} (this : MeCabReadTask.t R E) :
  MeCabReadTask._lastBuffer this = None ->
  MeCabReadTask.with_lastBuffer this None = this.
Proof. destruct this. simpl. intros ->. reflexivity. Qed.

Lemma readData_rest {R E} (os : Platform) (mecab : MeCab.t R E)
      (this : MeCabReadTask.t R E) (data : bytes) :
  readData os mecab this data =
  readRest os (length (carry this ++ data) + MeCabReadTask._maxEos this) mecab
           (MeCabReadTask.with_lastBuffer this None) (carry this ++ data).
Proof.
  unfold readData, _concatBuffer, carry.
  destruct (MeCabReadTask._lastBuffer this) as [lastBuffer|] eqn:Hl.
  - rewrite readLoop_rest by lia. reflexivity.
  - rewrite readLoop_rest by lia. rewrite with_lastBuffer_None by exact Hl.
    reflexivity.
Qed.

Lemma firstn_app_le {A} (k : nat) (l1 l2 : list A) :
  k <= length l1 -> firstn k (l1 ++ l2) = firstn k l1.
Proof.
  intros H. rewrite firstn_app. replace (k - length l1) with 0 by lia.
  simpl. apply app_nil_r.
Qed.

Lemma skipn_app_le {A} (k : nat) (l1 l2 : list A) :
  k <= length l1 -> skipn k (l1 ++ l2) = skipn k l1 ++ l2.
Proof.
  intros H. rewrite skipn_app. replace (k - length l1) with 0 by lia.
  reflexivity.
Qed.

Lemma readRest_split_sample {R E} (os : Platform) (mecab : MeCab.t R E)
      (extra : bytes) (fuel : nat) :
  forall (this : MeCabReadTask.t R E) (rest : bytes),
    0 < length (MeCabReadTask._eosSample this) ->
    MeCabReadTask._lastBuffer this = None ->
    length (rest ++ extra) <= fuel ->
    extends (rescans os mecab extra)
            (readRest os fuel mecab this rest)
            (readRest os fuel mecab this (rest ++ extra)).
Proof.
  induction fuel as [|fuel IH]; intros this rest Hs Hl Hf.
  - destruct rest as [|b rest]; [|simpl in Hf; lia].
    destruct extra; [|simpl in Hf; lia].
    simpl. split; [reflexivity|]. intros f2 _.
    unfold carry. rewrite Hl, with_lastBuffer_None by exact Hl.
    destruct f2; reflexivity.
  - destruct rest as [|b rest].
    + replace (readRest os (S fuel) mecab this []) with
        (Normal (this, false, @nil (effect R E))) by reflexivity.
      cbn [extends app]. split; [reflexivity|]. intros f2 Hf2.
      unfold carry in *. rewrite Hl in *.
      rewrite with_lastBuffer_None by exact Hl. cbn [app] in *.
      apply readRest_fuel_sample; [exact Hs | exact Hf | lia].
    + destruct (search (MeCabReadTask._eosSample this) (b :: rest) 0)
        as [k|] eqn:Hk.
      * change ((b :: rest) ++ extra) with (b :: (rest ++ extra)).
        cbn [readRest].
        change (b :: (rest ++ extra)) with ((b :: rest) ++ extra).
        rewrite Hk, (search_app _ _ extra _ Hk).
        pose proof (search_bound _ _ _ Hk) as Hb.
        rewrite firstn_app_le by lia.
        simpl MeCabReadTask._eosSample.
        rewrite skipn_app_le by exact Hb.
        match goal with |- context [if ?c then _ else _] => destruct c end.
        -- destruct (DeferredTask.resolve _ _). reflexivity.
        -- apply IH; [exact Hs | exact Hl |].
           rewrite length_app, length_skipn. rewrite length_app in Hf.
           simpl length in *. lia.
      * replace (readRest os (S fuel) mecab this (b :: rest)) with
          (Normal (MeCabReadTask.with_lastBuffer this (Some (b :: rest)),
                   false, @nil (effect R E)))
          by (cbn [readRest]; rewrite Hk; reflexivity).
        cbn [extends]. split; [reflexivity|]. intros f2 Hf2.
        assert (Heq : MeCabReadTask.with_lastBuffer
                        (MeCabReadTask.with_lastBuffer this (Some (b :: rest)))
                        None = this)
          by exact (with_lastBuffer_None this Hl).
        rewrite Heq.
        change (carry (MeCabReadTask.with_lastBuffer this (Some (b :: rest))))
          with (b :: rest) in *.
        change (MeCabReadTask._maxEos
                  (MeCabReadTask.with_lastBuffer this (Some (b :: rest))))
          with (MeCabReadTask._maxEos this) in Hf2.
        apply readRest_fuel_sample; [exact Hs | exact Hf | lia].
Qed.

Lemma readRest_split {R E} (os : Platform) (mecab : MeCab.t R E)
      (extra : bytes) (fuel : nat) (this : MeCabReadTask.t R E) (rest : bytes) :
  MeCabReadTask._lastBuffer this = None ->
  length (rest ++ extra) + MeCabReadTask._maxEos this <= fuel ->
  extends (rescans os mecab extra)
          (readRest os fuel mecab this rest)
          (readRest os fuel mecab this (rest ++ extra)).
Proof.
  intros Hl Hf.
  destruct (MeCabReadTask._eosSample this) as [|c sample] eqn:Hs.
  - destruct rest as [|b rest].
    + replace (readRest os fuel mecab this []) with
        (Normal (this, false, @nil (effect R E))) by (destruct fuel; reflexivity).
      cbn [extends app]. split; [reflexivity|]. intros f2 Hf2.
      unfold carry in *. rewrite Hl in *.
      rewrite with_lastBuffer_None by exact Hl. cbn [app] in *.
      apply readRest_enough; [exact Hf | exact Hf2].
    + rewrite (readRest_empty_any os mecab fuel this
                 ((b :: rest) ++ extra) (b :: rest) Hs)
        by (simpl; discriminate).
      destruct (readRest os fuel mecab this (b :: rest))
        as [[[this' [|]] fx]| |] eqn:Hr; cbn [extends].
      * reflexivity.
      * exfalso. revert Hr. apply readRest_empty_done; [exact Hs | discriminate].
      * revert Hr. apply readRest_no_TypeError.
      * reflexivity.
  - apply readRest_split_sample; [rewrite Hs; simpl; lia | exact Hl | lia].
Qed.

(** A call of [readData] on some bytes followed by more: if the bytes
    complete the task, what follows them changes nothing; if they leave
    it incomplete, the call does what a second call on what follows
    does. *)
Lemma readData_split {R E} (os : Platform) (mecab : MeCab.t R E)
      (this : MeCabReadTask.t R E) (data extra : bytes) :
  extends (fun this' whole => whole = readData os mecab this' extra)
          (readData os mecab this data)
          (readData os mecab this (data ++ extra)).
Proof.
  rewrite !readData_rest.
  set (this0 := MeCabReadTask.with_lastBuffer this None).
  set (fuel := length (carry this ++ data ++ extra) + MeCabReadTask._maxEos this).
  assert (Hl : MeCabReadTask._lastBuffer this0 = None) by reflexivity.
  rewrite (readRest_enough os mecab this0 (carry this ++ data)
             (length (carry this ++ data) + MeCabReadTask._maxEos this) fuel)
    by (subst fuel this0; simpl; rewrite ?length_app; lia).
  pose proof (readRest_split os mecab extra fuel this0 (carry this ++ data) Hl)
    as H.
  rewrite <- app_assoc in H.
  specialize (H ltac:(subst fuel this0; simpl; lia)).
  destruct (readRest os fuel mecab this0 (carry this ++ data))
    as [[[this' [|]] fx]| |]; cbn [extends] in *; try exact H.
  destruct H as [Hfx H]. split; [exact Hfx|].
  rewrite readData_rest. apply H. simpl. lia.
Qed.

Lemma feed_cons {R E} (os : Platform) (mecab : MeCab.t R E)
      (chunks : list bytes) :
  forall (this : MeCabReadTask.t R E) (data : bytes),
    feed os mecab this (data :: chunks) =
    readData os mecab this (data ++ concat chunks).
Proof.
  induction chunks as [|data' chunks IH]; intros this data.
  - pose proof (readData_split os mecab this data []) as H.
    simpl concat. rewrite app_nil_r in *. cbn [feed].
    destruct (readData os mecab this data) as [[[this' [|]] fx]| |];
      cbn [bind extends] in *; try reflexivity.
    destruct H as [-> _]. reflexivity.
  - pose proof (readData_split os mecab this data (data' ++ concat chunks)) as H.
    change (feed os mecab this (data :: data' :: chunks)) with
      (' (this', done, fx) <- readData os mecab this data ;;
       if done : bool then Normal (this', true, fx)
       else feed os mecab this' (data' :: chunks)).
    simpl concat.
    destruct (readData os mecab this data) as [[[this' [|]] fx]| |];
      cbn [bind extends] in *.
    + symmetry. exact H.
    + destruct H as [_ ->]. apply IH.
    + contradiction.
    + symmetry. exact H.
Qed.

(** C2 (split-chunk framing).  Feeding a read task the bytes of the
    subprocess in successive chunks, however the bytes are cut, does
    what feeding it the same bytes as one chunk does: the same task
    state, the same completion and the same resolved result (or, with an
    empty EOS sample, the same loop that does not end).  This holds for
    a task in any state and at least one chunk, and for a task just
    constructed and any number of chunks. *)
Theorem split_chunk_framing :
  forall (R E : Type) (os : Platform) (mecab : MeCab.t R E),
    (forall (this : MeCabReadTask.t R E) (data : bytes) (chunks : list bytes),
        feed os mecab this (data :: chunks) =
        readData os mecab this (data ++ concat chunks))
    /\ (forall (lineBreaks : nat) (optDecoder : option (bytes -> decoded))
               (chunks : list bytes),
           feed os mecab (newReadTask mecab lineBreaks optDecoder) chunks =
           readData os mecab (newReadTask mecab lineBreaks optDecoder)
                    (concat chunks)).
Proof.
  intros R E os mecab. split.
  - intros this data chunks. apply feed_cons.
  - intros lineBreaks optDecoder [|data chunks].
    + destruct lineBreaks; reflexivity.
    + apply feed_cons.
Qed.

(** ** What is left of a chunk after the last EOS *)

(** ** Starting a task *)

(** [start] looks at the child process of the object only. *)
Lemma start_process {R E} (m m' : MeCab.t R E) (task : Task R E) :
  MeCab._process m = MeCab._process m' -> start m task = start m' task.
Proof. intros H. destruct task; simpl; [reflexivity|]. rewrite H. reflexivity. Qed.

(** [start] returns, having sent a signal at most, or throws. *)
Lemma start_cases {R E} (m : MeCab.t R E) (task : Task R E) :
  (exists fx, start m task = Normal fx) \/ start m task = TypeError.
Proof.
  destruct task as [r|k]; simpl.
  - left. eexists. reflexivity.
  - unfold ChildProcess.kill.
    destruct (ChildProcess.signals _ _); [left; eexists; reflexivity | right; reflexivity].
Qed.

Lemma readRest_done_lastBuffer {R E} (os : Platform) (mecab : MeCab.t R E)
      (fuel : nat) :
  forall (this this' : MeCabReadTask.t R E) (rest : bytes) fx,
    readRest os fuel mecab this rest = Normal (this', true, fx) ->
    MeCabReadTask._lastBuffer this' = MeCabReadTask._lastBuffer this.
Proof.
  induction fuel as [|fuel IH]; intros this this' rest fx H.
  - destruct rest; discriminate.
  - destruct rest as [|b rest]; [discriminate|].
    cbn [readRest] in H.
    destruct (search (MeCabReadTask._eosSample this) (b :: rest) 0) as [k|];
      [|discriminate].
    match type of H with
    | context [if ?c then _ else _] => destruct c
    end.
    + destruct (DeferredTask.resolve _ _) as [d fx'] in H.
      injection H as <- _. reflexivity.
    + apply IH in H. exact H.
Qed.

(** C10 (bytes after the last EOS).  When a chunk completes the read
    task at the head of the queue, whatever bytes follow in the same
    chunk change nothing: the task, its result and its settlement are
    those of the chunk without them, the task carries no bytes over, and
    the handler of ['data'] ends the very same way: it leaves the very
    same [MeCab] object, whose queue is the queue behind the task,
    untouched, and whose trace has grown by the settlement and by what
    starting the next task did; or, when starting the next task
    throws, it throws. *)
Theorem bytes_after_last_eos_are_dropped :
  forall (R E : Type) (os : Platform) (mecab : MeCab.t R E)
         (task task' : MeCabReadTask.t R E) (rest : list (Task R E))
         (data extra : bytes) (fx : list (effect R E)),
    MeCab._tasks mecab = Read task :: rest ->
    readData os mecab task data = Normal (task', true, fx) ->
    readData os mecab task (data ++ extra) = Normal (task', true, fx)
    /\ MeCabReadTask._lastBuffer task' = None
    /\ onData os mecab (data ++ extra) = onData os mecab data
    /\ match match rest with
             | next :: _ => start mecab next
             | [] => Normal []
             end with
       | Normal started =>
           exists mecab',
             onData os mecab (data ++ extra) = Normal mecab'
             /\ MeCab._tasks mecab' = rest
             /\ MeCab.trace mecab' = MeCab.trace mecab ++ fx ++ started
       | _ => onData os mecab (data ++ extra) = TypeError
       end.
Proof.
  intros R E os mecab task task' rest data extra fx Hq Hd.
  pose proof (readData_split os mecab task data extra) as Hs.
  rewrite Hd in Hs. cbn [extends] in Hs.
  assert (Hl : MeCabReadTask._lastBuffer task' = None).
  { rewrite readData_rest in Hd.
    apply readRest_done_lastBuffer in Hd. exact Hd. }
  repeat split; try assumption.
  - unfold onData. rewrite Hq, Hs, Hd. reflexivity.
  - unfold onData. rewrite Hq, Hs. cbn [bind].
    destruct rest as [|next rest].
    + eexists. split; [reflexivity|]. split; [reflexivity|].
      simpl. rewrite app_nil_r. reflexivity.
    + rewrite (start_process (MeCab.with_tasks _ _) mecab next) by reflexivity.
      destruct (start_cases mecab next) as [(started & ->) | ->].
      * cbn [bind]. eexists. split; [reflexivity|].
        split; [reflexivity|].
        simpl. rewrite <- app_assoc. reflexivity.
      * reflexivity.
Qed.

Lemma bytes_after_last_eos_are_dropped_witness :
  exists task' fx,
    readData POSIX Example.oneRequest Example.request
             (Example.eos ++ lit "junk") = Normal (task', true, fx)
    /\ MeCabReadTask._result task' = []
    /\ queueOf (onData POSIX Example.oneRequest (Example.eos ++ lit "junk"))
       = Normal [].
Proof.
  pose (done := MeCabReadTask.with_super
                  (MeCabReadTask.with_eosCount Example.request 1)
                  (DeferredTask.make 0 (Some (Fulfilled (Result []))))).
  pose (fx := [Settle 0 (Fulfilled (@Result (list jsstring) jsstring []))]).
  assert (Hd : readData POSIX Example.oneRequest Example.request Example.eos
               = Normal (done, true, fx)) by reflexivity.
  destruct (bytes_after_last_eos_are_dropped
              _ _ POSIX Example.oneRequest Example.request
              done [] Example.eos (lit "junk") fx eq_refl Hd)
    as (H1 & _ & _ & H).
  cbv iota in H. destruct H as (mecab' & H2 & H3 & _).
  exists done, fx. split; [exact H1|]. split; [reflexivity|].
  unfold queueOf. rewrite H2. simpl. rewrite H3. reflexivity.
Defined.

(** ** The EOS objects of a result *)

Lemma boundaries_app {R E} (l1 l2 : list (item R E)) :
  boundaries (l1 ++ l2) = boundaries l1 + boundaries l2.
Proof. unfold boundaries. rewrite filter_app, length_app. reflexivity. Qed.

Lemma boundaries_parsed {R E} (rs : list R) :
  boundaries (map (@Parsed R E) rs) = 0.
Proof. induction rs as [|r rs IH]; [reflexivity | exact IH]. Qed.

Lemma boundaries_records {R E} (os : Platform) (mecab : MeCab.t R E)
      (this : MeCabReadTask.t R E) (segment : bytes) :
  boundaries (records os mecab this segment) = 0.
Proof.
  unfold records.
  rewrite <- (map_map (MeCab.lineParser mecab) (@Parsed R E)).
  apply boundaries_parsed.
Qed.

(** While a task is scanned with as many EOS objects in its result as
    EOS counted, it stays so until it completes, and it completes with
    one EOS object less than EOS expected: the EOS that completes it
    leaves none. *)
Lemma readRest_boundaries {R E} (os : Platform) (mecab : MeCab.t R E)
      (fuel : nat) :
  forall (this this' : MeCabReadTask.t R E) (rest : bytes) (done : bool) fx,
    boundaries (MeCabReadTask._result this) = MeCabReadTask._eosCount this ->
    readRest os fuel mecab this rest = Normal (this', done, fx) ->
    MeCabReadTask._maxEos this' = MeCabReadTask._maxEos this
    /\ if done then
         boundaries (MeCabReadTask._result this') + 1 = MeCabReadTask._maxEos this
         /\ DeferredTask.resolve (MeCabReadTask.super this)
                                 (Result (MeCabReadTask._result this'))
            = (MeCabReadTask.super this', fx)
       else
         boundaries (MeCabReadTask._result this') = MeCabReadTask._eosCount this'
         /\ MeCabReadTask.super this' = MeCabReadTask.super this
         /\ fx = [].
Proof.
  induction fuel as [|fuel IH]; intros this this' rest done fx Hb H.
  - destruct rest; [|discriminate]. injection H as <- <- <-. auto.
  - destruct rest as [|b rest]; [injection H as <- <- <-; auto|].
    cbn [readRest] in H.
    destruct (search (MeCabReadTask._eosSample this) (b :: rest) 0) as [k|];
      [|injection H as <- <- <-; auto].
    set (this1 := counted os mecab this (firstn k (b :: rest))) in *.
    assert (Hb1 : boundaries (MeCabReadTask._result this1)
                  = MeCabReadTask._eosCount this).
    { subst this1. simpl. rewrite boundaries_app, boundaries_records. lia. }
    destruct (MeCabReadTask._eosCount this1 =? MeCabReadTask._maxEos this1)
      eqn:Heq.
    + apply Nat.eqb_eq in Heq.
      destruct (DeferredTask.resolve (MeCabReadTask.super this1)
                  (Result (MeCabReadTask._result this1))) as [d fx'] eqn:Hr.
      injection H as <- <- <-. simpl MeCabReadTask._result.
      split; [reflexivity|]. split.
      * subst this1. simpl in *. lia.
      * exact Hr.
    + apply IH in H.
      * exact H.
      * change (boundaries (MeCabReadTask._result this1
                            ++ [Boundary (MeCabReadTask._eosObject this1)])
                = S (MeCabReadTask._eosCount this)).
        rewrite boundaries_app, Hb1. change (boundaries [_]) with 1. lia.
Qed.

Lemma readData_boundaries {R E} (os : Platform) (mecab : MeCab.t R E)
      (this this' : MeCabReadTask.t R E) (data : bytes) (done : bool) fx :
  boundaries (MeCabReadTask._result this) = MeCabReadTask._eosCount this ->
  readData os mecab this data = Normal (this', done, fx) ->
  MeCabReadTask._maxEos this' = MeCabReadTask._maxEos this
  /\ if done then
       boundaries (MeCabReadTask._result this') + 1 = MeCabReadTask._maxEos this
       /\ DeferredTask.resolve (MeCabReadTask.super this)
                               (Result (MeCabReadTask._result this'))
          = (MeCabReadTask.super this', fx)
     else
       boundaries (MeCabReadTask._result this') = MeCabReadTask._eosCount this'
       /\ MeCabReadTask.super this' = MeCabReadTask.super this
       /\ fx = [].
Proof.
  intros Hb H. rewrite readData_rest in H.
  apply readRest_boundaries in H; [exact H | exact Hb].
Qed.

Lemma feed_boundaries {R E} (os : Platform) (mecab : MeCab.t R E)
      (chunks : list bytes) :
  forall (this this' : MeCabReadTask.t R E) fx,
    boundaries (MeCabReadTask._result this) = MeCabReadTask._eosCount this ->
    feed os mecab this chunks = Normal (this', true, fx) ->
    boundaries (MeCabReadTask._result this') + 1 = MeCabReadTask._maxEos this
    /\ DeferredTask.resolve (MeCabReadTask.super this)
                            (Result (MeCabReadTask._result this'))
       = (MeCabReadTask.super this', fx).
Proof.
  induction chunks as [|data chunks IH]; intros this this' fx Hb H.
  - discriminate.
  - cbn [feed] in H.
    destruct (readData os mecab this data) as [[[this1 done] fx1]| |] eqn:Hd;
      try discriminate.
    apply readData_boundaries in Hd; [|exact Hb].
    destruct done; cbn [bind] in H.
    + injection H as <- <-. apply Hd.
    + destruct Hd as (Hm & Hb1 & Hsuper & _).
      apply IH in H; [|exact Hb1]. rewrite Hm, Hsuper in H. exact H.
Qed.

(** C1 as the specification states it fails on its own two examples:
    for the text ["A\nB"] and the output
    ["a1\ta2\nEOS\nb1\tb2\nEOS\n"] the promise is fulfilled with
    [[["a1","a2"], "EOS", ["b1","b2"]]], without the last ["EOS"], and
    for the text ["A"] and the output ["EOS\n"] it is fulfilled with
    the empty array, not with [["EOS"]]. *)
Lemma last_eos_leaves_no_object :
  traceOf (run POSIX (spawn POSIX Example.child)
               [CallAnalyze (Str Example.textAB) None None;
                StdoutData Example.outputAB])
  = Normal [StdinWrite Example.textAB; StdinWrite [LF];
            Settle 0 (Fulfilled (Result Example.ab))]
  /\ Example.ab <> Example.abClaimed
  /\ traceOf (run POSIX (spawn POSIX Example.child)
                  [CallAnalyze (Str (lit "A")) None None;
                   StdoutData Example.eos])
     = Normal [StdinWrite (lit "A"); StdinWrite [LF];
               Settle 0 (Fulfilled (Result []))]
  /\ [] <> Example.loneClaimed.
Proof.
  split; [reflexivity|]. split; [discriminate|].
  split; [reflexivity | discriminate].
Qed.

(** C1, amended (the EOS objects of a result).  Every EOS found before
    the one that completes the read task leaves one EOS object in the
    result, and the EOS that completes it leaves none: a task that
    expects [n] EOS is fulfilled with a result that holds [n - 1] EOS
    objects, whatever the chunks.  The text ["A\nB"] with the output
    ["a1\ta2\nEOS\nb1\tb2\nEOS\n"] is fulfilled with
    [[["a1","a2"], "EOS", ["b1","b2"]]], and the output ["EOS\n"] with
    one EOS expected is fulfilled with the empty array. *)
Theorem final_eos_object_is_left_out :
  (forall (R E : Type) (os : Platform) (mecab : MeCab.t R E)
          (lineBreaks : nat) (optDecoder : option (bytes -> decoded))
          (chunks : list bytes) (this' : MeCabReadTask.t R E)
          (fx : list (effect R E)),
      feed os mecab (newReadTask mecab lineBreaks optDecoder) chunks
      = Normal (this', true, fx) ->
      boundaries (MeCabReadTask._result this') + 1 = lineBreaks
      /\ fx = [Settle (MeCab.created mecab)
                      (Fulfilled (Result (MeCabReadTask._result this')))])
  /\ traceOf (run POSIX (spawn POSIX Example.child)
                  [CallAnalyze (Str Example.textAB) None None;
                   StdoutData Example.outputAB])
     = Normal [StdinWrite Example.textAB; StdinWrite [LF];
               Settle 0 (Fulfilled (Result Example.ab))]
  /\ traceOf (run POSIX (spawn POSIX Example.child)
                  [CallAnalyze (Str (lit "A")) None None;
                   StdoutData Example.eos])
     = Normal [StdinWrite (lit "A"); StdinWrite [LF];
               Settle 0 (Fulfilled (Result []))].
Proof.
  split; [|split; reflexivity].
  intros R E os mecab lineBreaks optDecoder chunks this' fx H.
  apply feed_boundaries in H; [|reflexivity].
  destruct H as [Hb Hr]. split; [exact Hb|].
  cbv [DeferredTask.resolve DeferredTask.settle newReadTask
       MeCabReadTask.super DeferredTask.promise DeferredTask.id] in Hr.
  injection Hr as _ <-. reflexivity.
Qed.

Lemma final_eos_object_is_left_out_witness :
  feed POSIX (spawn POSIX Example.child) (newReadTask (spawn POSIX Example.child) 2 None) Example.chunksAB
  = Normal (Example.doneAB, true, [Settle 0 (Fulfilled (Result Example.ab))])
  /\ boundaries (MeCabReadTask._result Example.doneAB) + 1 = 2.
Proof.
  assert (H : feed POSIX (spawn POSIX Example.child) (newReadTask (spawn POSIX Example.child) 2 None)
                   Example.chunksAB
              = Normal (Example.doneAB, true,
                        [Settle 0 (Fulfilled (Result Example.ab))]))
    by (vm_compute; reflexivity).
  split; [exact H|].
  exact (proj1 (proj1 final_eos_object_is_left_out
                      _ _ POSIX (spawn POSIX Example.child) 2 None Example.chunksAB
                      Example.doneAB _ H)).
Defined.

(** ** The records of a segment *)

(** C9 as the specification states it fails: of the text ["a\nb"] the
    specification keeps the two lines ["a"] and ["b"] (only an empty
    last line is dropped), while [_parseSentence] pushes the record of
    ["a"] alone; so the output ["a\nbEOS\n"] is fulfilled with
    [[["a"]]]. *)
Lemma line_without_eol_is_dropped :
  Spec.lines (EOL POSIX) Example.unterminated = [lit "a"; lit "b"]
  /\ (exists this',
         _parseSentence POSIX (spawn POSIX Example.child) (newReadTask (spawn POSIX Example.child) 1 None)
                        Example.unterminated = Normal this'
         /\ MeCabReadTask._result this' = [Parsed [lit "a"]]
         /\ MeCabReadTask._result this' <>
            map (fun line => Parsed (MeCab.lineParser (spawn POSIX Example.child) line))
                (Spec.lines (EOL POSIX) Example.unterminated))
  /\ traceOf (run POSIX (spawn POSIX Example.child)
                  [CallAnalyze (Str (lit "A")) None None;
                   StdoutData (Example.unterminated ++ Example.eos)])
     = Normal [StdinWrite (lit "A"); StdinWrite [LF];
               Settle 0 (Fulfilled (Result [Parsed [lit "a"]]))].
Proof.
  split; [reflexivity|]. split; [|reflexivity].
  eexists. split; [reflexivity|]. split; [reflexivity|].
  vm_compute. discriminate.
Qed.

(** C9, amended (the records of a segment).  For every byte range
    before a found EOS, the decoder of the task is applied to the whole
    range (or the range is read as UTF-8), the text is split on [EOL],
    and the parsed records of the pieces that end in [EOL] are pushed in
    the order of the text; the piece after the last [EOL] is dropped,
    empty or not.  An empty text pushes nothing. *)
Theorem records_are_the_terminated_lines :
  forall (R E : Type) (os : Platform) (mecab : MeCab.t R E)
         (this : MeCabReadTask.t R E) (buffer : bytes) (offset index : nat),
    decodeSentence this buffer offset index
    = match MeCabReadTask._decoder this with
      | Some decoder => toString (decoder (slice buffer offset index))
      | None => toString_utf8 (slice buffer offset index)
      end
    /\ match decodeSentence this buffer offset index with
       | [] => Normal this
       | _ :: _ =>
           _parseSentence os mecab this
                          (decodeSentence this buffer offset index)
       end
       = Normal
           (pushAll this
              (map (fun line => Parsed (MeCab.lineParser mecab line))
                   (Spec.terminatedLines
                      (EOL os) (decodeSentence this buffer offset index))))
    /\ Spec.terminatedLines (EOL os) [] = [].
Proof.
  intros R E os mecab this buffer offset index.
  split; [reflexivity|]. split; [|reflexivity].
  destruct (decodeSentence this buffer offset index) eqn:Hs.
  - simpl. rewrite pushAll_nil. reflexivity.
  - apply _parseSentence_spec.
Qed.

(** ** Counting the lines of a request *)

Lemma skipn_cons_nth {A} (l : list A) (i : nat) (x d : A) (r : list A) :
  skipn i l = x :: r ->
  nth i l d = x /\ skipn (S i) l = r /\ i < length l.
Proof.
  revert i. induction l as [|y l IH]; intros i H.
  - destruct i; discriminate.
  - destruct i as [|i].
    + injection H as H1 H2. subst. simpl. repeat split. lia.
    + simpl in H. apply IH in H. destruct H as (H1 & H2 & H3).
      simpl. repeat split; [exact H1 | exact H2 | lia].
Qed.

(** The [for] loop of [_countSentences] stops at the first CR or LF. *)
Lemma detectLoop_spec (buffer : bytes) (fuel : nat) :
  forall (i : nat) (lb : lineBreak) (offset count : nat),
    i <= length buffer ->
    length buffer - i <= fuel ->
    detectLoop fuel buffer i lb offset count =
    match firstBreak (skipn i buffer) with
    | None =>
        Normal (lb, if i <? length buffer then length buffer - 1 else offset,
                count)
    | Some (j, lb') =>
        Normal (lb',
                i + j + match lb' with CRLFBuffer => 1 | Num _ => 0 end,
                S count)
    end.
Proof.
  induction fuel as [|fuel IH]; intros i lb offset count Hi Hf.
  - assert (i = length buffer) as -> by lia.
    rewrite skipn_all. simpl.
    destruct buffer; simpl; rewrite ?Nat.ltb_irrefl; reflexivity.
  - cbn [detectLoop].
    destruct (skipn i buffer) as [|b rest] eqn:Hs.
    + assert (length buffer <= i).
      { apply (f_equal (@length Z)) in Hs. rewrite length_skipn in Hs.
        simpl in Hs. lia. }
      replace (i <? length buffer) with false
        by (symmetry; apply Nat.ltb_ge; lia).
      reflexivity.
    + destruct (skipn_cons_nth _ _ _ 0%Z _ Hs) as (Hn & Hr & Hlt).
      replace (i <? length buffer) with true
        by (symmetry; apply Nat.ltb_lt; exact Hlt).
      rewrite Hn. cbn [firstBreak].
      destruct (b =? LF)%Z; [f_equal; f_equal; f_equal; lia|].
      destruct (b =? CR)%Z.
      * replace (i + 1) with (S i) by lia.
        destruct rest as [|c rest'].
        -- assert (length buffer <= S i).
           { apply (f_equal (@length Z)) in Hr. rewrite length_skipn in Hr.
             simpl in Hr. lia. }
           replace (S i <? length buffer) with false
             by (symmetry; apply Nat.ltb_ge; lia).
           simpl. f_equal. f_equal. f_equal. lia.
        -- destruct (skipn_cons_nth _ _ _ 0%Z _ Hr) as (Hn' & _ & Hlt').
           replace (S i <? length buffer) with true
             by (symmetry; apply Nat.ltb_lt; exact Hlt').
           rewrite Hn'. simpl.
           destruct (c =? LF)%Z; f_equal; f_equal; f_equal; lia.
      * rewrite IH by lia. rewrite Hr.
        destruct (firstBreak rest) as [[j lb']|]; cbn [option_map].
        -- f_equal. f_equal. f_equal. lia.
        -- destruct (S i <? length buffer) eqn:Hc; [reflexivity|].
           apply Nat.ltb_ge in Hc. f_equal. f_equal. f_equal. lia.
Qed.

Lemma occurrences_none (pat s : bytes) :
  search pat s 0 = None -> Spec.occurrences pat s = 0.
Proof.
  induction s as [|y s IH]; intros H; [reflexivity|].
  rewrite search_cons in H. cbn [Spec.occurrences].
  destruct (startsWith pat (y :: s)); [discriminate|].
  destruct (search pat s 0); [discriminate|].
  rewrite IH by reflexivity. reflexivity.
Qed.

Lemma occurrences_head (pat s : bytes) :
  terminator pat ->
  startsWith pat s = true ->
  Spec.occurrences pat s = S (Spec.occurrences pat (skipn (length pat) s)).
Proof.
  intros [-> | [-> | ->]] H.
  - destruct s as [|y s]; [discriminate|].
    cbn [Spec.occurrences]. rewrite H. reflexivity.
  - destruct s as [|y s]; [discriminate|].
    cbn [Spec.occurrences]. rewrite H. reflexivity.
  - destruct s as [|y [|z s]]; cbn [startsWith] in H; try discriminate.
    + rewrite andb_false_r in H. discriminate.
    + apply andb_true_iff in H. destruct H as [H1 H2].
      rewrite andb_true_r in H2.
      apply Z.eqb_eq in H1, H2. subst y z. reflexivity.
Qed.

Lemma occurrences_some (pat s : bytes) (k : nat) :
  terminator pat ->
  search pat s 0 = Some k ->
  Spec.occurrences pat s = S (Spec.occurrences pat (skipn (k + length pat) s)).
Proof.
  intros Ht. revert k. induction s as [|y s IH]; intros k H.
  - apply search_bound in H. destruct Ht as [-> | [-> | ->]]; simpl in H; lia.
  - rewrite search_cons in H.
    destruct (startsWith pat (y :: s)) eqn:Hs.
    + injection H as <-. apply occurrences_head; assumption.
    + destruct (search pat s 0) as [k'|]; [|discriminate].
      injection H as <-. cbn [Spec.occurrences]. rewrite Hs.
      rewrite (IH _ eq_refl). reflexivity.
Qed.

(** The [while] loop of [_countSentences] adds the occurrences left. *)
Lemma countLoop_spec (buffer : bytes) (lb : lineBreak) (fuel : nat) :
  terminator (needle lb) ->
  forall (offset count : nat),
    offset <= length buffer ->
    length buffer - offset <= fuel ->
    countLoop fuel buffer lb (length (needle lb)) offset count =
    Normal (count + Spec.occurrences (needle lb) (skipn offset buffer)).
Proof.
  intros Ht. induction fuel as [|fuel IH]; intros offset count Ho Hf.
  - assert (offset = length buffer) as -> by lia.
    rewrite skipn_all.
    destruct buffer; simpl; rewrite ?Nat.ltb_irrefl; f_equal; lia.
  - cbn [countLoop]. destruct (offset <? length buffer) eqn:Hlt.
    + apply Nat.ltb_lt in Hlt. rewrite indexOf_search by exact Ho.
      destruct (search (needle lb) (skipn offset buffer) 0) as [k|] eqn:Hk;
        cbn [option_map].
      * pose proof (search_bound _ _ _ Hk) as Hb. rewrite length_skipn in Hb.
        assert (0 < length (needle lb))
          by (destruct Ht as [-> | [-> | ->]]; simpl; lia).
        rewrite IH by lia.
        rewrite (occurrences_some _ _ _ Ht Hk), skipn_skipn.
        replace (k + length (needle lb) + offset)
          with (offset + k + length (needle lb)) by lia.
        f_equal. lia.
      * rewrite (occurrences_none _ _ Hk). f_equal. lia.
    + apply Nat.ltb_ge in Hlt. rewrite skipn_all2 by exact Hlt.
      simpl. f_equal. lia.
Qed.

(** The first terminator of the specification is the line break the
    [for] loop finds, and its occurrences are one more than those after
    it. *)
Lemma firstBreak_spec (s : bytes) :
  match firstBreak s with
  | None => Spec.firstTerminator s = None
  | Some (j, lb) =>
      Spec.firstTerminator s = Some (needle lb)
      /\ terminator (needle lb)
      /\ j + length (needle lb) <= length s
      /\ Spec.occurrences (needle lb) s =
         S (Spec.occurrences (needle lb) (skipn (j + length (needle lb)) s))
  end.
Proof.
  induction s as [|b rest IH]; [reflexivity|].
  cbn [firstBreak Spec.firstTerminator].
  destruct (b =? LF)%Z eqn:Hlf.
  - apply Z.eqb_eq in Hlf. subst b.
    repeat split; try reflexivity; try (simpl; lia). left; reflexivity.
  - destruct (b =? CR)%Z eqn:Hcr.
    + apply Z.eqb_eq in Hcr. subst b.
      destruct rest as [|c rest'].
      * repeat split; try reflexivity; try (simpl; lia).
        right; left; reflexivity.
      * destruct (c =? LF)%Z eqn:Hc.
        -- apply Z.eqb_eq in Hc. subst c.
           repeat split; try reflexivity; try (simpl; lia).
           right; right; reflexivity.
        -- repeat split; try reflexivity; try (simpl; lia).
           right; left; reflexivity.
    + destruct (firstBreak rest) as [[j lb]|]; cbn [option_map].
      * destruct IH as (H1 & H2 & H3 & H4).
        repeat split; try assumption; [simpl; lia|].
        cbn [Spec.occurrences].
        replace (startsWith (needle lb) (b :: rest)) with false.
        -- rewrite H4. reflexivity.
        -- symmetry.
           destruct H2 as [-> | [-> | ->]]; cbn [startsWith];
             rewrite Z.eqb_sym; try rewrite Hlf; try rewrite Hcr; reflexivity.
      * exact IH.
Qed.

(** [_countSentences] returns the number of terminators of the
    specification. *)
Lemma _countSentences_spec (buffer : bytes) :
  _countSentences buffer = Normal (Spec.terminators buffer).
Proof.
  unfold _countSentences, Spec.terminators.
  rewrite detectLoop_spec by (simpl; lia). rewrite skipn_O.
  pose proof (firstBreak_spec buffer) as H.
  destruct (firstBreak buffer) as [[j lb]|].
  - destruct H as (H1 & H2 & H3 & H4). rewrite H1. cbn [bind Nat.eqb].
    replace (match lb with CRLFBuffer => 2 | Num _ => 1 end)
      with (length (needle lb)) by (destruct lb; reflexivity).
    replace (S (0 + j + match lb with CRLFBuffer => 1 | Num _ => 0 end))
      with (j + length (needle lb)) by (destruct lb; simpl; lia).
    rewrite countLoop_spec by (assumption || lia).
    rewrite H4. reflexivity.
  - rewrite H. reflexivity.
Qed.

(** Adding a read task does not throw. *)
Lemma _addTask_Read {R E} (this : MeCab.t R E) (task : MeCabReadTask.t R E) :
  _addTask this (Read task)
  = (if length (MeCab._tasks this ++ [Read task]) =? 1
     then MeCab.emit
            (MeCab.with_tasks this (MeCab._tasks this ++ [Read task])) []
     else MeCab.with_tasks this (MeCab._tasks this ++ [Read task]),
     Returned).
Proof.
  unfold _addTask. simpl.
  destruct (length (MeCab._tasks this ++ [Read task]) =? 1); reflexivity.
Qed.

(** C4 (the expected number of EOS).  For every payload,
    [_countSentences] returns the number N of occurrences of the line
    terminator the payload uses, which is the first one met in it (LF,
    CR LF or CR), and 0 when it has none; and the read task [analyze]
    queues for a payload expects N + 1 EOS, so at least one. *)
Theorem expected_eos_count :
  (forall payload : bytes,
      _countSentences payload = Normal (Spec.terminators payload)
      /\ Spec.terminators payload
         = match Spec.firstTerminator payload with
           | None => 0
           | Some lb => Spec.occurrences lb payload
           end)
  /\ (forall (R E : Type) (os : Platform) (this : MeCab.t R E) (obj : input)
             (optEncoder : option (bytes -> bytes))
             (optDecoder : option (bytes -> decoded)),
         exists this' task,
           analyze os this obj optEncoder optDecoder = Normal this'
           /\ MeCab._tasks this' = MeCab._tasks this ++ [Read task]
           /\ MeCabReadTask._maxEos task
              = Spec.terminators (outbound this obj optEncoder) + 1
           /\ 1 <= MeCabReadTask._maxEos task).
Proof.
  split.
  - intros payload. split; [apply _countSentences_spec | reflexivity].
  - intros R E os this obj optEncoder optDecoder.
    unfold analyze. rewrite _countSentences_spec. cbn [bind].
    rewrite _addTask_Read.
    eexists. eexists. split; [reflexivity|].
    split; [|split].
    + simpl.
      destruct (length (MeCab._tasks this ++ [_]) =? 1); reflexivity.
    + reflexivity.
    + simpl. lia.
Qed.

(** ** Writing a request *)

Lemma analyze_trace {R E} (os : Platform) (this : MeCab.t R E) (obj : input)
      (optEncoder : option (bytes -> bytes))
      (optDecoder : option (bytes -> decoded)) :
  exists this',
    analyze os this obj optEncoder optDecoder = Normal this'
    /\ MeCab.trace this'
       = MeCab.trace this
           ++ [StdinWrite (outbound this obj optEncoder);
               StdinWrite (Buffer_from (EOL os))].
Proof.
  unfold analyze. rewrite _countSentences_spec. cbn [bind].
  rewrite _addTask_Read.
  eexists. split; [reflexivity|].
  simpl.
  destruct (length (MeCab._tasks this ++ [_]) =? 1); simpl;
    rewrite <- ?app_assoc, ?app_nil_r; reflexivity.
Qed.

(** C3 as the specification states it fails: two requests submitted in
    a row are both written at once, the second while the first has seen
    none of the one EOS it expects; the second read task, like every
    read task, has nothing to do when it is started. *)
Lemma second_payload_written_early :
  exists this first second,
    run POSIX (spawn POSIX Example.child)
        [CallAnalyze (Str (lit "A")) None None;
         CallAnalyze (Str (lit "B")) None None] = Normal this
    /\ MeCab._tasks this = [Read first; Read second]
    /\ MeCabReadTask._eosCount first = 0
    /\ MeCabReadTask._maxEos first = 1
    /\ pending (Read first) = true
    /\ MeCab.trace this = [StdinWrite (lit "A"); StdinWrite [LF];
                           StdinWrite (lit "B"); StdinWrite [LF]]
    /\ start this (Read second) = Normal [].
Proof.
  exists Example.twoQueued, (newReadTask (spawn POSIX Example.child) 1 None),
    (newReadTask (MeCab.with_created (spawn POSIX Example.child) 1) 1 None).
  split; [vm_compute; reflexivity|].
  split; [vm_compute; reflexivity|].
  split; [reflexivity|]. split; [reflexivity|]. split; [reflexivity|].
  split; [vm_compute; reflexivity | reflexivity].
Qed.

(** C3, amended (writing a request).  [analyze] itself writes the
    payload of every request and then [EOL] to the standard input of
    the subprocess, when the request is submitted and whatever the queue
    holds; starting a read task writes nothing. *)
Theorem payload_written_at_submission :
  forall (R E : Type) (os : Platform) (this : MeCab.t R E) (obj : input)
         (optEncoder : option (bytes -> bytes))
         (optDecoder : option (bytes -> decoded)),
    (exists this',
        analyze os this obj optEncoder optDecoder = Normal this'
        /\ MeCab.trace this'
           = MeCab.trace this
               ++ [StdinWrite (outbound this obj optEncoder);
                   StdinWrite (Buffer_from (EOL os))])
    /\ (forall (mecab : MeCab.t R E) (task : MeCabReadTask.t R E),
           start mecab (Read task) = Normal []).
Proof.
  intros R E os this obj optEncoder optDecoder. split; [|reflexivity].
  apply analyze_trace.
Qed.

(** ** Settling the tasks of the queue *)

Lemma with_base_base {R E} (task : Task R E) : with_base task (base task) = task.
Proof. destruct task as [[] | []]; reflexivity. Qed.

Lemma settleTask_pending {R E} (task : Task R E) (s : settlement R E) :
  pending task = true ->
  settleTask task s = (settledWith task s, [Settle (task_id task) s]).
Proof.
  unfold settleTask, settledWith, pending, task_id, DeferredTask.settle.
  destruct (DeferredTask.promise (base task)); [discriminate | reflexivity].
Qed.

Lemma settleTask_settled {R E} (task : Task R E) (s : settlement R E) :
  pending task = false -> settleTask task s = (task, []).
Proof.
  unfold settleTask, pending, DeferredTask.settle.
  destruct (DeferredTask.promise (base task)); [|discriminate].
  intros _. rewrite with_base_base. reflexivity.
Qed.

Lemma settleTask_id {R E} (task : Task R E) (s : settlement R E) :
  task_id (fst (settleTask task s)) = task_id task.
Proof.
  destruct (pending task) eqn:Hp.
  - rewrite settleTask_pending by exact Hp. destruct task; reflexivity.
  - rewrite settleTask_settled by exact Hp. reflexivity.
Qed.

Lemma settleTask_not_pending {R E} (task : Task R E) (s : settlement R E) :
  pending (fst (settleTask task s)) = false.
Proof.
  destruct (pending task) eqn:Hp.
  - rewrite settleTask_pending by exact Hp. destruct task; reflexivity.
  - rewrite settleTask_settled by exact Hp. exact Hp.
Qed.

Lemma settleTask_ids {R E} (task : Task R E) (s : settlement R E) :
  settledIds (snd (settleTask task s)) = pendingIds [task].
Proof.
  unfold pendingIds. simpl. destruct (pending task) eqn:Hp.
  - rewrite settleTask_pending by exact Hp. reflexivity.
  - rewrite settleTask_settled by exact Hp. reflexivity.
Qed.

Lemma closeTask_settles {R E} (code : option Z) : settles (@closeTask R E code).
Proof.
  intros task. unfold closeTask.
  destruct (truthy code); [eexists; reflexivity|].
  destruct task; eexists; reflexivity.
Qed.

Lemma reject_settles {R E} (r : reason) :
  settles (fun task : Task R E => reject task r).
Proof. intros task. eexists. reflexivity. Qed.

Lemma forEach_map {R E} (f : Task R E -> Task R E * list (effect R E))
      (tasks : list (Task R E)) :
  forEach f tasks
  = (map (fun task => fst (f task)) tasks,
     flat_map (fun task => snd (f task)) tasks).
Proof.
  induction tasks as [|task tasks IH]; [reflexivity|].
  simpl. rewrite IH. destruct (f task). reflexivity.
Qed.

Lemma settledIds_app {R E} (fx1 fx2 : list (effect R E)) :
  settledIds (fx1 ++ fx2) = settledIds fx1 ++ settledIds fx2.
Proof. unfold settledIds. apply flat_map_app. Qed.

Lemma pendingIds_cons {R E} (task : Task R E) (tasks : list (Task R E)) :
  pendingIds (task :: tasks) = pendingIds [task] ++ pendingIds tasks.
Proof. unfold pendingIds. simpl. destruct (pending task); reflexivity. Qed.

Lemma forEach_settles {R E} (f : Task R E -> Task R E * list (effect R E))
      (tasks : list (Task R E)) :
  settles f ->
  map task_id (fst (forEach f tasks)) = map task_id tasks
  /\ pendingIds (fst (forEach f tasks)) = []
  /\ settledIds (snd (forEach f tasks)) = pendingIds tasks.
Proof.
  intros Hf. rewrite forEach_map. cbn [fst snd].
  induction tasks as [|task tasks (IH1 & IH2 & IH3)]; [repeat split|].
  destruct (Hf task) as [s Hs].
  cbn [map flat_map]. rewrite Hs, settledIds_app, IH1, IH3.
  rewrite (pendingIds_cons task), (pendingIds_cons (fst _)), IH2.
  rewrite settleTask_id, settleTask_ids.
  unfold pendingIds at 1. cbn [filter].
  rewrite settleTask_not_pending. repeat split.
Qed.

Lemma pendingIds_incl {R E} (tasks : list (Task R E)) (id : nat) :
  In id (pendingIds tasks) -> In id (map task_id tasks).
Proof.
  unfold pendingIds. rewrite !in_map_iff. intros (task & H1 & H2).
  apply filter_In in H2. exists task. tauto.
Qed.

Lemma pendingIds_sorted {R E} (tasks : list (Task R E)) :
  StronglySorted lt (map task_id tasks) ->
  StronglySorted lt (pendingIds tasks).
Proof.
  induction tasks as [|task tasks IH]; intros H; [constructor|].
  simpl in H. apply StronglySorted_inv in H. destruct H as [H1 H2].
  rewrite pendingIds_cons. unfold pendingIds at 1. cbn [filter].
  destruct (pending task); cbn [map app]; [|apply IH; exact H1].
  constructor; [apply IH; exact H1|].
  rewrite Forall_forall in *. intros id Hid. apply H2.
  apply pendingIds_incl. exact Hid.
Qed.

Lemma sorted_app (l1 l2 : list nat) :
  StronglySorted lt l1 -> StronglySorted lt l2 ->
  (forall x y, In x l1 -> In y l2 -> x < y) ->
  StronglySorted lt (l1 ++ l2).
Proof.
  induction l1 as [|x l1 IH]; intros H1 H2 H; [exact H2|].
  apply StronglySorted_inv in H1. destruct H1 as [H1 Hx].
  simpl. constructor.
  - apply IH; [exact H1 | exact H2 |]. intros a b Ha Hb.
    apply H; [right; exact Ha | exact Hb].
  - apply Forall_app. split; [exact Hx|].
    rewrite Forall_forall. intros y Hy. apply H; [left; reflexivity | exact Hy].
Qed.

(** ** What every run keeps *)

Section Invariant.

Context {R E : Type}.

(** Settling pending tasks of the queue, in the order of the queue,
    keeps the order of settlement. *)
Lemma Inv_settle (m : MeCab.t R E) (tasks' : list (Task R E))
      (fx : list (effect R E)) (settledNow : list (Task R E)) :
  Inv m ->
  StronglySorted lt (map task_id tasks') ->
  Forall (fun id => id < MeCab.created m) (map task_id tasks') ->
  (forall id, In id (pendingIds tasks') ->
              In id (pendingIds (skipn (length settledNow) (MeCab._tasks m)))) ->
  settledNow = firstn (length settledNow) (MeCab._tasks m) ->
  settledIds fx = pendingIds settledNow ->
  Inv (MeCab.emit (MeCab.with_tasks m tasks') fx).
Proof.
  intros [Hq Hf Hs Ho Hp] Hq' Hf' Hpend Hnow Hfx.
  set (n := length settledNow) in *.
  assert (Hsplit : MeCab._tasks m = settledNow ++ skipn n (MeCab._tasks m)).
  { rewrite Hnow at 1. symmetry. apply firstn_skipn. }
  assert (Hpi : pendingIds (MeCab._tasks m)
                = pendingIds settledNow ++ pendingIds (skipn n (MeCab._tasks m))).
  { rewrite Hsplit at 1. unfold pendingIds. rewrite filter_app, map_app.
    reflexivity. }
  rewrite Hsplit, map_app in Hq, Hf.
  apply Forall_app in Hf. destruct Hf as [Hf1 Hf2].
  assert (Hcross : forall x y, In x (map task_id settledNow) ->
                               In y (map task_id (skipn n (MeCab._tasks m))) ->
                               x < y).
  { clear - Hq. induction (map task_id settledNow) as [|a l IH];
      intros x y Hx Hy; [contradiction|].
    apply StronglySorted_inv in Hq. destruct Hq as [Hq Ha].
    destruct Hx as [<-|Hx].
    - rewrite Forall_forall in Ha. apply Ha. apply in_or_app. right. exact Hy.
    - apply IH; assumption. }
  constructor; cbn [MeCab._tasks MeCab.created MeCab.trace MeCab.emit
                    MeCab.with_tasks].
  - exact Hq'.
  - exact Hf'.
  - rewrite settledIds_app, Hfx. apply Forall_app. split; [exact Hs|].
    rewrite Forall_forall in *. intros id Hid. apply Hf1.
    apply pendingIds_incl. exact Hid.
  - rewrite settledIds_app, Hfx. apply sorted_app.
    + exact Ho.
    + apply pendingIds_sorted.
      clear - Hq. induction (map task_id settledNow) as [|x l IH];
        [constructor|].
      apply StronglySorted_inv in Hq. destruct Hq as [Hq Hx].
      constructor; [apply IH; exact Hq|].
      apply Forall_app in Hx. apply Hx.
    + intros x y Hx Hy. apply Hp; [exact Hx|].
      rewrite Hpi. apply in_or_app. left. exact Hy.
  - intros sid id Hsid Hid. apply Hpend in Hid.
    rewrite settledIds_app, Hfx in Hsid. apply in_app_or in Hsid.
    destruct Hsid as [Hsid|Hsid].
    + apply Hp; [exact Hsid|]. rewrite Hpi. apply in_or_app. right. exact Hid.
    + apply Hcross; apply pendingIds_incl; assumption.
Qed.

Lemma Inv_same (m m' : MeCab.t R E) :
  MeCab._tasks m' = MeCab._tasks m ->
  MeCab.created m' = MeCab.created m ->
  MeCab.trace m' = MeCab.trace m ->
  Inv m -> Inv m'.
Proof.
  intros H1 H2 H3 [Hq Hf Hs Ho Hp].
  constructor; rewrite ?H1, ?H2, ?H3; assumption.
Qed.

Lemma Inv_emit (m : MeCab.t R E) (fx : list (effect R E)) :
  settledIds fx = [] -> Inv m -> Inv (MeCab.emit m fx).
Proof.
  intros Hfx [Hq Hf Hs Ho Hp].
  constructor; cbn [MeCab._tasks MeCab.created MeCab.trace MeCab.emit];
    rewrite ?settledIds_app, ?Hfx, ?app_nil_r; assumption.
Qed.

Lemma start_settles_nothing (m : MeCab.t R E) (task : Task R E)
      (fx : list (effect R E)) :
  start m task = Normal fx -> settledIds fx = [].
Proof.
  destruct task; simpl; [intros [= <-]; reflexivity|].
  unfold ChildProcess.kill. destruct (ChildProcess.signals _ _); [|discriminate].
  intros [= <-]. reflexivity.
Qed.

Lemma Inv_push (m : MeCab.t R E) (task : Task R E) :
  Inv m ->
  task_id task = MeCab.created m ->
  Inv (MeCab.with_tasks (MeCab.with_created m (S (MeCab.created m)))
                        (MeCab._tasks m ++ [task])).
Proof.
  intros [Hq Hf Hs Ho Hp] Hid.
  constructor; cbn [MeCab._tasks MeCab.created MeCab.trace MeCab.with_tasks
                    MeCab.with_created].
  - rewrite map_app.
    apply sorted_app; [exact Hq | constructor; constructor |].
    intros x y Hx [<-|[]]. rewrite Hid.
    rewrite Forall_forall in Hf. apply Hf. exact Hx.
  - rewrite map_app. apply Forall_app. split.
    + eapply Forall_impl; [|exact Hf]. intros; simpl in *; lia.
    + constructor; [rewrite Hid; lia | constructor].
  - eapply Forall_impl; [|exact Hs]. intros; simpl in *; lia.
  - exact Ho.
  - intros sid id Hsid Hin. unfold pendingIds in Hin.
    rewrite filter_app, map_app in Hin. apply in_app_or in Hin.
    destruct Hin as [Hin|Hin].
    + apply Hp; assumption.
    + apply (pendingIds_incl [task]) in Hin. destruct Hin as [<-|[]].
      rewrite Hid. rewrite Forall_forall in Hs. apply Hs. exact Hsid.
Qed.

Lemma Inv_addTask (m : MeCab.t R E) (task : Task R E) :
  Inv m ->
  task_id task = MeCab.created m ->
  Inv (fst (_addTask (MeCab.with_created m (S (MeCab.created m))) task)).
Proof.
  intros HI Hid. unfold _addTask.
  match goal with |- context [if ?c then _ else _] => destruct c end.
  - match goal with |- context [start ?x ?t] =>
      destruct (start x t) as [fx| |] eqn:Hst end; cbn [fst].
    + apply Inv_emit; [eapply start_settles_nothing; exact Hst|].
      apply (Inv_push m task HI Hid).
    + apply (Inv_push m task HI Hid).
    + apply (Inv_push m task HI Hid).
  - apply (Inv_push m task HI Hid).
Qed.

Lemma Inv_forEach (m : MeCab.t R E)
      (f : Task R E -> Task R E * list (effect R E)) :
  settles f ->
  Inv m ->
  Inv (MeCab.emit (MeCab.with_tasks m (fst (forEach f (MeCab._tasks m))))
                  (snd (forEach f (MeCab._tasks m))))
  /\ Inv (MeCab.emit (MeCab.with_tasks m [])
                     (snd (forEach f (MeCab._tasks m)))).
Proof.
  intros Hf HI.
  destruct (forEach_settles f (MeCab._tasks m) Hf) as (H1 & H2 & H3).
  split.
  - apply (Inv_settle m _ _ (MeCab._tasks m) HI).
    + rewrite H1. apply HI.
    + rewrite H1. apply HI.
    + rewrite H2. intros id [].
    + symmetry. apply firstn_all.
    + exact H3.
  - apply (Inv_settle m _ _ (MeCab._tasks m) HI).
    + constructor.
    + constructor.
    + intros id [].
    + symmetry. apply firstn_all.
    + exact H3.
Qed.

Lemma Inv_onClose (m : MeCab.t R E) (code : option Z) :
  Inv m -> Inv (onClose m code).
Proof.
  intros HI. unfold onClose.
  destruct (Inv_forEach m (closeTask code) (closeTask_settles code) HI)
    as [H _].
  destruct (forEach (closeTask code) (MeCab._tasks m)). exact H.
Qed.

Lemma Inv_rejectAll (m : MeCab.t R E) (r : reason) :
  Inv m -> Inv (_rejectAllTasks m r).
Proof.
  intros HI. unfold _rejectAllTasks.
  destruct (Inv_forEach m (fun task => reject task r) (reject_settles r) HI)
    as [_ H].
  destruct (forEach (fun task => reject task r) (MeCab._tasks m)). exact H.
Qed.

Lemma _rejectAllTasks_created (m : MeCab.t R E) (r : reason) :
  MeCab.created (_rejectAllTasks m r) = MeCab.created m.
Proof.
  unfold _rejectAllTasks. destruct (forEach _ _). reflexivity.
Qed.

Lemma _rejectAllTasks_process (m : MeCab.t R E) (r : reason) :
  MeCab._process (_rejectAllTasks m r) = MeCab._process m.
Proof.
  unfold _rejectAllTasks. destruct (forEach _ _). reflexivity.
Qed.

Lemma _rejectAllTasks_lineParser (m : MeCab.t R E) (r : reason) :
  MeCab.lineParser (_rejectAllTasks m r) = MeCab.lineParser m.
Proof.
  unfold _rejectAllTasks. destruct (forEach _ _). reflexivity.
Qed.

Lemma Inv_kill (m : MeCab.t R E) (optForce : bool) (optSignal : string) :
  Inv m -> Inv (kill m optForce optSignal).
Proof.
  intros HI. unfold kill.
  match goal with |- context [_addTask (MeCab.with_created ?x _) ?t] =>
    assert (HI1 : Inv x)
      by (destruct optForce; [apply Inv_rejectAll|]; exact HI);
    pose proof (Inv_addTask x t HI1 eq_refl) as HI2
  end.
  destruct (_addTask _ _) as [m1 [|]]; cbn [fst] in HI2.
  - exact HI2.
  - apply Inv_emit; [reflexivity | exact HI2].
Qed.

Lemma Inv_analyze (os : Platform) (m m' : MeCab.t R E) obj optEncoder optDecoder :
  Inv m -> analyze os m obj optEncoder optDecoder = Normal m' -> Inv m'.
Proof.
  intros HI H. unfold analyze in H. rewrite _countSentences_spec in H.
  cbn [bind] in H.
  match type of H with context [_addTask _ ?t] =>
    pose proof (Inv_addTask m t HI eq_refl) as HI1
  end.
  destruct (_addTask _ _) as [m1 [|]]; cbn [fst] in HI1; injection H as <-.
  - apply Inv_emit; [reflexivity|]. apply Inv_emit; [reflexivity|].
    exact HI1.
  - apply Inv_emit; [reflexivity | exact HI1].
Qed.

(** What [readData] does to the promise of the task. *)
Lemma readRest_super (os : Platform) (mecab : MeCab.t R E) (fuel : nat) :
  forall (this this' : MeCabReadTask.t R E) (rest : bytes) (done : bool) fx,
    readRest os fuel mecab this rest = Normal (this', done, fx) ->
    if done then
      DeferredTask.resolve (MeCabReadTask.super this)
                           (Result (MeCabReadTask._result this'))
      = (MeCabReadTask.super this', fx)
    else MeCabReadTask.super this' = MeCabReadTask.super this /\ fx = [].
Proof.
  induction fuel as [|fuel IH]; intros this this' rest done fx H.
  - destruct rest; [|discriminate]. injection H as <- <- <-. auto.
  - destruct rest as [|b rest]; [injection H as <- <- <-; auto|].
    cbn [readRest] in H.
    destruct (search (MeCabReadTask._eosSample this) (b :: rest) 0) as [k|];
      [|injection H as <- <- <-; auto].
    match type of H with
    | context [if ?c then _ else _] => destruct c
    end.
    + destruct (DeferredTask.resolve _ _) as [d fx'] eqn:Hr in H.
      injection H as <- <- <-. exact Hr.
    + apply IH in H. exact H.
Qed.

Lemma readData_super (os : Platform) (mecab : MeCab.t R E)
      (this this' : MeCabReadTask.t R E) (data : bytes) (done : bool) fx :
  readData os mecab this data = Normal (this', done, fx) ->
  if done then
    settleTask (Read this) (Fulfilled (Result (MeCabReadTask._result this')))
    = (with_base (Read this) (MeCabReadTask.super this'), fx)
  else MeCabReadTask.super this' = MeCabReadTask.super this /\ fx = [].
Proof.
  intros H. rewrite readData_rest in H. apply readRest_super in H.
  destruct done; [|exact H].
  unfold settleTask. cbn [base MeCabReadTask.super MeCabReadTask.with_lastBuffer] in *.
  unfold DeferredTask.resolve in H. rewrite H. reflexivity.
Qed.

Lemma Inv_onData (os : Platform) (m m' : MeCab.t R E) (data : bytes) :
  Inv m -> onData os m data = Normal m' -> Inv m'.
Proof.
  intros HI H. unfold onData in H.
  destruct (MeCab._tasks m) as [|[task|task] rest] eqn:Hq; try discriminate.
  destruct (readData os m task data) as [[[task' done] fx]| |] eqn:Hd;
    try discriminate.
  cbn [bind] in H. apply readData_super in Hd. destruct done.
  - assert (HI' : Inv (MeCab.emit (MeCab.with_tasks m rest) fx)).
    { apply (Inv_settle m rest fx [Read task] HI).
      - destruct HI as [Hs _ _ _ _]. rewrite Hq in Hs. simpl in Hs.
        apply StronglySorted_inv in Hs. apply Hs.
      - destruct HI as [_ Hf _ _ _]. rewrite Hq in Hf. simpl in Hf.
        apply Forall_inv_tail in Hf. exact Hf.
      - rewrite Hq. simpl. auto.
      - rewrite Hq. reflexivity.
      - pose proof (settleTask_ids (Read task)
                      (Fulfilled (Result (MeCabReadTask._result task')))) as Hi.
        rewrite Hd in Hi. exact Hi. }
    destruct rest as [|next rest'].
    + injection H as <-. exact HI'.
    + destruct (start _ next) as [started| |] eqn:Hstart; try discriminate.
      cbn [bind] in H. injection H as <-.
      apply Inv_emit; [eapply start_settles_nothing; exact Hstart | exact HI'].
  - destruct Hd as [Hsuper ->]. injection H as <-.
    destruct HI as [Hs Hf Hst Ho Hp]. rewrite Hq in *.
    assert (Hid : task_id (Read task') = task_id (Read task))
      by (unfold task_id; simpl; rewrite Hsuper; reflexivity).
    assert (Hpe : pendingIds (Read task' :: rest) = pendingIds (Read task :: rest)).
    { rewrite (pendingIds_cons (Read task')), (pendingIds_cons (Read task)).
      f_equal. unfold pendingIds, pending. simpl. rewrite Hsuper.
      destruct (DeferredTask.promise (MeCabReadTask.super task)); simpl;
        [reflexivity|]. f_equal. exact Hid. }
    constructor; cbn [MeCab._tasks MeCab.created MeCab.trace MeCab.emit
                      MeCab.with_tasks map];
      rewrite ?app_nil_r, ?Hid, ?Hpe; assumption.
Qed.

Lemma Inv_step (os : Platform) (m m' : MeCab.t R E) (ev : event R E) :
  Inv m -> step os m ev = Normal m' -> Inv m'.
Proof.
  intros HI H. destruct ev; cbn [step] in H;
    try (injection H as <-).
  - eapply Inv_analyze; eassumption.
  - apply Inv_kill. exact HI.
  - apply (Inv_same m); auto.
  - apply (Inv_same m); auto.
  - apply (Inv_same m); [destruct sample|destruct sample|destruct sample|]; auto.
  - apply (Inv_same m); auto.
  - apply (Inv_same m); auto.
  - eapply Inv_onData; eassumption.
  - apply Inv_onClose. exact HI.
  - apply Inv_rejectAll. exact HI.
Qed.

Lemma Inv_run (os : Platform) (evs : list (event R E)) :
  forall m m' : MeCab.t R E, Inv m -> run os m evs = Normal m' -> Inv m'.
Proof.
  induction evs as [|ev evs IH]; intros m m' HI H.
  - injection H as <-. exact HI.
  - cbn [run] in H.
    destruct (step os m ev) as [m1| |] eqn:Hs; try discriminate.
    cbn [bind] in H. apply (IH m1); [|exact H].
    eapply Inv_step; eassumption.
Qed.

Lemma Inv_start (m : MeCab.t R E) :
  MeCab._tasks m = [] -> MeCab.trace m = [] -> Inv m.
Proof.
  intros H1 H2. constructor; rewrite ?H1, ?H2; try constructor.
  intros sid id [].
Qed.

End Invariant.

(** ** The order of completion *)

(** C5 (ordering).  Tasks get their ids in the order they are
    submitted, and in every run of a [MeCab] object, whatever the calls
    and the events of the subprocess and however its output is cut, the
    promises settle (are fulfilled or rejected) in the order of their
    ids: each at most once, and never one before a promise submitted
    earlier that settles too. *)
Theorem completion_follows_submission :
  (forall (R E : Type) (os : Platform) (this : MeCab.t R E)
          (obj : input) (optEncoder : option (bytes -> bytes))
          (optDecoder : option (bytes -> decoded)),
      exists this' task,
        analyze os this obj optEncoder optDecoder = Normal this'
        /\ MeCab._tasks this' = MeCab._tasks this ++ [Read task]
        /\ task_id (Read task) = MeCab.created this
        /\ MeCab.created this' = S (MeCab.created this))
  /\ (forall (R E : Type) (os : Platform) (start this : MeCab.t R E)
             (evs : list (event R E)),
         MeCab._tasks start = [] ->
         MeCab.trace start = [] ->
         run os start evs = Normal this ->
         StronglySorted lt (settledIds (MeCab.trace this))).
Proof.
  split.
  - intros R E os this obj optEncoder optDecoder.
    unfold analyze. rewrite _countSentences_spec. cbn [bind].
    rewrite _addTask_Read.
    eexists. eexists. split; [reflexivity|].
    simpl.
    destruct (length (MeCab._tasks this ++ [_]) =? 1); repeat split.
  - intros R E os start this evs Hq Ht Hrun.
    apply (Inv_run os evs start this (Inv_start start Hq Ht) Hrun).
Qed.

Lemma completion_follows_submission_witness :
  run POSIX (spawn POSIX Example.child) Example.twoRequests = Normal Example.twoDone
  /\ settledIds (MeCab.trace Example.twoDone) = [0; 1]
  /\ StronglySorted lt (settledIds (MeCab.trace Example.twoDone)).
Proof.
  assert (H : run POSIX (spawn POSIX Example.child) Example.twoRequests
              = Normal Example.twoDone) by (vm_compute; reflexivity).
  split; [exact H|]. split; [vm_compute; reflexivity|].
  exact (proj2 completion_follows_submission _ _ POSIX (spawn POSIX Example.child)
               Example.twoDone Example.twoRequests eq_refl eq_refl H).
Defined.

(** ** The end of the subprocess *)

Lemma onClose_spec {R E} (this : MeCab.t R E) (code : option Z) :
  MeCab._tasks (onClose this code)
  = map (fun task => fst (closeTask code task)) (MeCab._tasks this)
  /\ MeCab.trace (onClose this code)
     = MeCab.trace this
         ++ flat_map (fun task => snd (closeTask code task)) (MeCab._tasks this).
Proof. unfold onClose. rewrite forEach_map. split; reflexivity. Qed.

Lemma onClose_settles {R E} (this : MeCab.t R E) (code : option Z)
      (task : Task R E) (s : settlement R E) :
  In task (MeCab._tasks this) ->
  pending task = true ->
  closeTask code task = settleTask task s ->
  In (settledWith task s) (MeCab._tasks (onClose this code))
  /\ In (Settle (task_id task) s) (MeCab.trace (onClose this code)).
Proof.
  intros Hin Hp Hc. destruct (onClose_spec this code) as [-> ->].
  rewrite settleTask_pending in Hc by exact Hp. split.
  - apply in_map_iff. exists task. rewrite Hc. split; [reflexivity | exact Hin].
  - apply in_or_app. right. apply in_flat_map. exists task.
    rewrite Hc. split; [exact Hin | left; reflexivity].
Qed.

(** C6 (the exit of the subprocess).  When the subprocess closes with
    a code other than 0, every task of the queue that is still pending,
    read or kill, is rejected with the crash message; when it closes
    with the code 0 or with no code, every pending read task is rejected
    with ["MeCab process is killed."] and every pending kill task is
    resolved with that message.  No task of the queue is pending
    afterwards. *)
Theorem close_settles_the_queue :
  forall (R E : Type) (this : MeCab.t R E) (code : option Z) (task : Task R E),
    In task (MeCab._tasks this) ->
    pending task = true ->
    let settled s :=
      In (settledWith task s) (MeCab._tasks (onClose this code))
      /\ In (Settle (task_id task) s) (MeCab.trace (onClose this code)) in
    (truthy code = true ->
     settled (Rejected (Text ("MeCab process crushed. code:" ++ show code))))
    /\ (truthy code = false ->
        match task with
        | Read _ => settled (Rejected (Text "MeCab process is killed."))
        | Kill _ => settled (Fulfilled (Message "MeCab process is killed."))
        end)
    /\ pendingIds (MeCab._tasks (onClose this code)) = [].
Proof.
  intros R E this code task Hin Hp settled. subst settled. cbv beta.
  split; [|split].
  - intros Hc. apply onClose_settles; try assumption.
    unfold closeTask. rewrite Hc. reflexivity.
  - intros Hc.
    destruct task; apply onClose_settles; try assumption;
      unfold closeTask; rewrite Hc; reflexivity.
  - unfold onClose.
    destruct (forEach_settles (closeTask code) (MeCab._tasks this)
                              (closeTask_settles code)) as (_ & H & _).
    destruct (forEach (closeTask code) (MeCab._tasks this)). exact H.
Qed.

Lemma close_settles_the_queue_witness :
  let crushed := Rejected (Text ("MeCab process crushed. code:" ++ show (Some 1%Z))) in
  let request := Read Example.request in
  let killing := Kill Example.killTask in
  In (@Settle (list jsstring) jsstring (task_id request) crushed)
     (MeCab.trace (onClose Example.requestThenKill (Some 1%Z)))
  /\ In (@Settle (list jsstring) jsstring (task_id killing) crushed)
        (MeCab.trace (onClose Example.requestThenKill (Some 1%Z)))
  /\ In (Settle (task_id request) (Rejected (Text "MeCab process is killed.")))
        (MeCab.trace (onClose Example.requestThenKill (Some 0%Z)))
  /\ In (Settle (task_id killing)
                (Fulfilled (Message "MeCab process is killed.")))
        (MeCab.trace (onClose Example.requestThenKill None)).
Proof.
  intros crushed request killing.
  assert (Hq : MeCab._tasks Example.requestThenKill = [request; killing])
    by (vm_compute; reflexivity).
  assert (Hr : In request (MeCab._tasks Example.requestThenKill))
    by (rewrite Hq; left; reflexivity).
  assert (Hk : In killing (MeCab._tasks Example.requestThenKill))
    by (rewrite Hq; right; left; reflexivity).
  assert (Hpr : pending request = true) by (vm_compute; reflexivity).
  assert (Hpk : pending killing = true) by reflexivity.
  split; [|split; [|split]].
  - exact (proj2 (proj1 (close_settles_the_queue
                           _ _ Example.requestThenKill (Some 1%Z)
                           request Hr Hpr) eq_refl)).
  - exact (proj2 (proj1 (close_settles_the_queue
                           _ _ Example.requestThenKill (Some 1%Z)
                           killing Hk Hpk) eq_refl)).
  - exact (proj2 (proj1 (proj2 (close_settles_the_queue
                                  _ _ Example.requestThenKill (Some 0%Z)
                                  request Hr Hpr))
                        eq_refl)).
  - exact (proj2 (proj1 (proj2 (close_settles_the_queue
                                  _ _ Example.requestThenKill None
                                  killing Hk Hpk))
                        eq_refl)).
Defined.

(** ** Killing the subprocess *)

Lemma _rejectAllTasks_spec {R E} (this : MeCab.t R E) (r : reason) :
  MeCab._tasks (_rejectAllTasks this r) = []
  /\ MeCab.trace (_rejectAllTasks this r)
     = MeCab.trace this ++ rejections (MeCab._tasks this) r.
Proof.
  unfold _rejectAllTasks. rewrite forEach_map. split; [reflexivity|].
  cbn [MeCab.trace MeCab.with_tasks MeCab.emit]. f_equal.
  unfold rejections. apply flat_map_ext. intros task.
  change (reject task r) with (settleTask task (Rejected r)).
  destruct (pending task) eqn:Hp.
  - rewrite settleTask_pending by exact Hp. reflexivity.
  - rewrite settleTask_settled by exact Hp. reflexivity.
Qed.

Lemma rejections_ids {R E} (tasks : list (Task R E)) (r : reason) :
  settledIds (rejections tasks r) = pendingIds tasks.
Proof.
  induction tasks as [|task tasks IH]; [reflexivity|].
  rewrite pendingIds_cons, <- IH.
  unfold rejections, pendingIds. cbn [flat_map filter].
  rewrite settledIds_app.
  destruct (pending task); reflexivity.
Qed.

(** What [kill] leaves: the kill task at the end of the queue, or
    alone in it when the kill is forced, and in the trace the
    rejections of a forced kill and then what starting the task did,
    when it is started at the call. *)
Lemma kill_spec {R E} (this : MeCab.t R E) (optForce : bool)
      (optSignal : string) :
  MeCab._tasks (kill this optForce optSignal)
  = (if optForce then [] else MeCab._tasks this)
      ++ [Kill (MeCabKillTask.make
                  (DeferredTask.make (MeCab.created this) None) optSignal)]
  /\ MeCab.trace (kill this optForce optSignal)
     = MeCab.trace this
         ++ (if optForce
             then rejections (MeCab._tasks this)
                             (Text "The process was interrupted immediately.")
             else [])
         ++ atCall this (optForce || (length (MeCab._tasks this) =? 0))
                   optSignal
  /\ MeCab.created (kill this optForce optSignal) = S (MeCab.created this)
  /\ MeCab._process (kill this optForce optSignal) = MeCab._process this
  /\ MeCab.lineParser (kill this optForce optSignal) = MeCab.lineParser this.
Proof.
  unfold kill, _addTask, atCall. destruct optForce.
  - destruct (_rejectAllTasks_spec
                this (Text "The process was interrupted immediately."))
      as [Hq Ht].
    cbn [MeCab._tasks MeCab.with_tasks MeCab.with_created]. rewrite Hq.
    cbn [app length Nat.eqb start MeCabKillTask._signal orb].
    unfold ChildProcess.kill.
    cbn [MeCab._process MeCab.with_tasks MeCab.with_created].
    rewrite _rejectAllTasks_process, _rejectAllTasks_created.
    destruct (ChildProcess.signals (MeCab._process this) optSignal);
      cbn [MeCab._tasks MeCab.trace MeCab.created MeCab._process
           MeCab.lineParser MeCab.emit MeCab.with_tasks MeCab.with_created
           task_id base MeCabKillTask.super DeferredTask.id];
      rewrite ?Hq, ?Ht, ?_rejectAllTasks_created, ?_rejectAllTasks_process,
        ?_rejectAllTasks_lineParser, <- ?app_assoc;
      repeat split.
  - cbn [MeCab._tasks MeCab.with_tasks MeCab.with_created orb].
    destruct (MeCab._tasks this) as [|head queue] eqn:Hq.
    + cbn [app length Nat.eqb start MeCabKillTask._signal].
      unfold ChildProcess.kill.
      cbn [MeCab._process MeCab.with_tasks MeCab.with_created].
      destruct (ChildProcess.signals (MeCab._process this) optSignal);
        cbn [MeCab._tasks MeCab.trace MeCab.created MeCab._process
             MeCab.lineParser MeCab.emit MeCab.with_tasks MeCab.with_created
             task_id base MeCabKillTask.super DeferredTask.id app];
        repeat split.
    + assert (Hl : (length ((head :: queue) ++
                              [Kill (MeCabKillTask.make
                                       (DeferredTask.make (MeCab.created this) None)
                                       optSignal)]) =? 1) = false).
      { rewrite length_app. cbn [length]. apply Nat.eqb_neq. lia. }
      rewrite Hl.
      cbn [MeCab._tasks MeCab.trace MeCab.created MeCab._process
           MeCab.lineParser MeCab.emit MeCab.with_tasks MeCab.with_created
           length Nat.eqb app].
      rewrite app_nil_r. repeat split.
Qed.




(** The record of effects only grows. *)
Lemma step_trace_extends {R E} (os : Platform) (m m' : MeCab.t R E)
      (ev : event R E) :
  step os m ev = Normal m' ->
  exists later, MeCab.trace m' = MeCab.trace m ++ later.
Proof.
  intros H. destruct ev; cbn [step] in H.
  - destruct (analyze_trace os m obj optEncoder optDecoder) as (m1 & H1 & H2).
    rewrite H1 in H. injection H as <-. eexists. exact H2.
  - injection H as <-.
    destruct (kill_spec m optForce optSignal) as (_ & -> & _).
    eexists. reflexivity.
  - injection H as <-. exists []. symmetry. apply app_nil_r.
  - injection H as <-. exists []. symmetry. apply app_nil_r.
  - injection H as <-. exists []. destruct sample; symmetry; apply app_nil_r.
  - injection H as <-. exists []. symmetry. apply app_nil_r.
  - injection H as <-. exists []. symmetry. apply app_nil_r.
  - unfold onData in H.
    destruct (MeCab._tasks m) as [|[task|task] rest]; try discriminate.
    destruct (readData os m task data) as [[[task' done] fx]| |];
      try discriminate.
    cbn [bind] in H.
    destruct done; [destruct rest as [|next rest]|].
    + injection H as <-. eexists. reflexivity.
    + destruct (start _ next) as [started| |]; try discriminate.
      cbn [bind] in H. injection H as <-.
      cbn [MeCab.trace MeCab.emit MeCab.with_tasks].
      rewrite <- app_assoc. eexists. reflexivity.
    + injection H as <-. eexists. reflexivity.
  - injection H as <-. destruct (onClose_spec m code) as [_ ->].
    eexists. reflexivity.
  - injection H as <-. unfold onError.
    destruct (_rejectAllTasks_spec m (ErrorObject error)) as [_ ->].
    eexists. reflexivity.
Qed.

Lemma run_trace_extends {R E} (os : Platform) (evs : list (event R E)) :
  forall m m' : MeCab.t R E,
    run os m evs = Normal m' ->
    exists later, MeCab.trace m' = MeCab.trace m ++ later.
Proof.
  induction evs as [|ev evs IH]; intros m m' H.
  - injection H as <-. exists []. symmetry. apply app_nil_r.
  - cbn [run] in H.
    destruct (step os m ev) as [m1| |] eqn:Hs; try discriminate.
    cbn [bind] in H.
    apply step_trace_extends in Hs. destruct Hs as [l1 H1].
    apply IH in H. destruct H as [l2 H2].
    exists (l1 ++ l2). rewrite H2, H1, app_assoc. reflexivity.
Qed.

(** C8 (forced termination).  A forced kill rejects every pending task
    of the queue, in the order of the queue, with
    ["The process was interrupted immediately."], empties the queue, and
    only then starts the kill task, which sends the signal; the kill
    task is alone in the queue and its promise is pending, so whatever
    settles it in the rest of the run comes after all these rejections.
    When the child process does not know the name of the signal,
    starting the task throws instead: no signal is sent and the promise
    of the call is rejected, after the rejections of the queue as
    well. *)
Theorem forced_kill_rejects_first :
  forall (R E : Type) (os : Platform) (this this' : MeCab.t R E)
         (optSignal : string) (evs : list (event R E)),
    let rejected :=
      rejections (MeCab._tasks this)
                 (Text "The process was interrupted immediately.") in
    let issued :=
      if ChildProcess.signals (MeCab._process this) optSignal
      then [ProcessKill optSignal]
      else [CallRejected (MeCab.created this)] in
    run os (kill this true optSignal) evs = Normal this' ->
    (exists task,
        MeCab._tasks (kill this true optSignal) = [Kill task]
        /\ task_id (Kill task) = MeCab.created this
        /\ pending (Kill task) = true)
    /\ MeCab.trace (kill this true optSignal)
       = MeCab.trace this ++ rejected ++ issued
    /\ settledIds rejected = pendingIds (MeCab._tasks this)
    /\ settledIds issued = []
    /\ exists later,
        MeCab.trace this' = MeCab.trace this ++ rejected ++ issued ++ later.
Proof.
  intros R E os this this' optSignal evs rejected issued Hrun.
  destruct (kill_spec this true optSignal) as (Hq & Hk & _).
  change (MeCab.trace (kill this true optSignal)
          = MeCab.trace this ++ rejected ++ issued) in Hk.
  split; [|split; [exact Hk|split; [|split]]].
  - eexists. split; [exact Hq|]. split; reflexivity.
  - apply rejections_ids.
  - subst issued. destruct (ChildProcess.signals _ _); reflexivity.
  - apply run_trace_extends in Hrun. destruct Hrun as [later Hl].
    exists later. rewrite Hl, Hk, <- !app_assoc. reflexivity.
Qed.

Lemma forced_kill_rejects_first_witness :
  (exists this' later,
      run POSIX (kill Example.threeRequests true "SIGTERM") [ProcessClose None]
      = Normal this'
      /\ MeCab.trace this'
         = MeCab.trace Example.threeRequests
             ++ rejections (MeCab._tasks Example.threeRequests)
                           (Text "The process was interrupted immediately.")
             ++ [ProcessKill "SIGTERM"] ++ later)
  /\ rejections (MeCab._tasks Example.threeRequests)
                (Text "The process was interrupted immediately.")
     = [Settle 0 (Rejected (Text "The process was interrupted immediately."));
        Settle 1 (Rejected (Text "The process was interrupted immediately."));
        Settle 2 (Rejected (Text "The process was interrupted immediately."))]
  /\ MeCab.trace (kill Example.threeRequests true "SIGNONE")
     = MeCab.trace Example.threeRequests
         ++ rejections (MeCab._tasks Example.threeRequests)
                       (Text "The process was interrupted immediately.")
         ++ [CallRejected 3].
Proof.
  split; [|split].
  - destruct (forced_kill_rejects_first
                _ _ POSIX Example.threeRequests _ "SIGTERM" [ProcessClose None]
                eq_refl) as (_ & _ & _ & _ & later & H).
    eexists. exists later. split; [reflexivity | exact H].
  - vm_compute. reflexivity.
  - exact (proj1 (proj2 (forced_kill_rejects_first
                           _ _ POSIX Example.threeRequests _ "SIGNONE" []
                           eq_refl))).
Defined.

(** * Further properties of the program *)

(** ** When [readData] returns *)

Lemma readRest_returns {R E} (os : Platform) (mecab : MeCab.t R E)
      (fuel : nat) :
  forall (this : MeCabReadTask.t R E) (rest : bytes),
    0 < length (MeCabReadTask._eosSample this) ->
    length rest <= fuel ->
    exists this' done fx,
      readRest os fuel mecab this rest = Normal (this', done, fx).
Proof.
  induction fuel as [|fuel IH]; intros this rest Hs Hf.
  - destruct rest; [|simpl in Hf; lia]. repeat eexists.
  - destruct rest as [|b rest]; [repeat eexists|].
    cbn [readRest].
    destruct (search (MeCabReadTask._eosSample this) (b :: rest) 0)
      as [k|] eqn:Hk; [|repeat eexists].
    match goal with |- context [if ?c then _ else _] => destruct c end.
    + destruct (DeferredTask.resolve _ _). repeat eexists.
    + apply search_bound in Hk. apply IH; [exact Hs|].
      rewrite length_skipn. simpl MeCabReadTask._eosSample.
      simpl length in *. lia.
Qed.

(** X1.  With an EOS sample that is not empty, [readData] returns for
    every task and every chunk: its loop ends, and it throws nothing. *)
Theorem readData_returns :
  forall (R E : Type) (os : Platform) (mecab : MeCab.t R E)
         (this : MeCabReadTask.t R E) (data : bytes),
    MeCabReadTask._eosSample this <> [] ->
    exists this' done fx,
      readData os mecab this data = Normal (this', done, fx).
Proof.
  intros R E os mecab this data Hs. rewrite readData_rest.
  apply readRest_returns; [|lia].
  simpl. destruct (MeCabReadTask._eosSample this); [contradiction | simpl; lia].
Qed.

Lemma readData_returns_witness :
  exists this' done fx,
    readData POSIX Example.oneRequest Example.request (lit "a1" ++ lit "EO")
    = Normal (this', done, fx).
Proof.
  apply (readData_returns _ _ POSIX Example.oneRequest Example.request).
  vm_compute. discriminate.
Defined.

Lemma readRest_empty_result {R E} (os : Platform) (mecab : MeCab.t R E)
      (n : nat) :
  forall (fuel : nat) (this : MeCabReadTask.t R E) (rest : bytes),
    MeCabReadTask._eosSample this = [] ->
    rest <> [] ->
    MeCabReadTask._eosCount this + S n = MeCabReadTask._maxEos this ->
    S n <= fuel ->
    exists this' fx,
      readRest os fuel mecab this rest = Normal (this', true, fx)
      /\ MeCabReadTask._result this'
         = MeCabReadTask._result this
             ++ framed os mecab this (repeat [] n)
             ++ records os mecab this []
      /\ MeCabReadTask._eosCount this' = MeCabReadTask._maxEos this.
Proof.
  induction n as [|n IH]; intros fuel this rest Hs Hr Hc Hf;
    (destruct fuel as [|fuel]; [lia|]);
    (destruct rest as [|b rest]; [contradiction|]);
    cbn [readRest]; rewrite Hs, search_nil; cbn [firstn].
  - replace (MeCabReadTask._eosCount (counted os mecab this [])
             =? MeCabReadTask._maxEos (counted os mecab this []))
      with true by (symmetry; apply Nat.eqb_eq; simpl; lia).
    destruct (DeferredTask.resolve _ _) as [d fx].
    eexists. eexists. split; [reflexivity|]. split; [reflexivity|].
    simpl. lia.
  - replace (MeCabReadTask._eosCount (counted os mecab this [])
             =? MeCabReadTask._maxEos (counted os mecab this []))
      with false by (symmetry; apply Nat.eqb_neq; simpl; lia).
    simpl MeCabReadTask._eosSample. rewrite Hs. cbn [length Nat.add skipn].
    destruct (IH fuel
                 (MeCabReadTask.push (counted os mecab this [])
                    (Boundary (MeCabReadTask._eosObject
                                 (counted os mecab this []))))
                 (b :: rest)) as (this' & fx & H1 & H2 & H3);
      [exact Hs | discriminate | simpl; lia | lia |].
    exists this', fx. split; [exact H1|]. split; [|exact H3]. rewrite H2.
    cbn [repeat framed flat_map]. simpl MeCabReadTask._result.
    rewrite <- !app_assoc. reflexivity.
Qed.

(** X2.  With an empty EOS sample, which [setEOSSample] installs for
    the empty string, the loop of [readData] finds an EOS at every turn
    without moving forward.  On any bytes at all, a task that still
    expects [n + 1] EOS is completed at once, whatever the bytes are,
    with [n] times the records of the empty segment and an EOS object,
    and the records of the empty segment once more. *)
Theorem empty_sample_completes_at_once :
  forall (R E : Type) (os : Platform) (mecab : MeCab.t R E)
         (this : MeCabReadTask.t R E) (data : bytes) (n : nat),
    MeCabReadTask._eosSample this = [] ->
    carry this ++ data <> [] ->
    MeCabReadTask._eosCount this + S n = MeCabReadTask._maxEos this ->
    exists this' fx,
      readData os mecab this data = Normal (this', true, fx)
      /\ MeCabReadTask._result this'
         = MeCabReadTask._result this
             ++ framed os mecab this (repeat [] n)
             ++ records os mecab this []
      /\ MeCabReadTask._eosCount this' = MeCabReadTask._maxEos this
      /\ MeCabReadTask._lastBuffer this' = None.
Proof.
  intros R E os mecab this data n Hs Hd Hc. rewrite readData_rest.
  destruct (readRest_empty_result
              os mecab n
              (length (carry this ++ data) + MeCabReadTask._maxEos this)
              (MeCabReadTask.with_lastBuffer this None)
              (carry this ++ data) Hs Hd Hc) as (this' & fx & H1 & H2 & H3);
    [lia|].
  exists this', fx. split; [exact H1|]. split; [exact H2|].
  split; [exact H3|].
  apply readRest_done_lastBuffer in H1. exact H1.
Qed.

Lemma empty_sample_completes_at_once_witness :
  exists this' fx,
    readData POSIX Sample.noSample Sample.emptySample (lit "x")
    = Normal (this', true, fx)
    /\ MeCabReadTask._result this' = [Boundary (lit "EOS")].
Proof.
  destruct (empty_sample_completes_at_once
              _ _ POSIX Sample.noSample Sample.emptySample (lit "x") 1
              eq_refl ltac:(discriminate) eq_refl)
    as (this' & fx & H1 & H2 & _).
  exists this', fx. split; [exact H1 | exact H2].
Defined.

(** ** The framing of a chunk *)

Lemma split_none (sep s : jsstring) :
  search sep s 0 = None -> Spec.split sep s = [s].
Proof. intros H. unfold Spec.split. rewrite splitOn_none by exact H. reflexivity. Qed.

Lemma split_some (sep s : jsstring) (k : nat) :
  0 < length sep ->
  search sep s 0 = Some k ->
  Spec.split sep s = firstn k s :: Spec.split sep (skipn (k + length sep) s).
Proof.
  intros Hs H. unfold Spec.split.
  rewrite (splitOn_some _ [] _ _ Hs H). reflexivity.
Qed.

Lemma split_length (sep s : jsstring) : 1 <= length (Spec.split sep s).
Proof.
  unfold Spec.split.
  destruct (Spec.splitOn sep 0 [] s) eqn:H; [|simpl; lia].
  exfalso. exact (splitOn_not_nil _ _ _ _ H).
Qed.

(** The piece after the last separator holds no separator. *)
Lemma split_last_none (sep : jsstring) (n : nat) :
  0 < length sep ->
  forall s, length s <= n ->
            search sep (last (Spec.split sep s) []) 0 = None.
Proof.
  intros Hs. induction n as [|n IH]; intros s Hn.
  - destruct s; [|simpl in Hn; lia].
    destruct sep; [simpl in Hs; lia | reflexivity].
  - destruct (search sep s 0) as [k|] eqn:Hk.
    + rewrite (split_some _ _ _ Hs Hk).
      pose proof (split_length sep (skipn (k + length sep) s)) as Hl.
      destruct (Spec.split sep (skipn (k + length sep) s)) as [|p ps] eqn:Hp;
        [simpl in Hl; lia|].
      change (last (firstn k s :: p :: ps) []) with (last (p :: ps) []).
      rewrite <- Hp. apply IH.
      apply search_bound in Hk. rewrite length_skipn. lia.
    + rewrite (split_none _ _ Hk). exact Hk.
Qed.

Lemma readRest_framing {R E} (os : Platform) (mecab : MeCab.t R E)
      (fuel : nat) :
  forall (this this' : MeCabReadTask.t R E) (rest : bytes) (done : bool) fx
         (n : nat),
    0 < length (MeCabReadTask._eosSample this) ->
    MeCabReadTask._lastBuffer this = None ->
    MeCabReadTask._eosCount this + S n = MeCabReadTask._maxEos this ->
    readRest os fuel mecab this rest = Normal (this', done, fx) ->
    done = (S n <? length (Spec.split (MeCabReadTask._eosSample this) rest))
    /\ MeCabReadTask._result this'
       = MeCabReadTask._result this
           ++ (if done
               then framed os mecab this
                           (firstn n (Spec.split (MeCabReadTask._eosSample this)
                                                 rest))
                      ++ records os mecab this
                           (nth n (Spec.split (MeCabReadTask._eosSample this)
                                              rest) [])
               else framed os mecab this
                           (removelast
                              (Spec.split (MeCabReadTask._eosSample this) rest)))
    /\ (done = false ->
        carry this' = last (Spec.split (MeCabReadTask._eosSample this) rest) []
        /\ MeCabReadTask._eosCount this'
           = MeCabReadTask._eosCount this
             + (length (Spec.split (MeCabReadTask._eosSample this) rest) - 1)).
Proof.
  assert (Hbase : forall this : MeCabReadTask.t R E,
             MeCabReadTask._lastBuffer this = None ->
             forall n : nat,
               false = (S n <? length (Spec.split (MeCabReadTask._eosSample this) []))
               /\ MeCabReadTask._result this
                  = MeCabReadTask._result this
                      ++ framed os mecab this
                           (removelast
                              (Spec.split (MeCabReadTask._eosSample this) []))
               /\ (false = false ->
                   carry this
                   = last (Spec.split (MeCabReadTask._eosSample this) []) []
                   /\ MeCabReadTask._eosCount this
                      = MeCabReadTask._eosCount this
                        + (length (Spec.split (MeCabReadTask._eosSample this) [])
                           - 1))).
  { intros this Hl n. cbn. rewrite app_nil_r. unfold carry. rewrite Hl.
    repeat split; lia. }
  induction fuel as [|fuel IH]; intros this this' rest done fx n Hs Hl Hc H.
  - destruct rest; [|discriminate]. injection H as <- <- <-.
    apply Hbase. exact Hl.
  - destruct rest as [|b rest];
      [injection H as <- <- <-; apply Hbase; exact Hl|].
    cbn [readRest] in H.
    destruct (search (MeCabReadTask._eosSample this) (b :: rest) 0)
      as [k|] eqn:Hk.
    + rewrite (split_some _ _ _ Hs Hk).
      set (first := firstn k (b :: rest)) in *.
      set (rest' := skipn (k + length (MeCabReadTask._eosSample this))
                          (b :: rest)) in *.
      pose proof (split_length (MeCabReadTask._eosSample this) rest') as Hlen.
      destruct (MeCabReadTask._eosCount (counted os mecab this first)
                =? MeCabReadTask._maxEos (counted os mecab this first)) eqn:Heq.
      * apply Nat.eqb_eq in Heq. simpl in Heq.
        assert (n = 0) as -> by lia.
        destruct (DeferredTask.resolve _ _) as [d fx'] in H.
        injection H as <- <- <-. split; [|split].
        -- symmetry. apply Nat.ltb_lt. simpl. lia.
        -- simpl. reflexivity.
        -- discriminate.
      * apply Nat.eqb_neq in Heq. simpl in Heq.
        destruct n as [|n]; [lia|].
        set (this2 := MeCabReadTask.push
                        (counted os mecab this first)
                        (Boundary (MeCabReadTask._eosObject
                                     (counted os mecab this first)))) in *.
        change (skipn (k + length (MeCabReadTask._eosSample
                                     (counted os mecab this first))) (b :: rest))
          with rest' in H.
        assert (Hfr : forall l, framed os mecab this2 l = framed os mecab this l)
          by reflexivity.
        assert (Hre : forall s, records os mecab this2 s = records os mecab this s)
          by reflexivity.
        assert (Hres : MeCabReadTask._result this2
                       = MeCabReadTask._result this
                           ++ framed os mecab this [first]).
        { subst this2. cbn [framed flat_map]. simpl MeCabReadTask._result.
          rewrite app_nil_r, <- app_assoc. reflexivity. }
        apply (IH _ _ _ _ _ n) in H; [|exact Hs | exact Hl | simpl; lia].
        change (MeCabReadTask._eosSample this2)
          with (MeCabReadTask._eosSample this) in H.
        change (MeCabReadTask._eosCount this2)
          with (S (MeCabReadTask._eosCount this)) in H.
        rewrite Hres in H. rewrite !Hfr, !Hre in H.
        destruct H as (H1 & H2 & H3). split; [|split].
        -- exact H1.
        -- rewrite H2. rewrite <- !app_assoc. f_equal.
           destruct (Spec.split (MeCabReadTask._eosSample this) rest')
             as [|p ps] eqn:Hp; [simpl in Hlen; lia|].
           destruct done.
           ++ cbn [firstn nth framed flat_map app].
              rewrite <- !app_assoc. reflexivity.
           ++ change (removelast (first :: p :: ps))
                with (first :: removelast (p :: ps)).
              cbn [framed flat_map app]. rewrite <- !app_assoc. reflexivity.
        -- intros Hd. destruct (H3 Hd) as [H4 H5]. split.
           ++ rewrite H4.
              destruct (Spec.split (MeCabReadTask._eosSample this) rest')
                as [|p ps]; [simpl in Hlen; lia | reflexivity].
           ++ rewrite H5. simpl length. lia.
    + injection H as <- <- <-. rewrite (split_none _ _ Hk).
      cbn. rewrite app_nil_r. repeat split; lia.
Qed.

(** X3.  What one call of [readData] makes of a chunk, for an EOS
    sample that is not empty and a task that still expects [n + 1] EOS.
    Split the carried bytes followed by the chunk on the EOS sample.  If
    there are more than [n + 1] pieces, the task completes: its result
    gains the records of each of the first [n] pieces with an EOS object
    after each, and the records of the next piece.  Otherwise it stays
    incomplete: its result gains the records of every piece but the last
    with an EOS object after each, the last piece is what it carries
    over, holding no whole EOS, and it has counted one EOS for every
    piece but the last. *)
Theorem framing_of_a_chunk :
  forall (R E : Type) (os : Platform) (mecab : MeCab.t R E)
         (this this' : MeCabReadTask.t R E) (data : bytes)
         (done : bool) (fx : list (effect R E)) (n : nat),
    MeCabReadTask._eosSample this <> [] ->
    MeCabReadTask._eosCount this + S n = MeCabReadTask._maxEos this ->
    readData os mecab this data = Normal (this', done, fx) ->
    let segments :=
      Spec.split (MeCabReadTask._eosSample this) (carry this ++ data) in
    done = (S n <? length segments)
    /\ MeCabReadTask._result this'
       = MeCabReadTask._result this
           ++ (if done
               then framed os mecab this (firstn n segments)
                      ++ records os mecab this (nth n segments [])
               else framed os mecab this (removelast segments))
    /\ (done = false ->
        carry this' = last segments []
        /\ indexOf (carry this') (MeCabReadTask._eosSample this) 0 = None
        /\ MeCabReadTask._eosCount this'
           = MeCabReadTask._eosCount this + (length segments - 1)).
Proof.
  intros R E os mecab this this' data done fx n Hs Hc H segments.
  assert (Hpos : 0 < length (MeCabReadTask._eosSample this))
    by (destruct (MeCabReadTask._eosSample this);
        [contradiction | simpl; lia]).
  rewrite readData_rest in H.
  apply (readRest_framing os mecab _ _ _ _ _ _ n) in H;
    [|exact Hpos | reflexivity | exact Hc].
  destruct H as (H1 & H2 & H3).
  split; [exact H1|]. split; [exact H2|].
  intros Hd. destruct (H3 Hd) as [H4 H5].
  split; [exact H4|]. split; [|exact H5].
  rewrite H4. unfold indexOf. simpl skipn. rewrite Nat.min_0_l.
  apply (split_last_none _ (length (carry this ++ data)) Hpos). lia.
Qed.

Lemma framing_of_a_chunk_witness :
  exists this' fx,
    readData POSIX (spawn POSIX Example.child) (newReadTask (spawn POSIX Example.child) 3 None)
             (Example.a1a2 ++ Example.eos ++ lit "b1")
    = Normal (this', false, fx)
    /\ MeCabReadTask._result this'
       = [Parsed [lit "a1"; lit "a2"]; Boundary (lit "EOS")]
    /\ carry this' = lit "b1".
Proof.
  destruct (readData POSIX (spawn POSIX Example.child) (newReadTask (spawn POSIX Example.child) 3 None)
                     (Example.a1a2 ++ Example.eos ++ lit "b1"))
    as [[[this' done] fx]| |] eqn:H; try (vm_compute in H; discriminate).
  destruct (framing_of_a_chunk
              _ _ POSIX (spawn POSIX Example.child) (newReadTask (spawn POSIX Example.child) 3 None)
              this' (Example.a1a2 ++ Example.eos ++ lit "b1") done fx 2
              ltac:(vm_compute; discriminate) eq_refl H) as (H1 & H2 & H3).
  vm_compute in H1. subst done.
  exists this', fx. split; [reflexivity|].
  split; [exact H2|]. apply H3. reflexivity.
Defined.

(** ** What a queued task reads from the [MeCab] object *)

Lemma readLoop_lineParser {R E} (os : Platform) (m1 m2 : MeCab.t R E)
      (buffer : bytes) (fuel : nat) :
  MeCab.lineParser m1 = MeCab.lineParser m2 ->
  forall (this : MeCabReadTask.t R E) (offset : nat),
    readLoop os fuel m1 this buffer offset
    = readLoop os fuel m2 this buffer offset.
Proof.
  intros Hp. induction fuel as [|fuel IH]; intros this offset; [reflexivity|].
  cbn [readLoop]. destruct (offset <? length buffer); [|reflexivity].
  destruct (indexOf buffer (MeCabReadTask._eosSample this) offset);
    [|reflexivity].
  unfold _parseSentence. rewrite Hp.
  destruct (decodeSentence this buffer offset n); cbn [bind].
  - match goal with |- context [if ?c then _ else _] => destruct c end;
      [reflexivity | apply IH].
  - destruct (parseLoop _ _ _ _ _ _) as [this1| |]; cbn [bind];
      try reflexivity.
    match goal with |- context [if ?c then _ else _] => destruct c end;
      [reflexivity | apply IH].
Qed.

Lemma readData_lineParser {R E} (os : Platform) (m1 m2 : MeCab.t R E)
      (this : MeCabReadTask.t R E) (data : bytes) :
  MeCab.lineParser m1 = MeCab.lineParser m2 ->
  readData os m1 this data = readData os m2 this data.
Proof.
  intros Hp. unfold readData. destruct (_concatBuffer this data).
  apply readLoop_lineParser. exact Hp.
Qed.

(** X4.  A read task takes its EOS sample, its EOS object and its
    decoder when it is constructed: setting another EOS sample, EOS
    object, default decoder or default encoder on the [MeCab] object
    afterwards changes nothing in how the task reads a chunk. *)
Theorem setters_leave_queued_tasks :
  forall (R E : Type) (os : Platform) (mecab : MeCab.t R E)
         (this : MeCabReadTask.t R E) (data : bytes),
    (forall sample,
        readData os (setEOSSample os mecab sample) this data
        = readData os mecab this data)
    /\ (forall obj,
           readData os (setEOSObject mecab obj) this data
           = readData os mecab this data)
    /\ (forall decoder,
           readData os (setDefaultDecoder mecab decoder) this data
           = readData os mecab this data)
    /\ (forall encoder,
           readData os (setDefaultEncoder mecab encoder) this data
           = readData os mecab this data).
Proof.
  intros R E os mecab this data. repeat split; intros;
    apply readData_lineParser; try reflexivity.
  destruct sample; reflexivity.
Qed.

(** ** Output that no read task waits for *)

Lemma readData_no_TypeError {R E} (os : Platform) (mecab : MeCab.t R E)
      (this : MeCabReadTask.t R E) (data : bytes) :
  readData os mecab this data <> TypeError.
Proof. rewrite readData_rest. apply readRest_no_TypeError. Qed.

(** X5.  The handler of ['data'] throws a [TypeError] exactly in two
    cases.  The queue is empty or has a kill task at its head: output
    of the subprocess that arrives when no read task is first in the
    queue is not dropped, it breaks the handler.  Or the chunk
    completes the read task at the head and the task behind it is a
    kill whose signal the child process does not know: the read task is
    resolved and taken off the queue, and then starting the kill task
    throws. *)
Theorem data_without_reader_throws :
  forall (R E : Type) (os : Platform) (this : MeCab.t R E) (data : bytes),
    onData os this data = TypeError
    <-> (forall task rest, MeCab._tasks this <> Read task :: rest)
        \/ (exists task task' fx next rest,
               MeCab._tasks this = Read task :: Kill next :: rest
               /\ readData os this task data = Normal (task', true, fx)
               /\ ChildProcess.signals (MeCab._process this)
                                       (MeCabKillTask._signal next) = false).
Proof.
  intros R E os this data. unfold onData.
  destruct (MeCab._tasks this) as [|[task|task] rest] eqn:Hq; split;
    try (intros _; left; intros task0 rest0; discriminate);
    try reflexivity.
  - intros H. right.
    pose proof (readData_no_TypeError os this task data) as Hn.
    destruct (readData os this task data) as [[[task' done] fx]| |] eqn:Hd;
      cbn [bind] in H; try discriminate; try (exfalso; apply Hn; reflexivity).
    destruct done; [|discriminate].
    destruct rest as [|[next|next] rest]; try discriminate.
    exists task, task', fx, next, rest.
    split; [reflexivity|]. split; [exact Hd|].
    cbn [start bind] in H. unfold ChildProcess.kill in H.
    cbn [MeCab._process MeCab.with_tasks MeCab.emit] in H.
    destruct (ChildProcess.signals _ _); [discriminate | reflexivity].
  - intros [H | (task0 & task' & fx & next & rest' & Ht & Hd & Hs)].
    + exfalso. apply (H task rest). reflexivity.
    + injection Ht as -> ->. rewrite Hd. cbn [bind start].
      unfold ChildProcess.kill.
      cbn [MeCab._process MeCab.with_tasks MeCab.emit].
      rewrite Hs. reflexivity.
Qed.

Lemma data_without_reader_throws_witness :
  onData POSIX (spawn POSIX Example.child) Example.eos = TypeError
  /\ onData POSIX (kill (spawn POSIX Example.child) false "SIGTERM")
            Example.eos = TypeError
  /\ onData POSIX (kill Example.oneRequest false "SIGNONE") Example.eos
     = TypeError.
Proof.
  split; [|split].
  - apply (proj2 (data_without_reader_throws
                    _ _ POSIX (spawn POSIX Example.child) Example.eos)).
    left. intros task rest. discriminate.
  - apply (proj2 (data_without_reader_throws
                    _ _ POSIX (kill (spawn POSIX Example.child) false "SIGTERM")
                    Example.eos)).
    left. intros task rest. discriminate.
  - apply (proj2 (data_without_reader_throws
                    _ _ POSIX (kill Example.oneRequest false "SIGNONE")
                    Example.eos)).
    right.
    exists Example.request, Example.requestDone,
      [Settle 0 (Fulfilled (@Result (list jsstring) jsstring []))],
      (MeCabKillTask.make (DeferredTask.make 1 None) "SIGNONE"), [].
    split; [vm_compute; reflexivity|].
    split; [vm_compute; reflexivity | reflexivity].
Defined.

(** ** An error of the subprocess, and its end *)

(** X6.  The handler of ['error'] rejects every task of the queue that
    is still pending with the error it is given, in the order of the
    queue, and leaves the queue empty. *)
Theorem error_rejects_and_clears :
  forall (R E : Type) (this : MeCab.t R E) (error : string) (task : Task R E),
    In task (MeCab._tasks this) ->
    pending task = true ->
    MeCab._tasks (onError this error) = []
    /\ MeCab.trace (onError this error)
       = MeCab.trace this ++ rejections (MeCab._tasks this) (ErrorObject error)
    /\ In (Settle (task_id task) (Rejected (ErrorObject error)))
          (MeCab.trace (onError this error))
    /\ settledIds (rejections (MeCab._tasks this) (ErrorObject error))
       = pendingIds (MeCab._tasks this).
Proof.
  intros R E this error task Hin Hp. unfold onError.
  destruct (_rejectAllTasks_spec this (ErrorObject error)) as [H1 H2].
  split; [exact H1|]. split; [exact H2|]. split; [|apply rejections_ids].
  rewrite H2. apply in_or_app. right. unfold rejections.
  apply in_flat_map. exists task. split; [exact Hin|].
  rewrite Hp. left. reflexivity.
Qed.

Lemma error_rejects_and_clears_witness :
  MeCab._tasks (onError Example.oneRequest "spawn ENOENT") = []
  /\ In (Settle (task_id (Read Example.request))
                (Rejected (ErrorObject "spawn ENOENT")))
        (MeCab.trace (onError Example.oneRequest "spawn ENOENT")).
Proof.
  assert (Hq : MeCab._tasks Example.oneRequest = [Read Example.request])
    by (vm_compute; reflexivity).
  destruct (error_rejects_and_clears
              _ _ Example.oneRequest "spawn ENOENT" (Read Example.request))
    as (H1 & _ & H3 & _).
  - rewrite Hq. left. reflexivity.
  - vm_compute. reflexivity.
  - split; [exact H1 | exact H3].
Defined.

Lemma kill_behind_a_queue {R E} (this : MeCab.t R E) (optSignal : string) :
  MeCab._tasks this <> [] ->
  MeCab.trace (kill this false optSignal) = MeCab.trace this
  /\ MeCab._tasks (kill this false optSignal)
     = MeCab._tasks this
         ++ [Kill (MeCabKillTask.make
                     (DeferredTask.make (MeCab.created this) None) optSignal)].
Proof.
  intros Hq. destruct (kill_spec this false optSignal) as (-> & -> & _).
  split; [|reflexivity].
  destruct (MeCab._tasks this); [contradiction|].
  unfold atCall. cbn [orb length Nat.eqb app]. apply app_nil_r.
Qed.

(** X7.  The handler of ['close'] settles the tasks of the queue and
    leaves them in the queue: the queue holds the same tasks, by their
    ids, as before.  So after a close that found the queue not empty, a
    kill that is not forced sends no signal, and its promise stays
    pending behind the settled tasks. *)
Theorem close_keeps_the_queue :
  forall (R E : Type) (this : MeCab.t R E) (code : option Z)
         (optSignal : string),
    MeCab._tasks this <> [] ->
    map task_id (MeCab._tasks (onClose this code))
    = map task_id (MeCab._tasks this)
    /\ MeCab.trace (kill (onClose this code) false optSignal)
       = MeCab.trace (onClose this code)
    /\ pendingIds (MeCab._tasks (kill (onClose this code) false optSignal))
       = [MeCab.created this].
Proof.
  intros R E this code optSignal Hq.
  destruct (forEach_settles (closeTask code) (MeCab._tasks this)
                            (closeTask_settles code)) as (H1 & H2 & _).
  assert (Hc : MeCab._tasks (onClose this code)
               = fst (forEach (closeTask code) (MeCab._tasks this))).
  { unfold onClose. destruct (forEach _ _). reflexivity. }
  assert (Hne : MeCab._tasks (onClose this code) <> []).
  { intros He. rewrite Hc in He. rewrite He in H1.
    destruct (MeCab._tasks this); [contradiction | discriminate]. }
  destruct (kill_behind_a_queue (onClose this code) optSignal Hne) as [Ht Hk].
  split; [rewrite Hc; exact H1|]. split; [exact Ht|].
  rewrite Hk. unfold pendingIds. rewrite filter_app, map_app.
  fold (pendingIds (MeCab._tasks (onClose this code))).
  rewrite Hc, H2. unfold onClose. destruct (forEach _ _). reflexivity.
Qed.

Lemma close_keeps_the_queue_witness :
  MeCab.trace (kill (onClose Example.oneRequest (Some 1%Z)) false "SIGTERM")
  = MeCab.trace (onClose Example.oneRequest (Some 1%Z))
  /\ pendingIds (MeCab._tasks
                   (kill (onClose Example.oneRequest (Some 1%Z)) false "SIGTERM"))
     = [MeCab.created Example.oneRequest].
Proof.
  apply (close_keeps_the_queue _ _ Example.oneRequest (Some 1%Z) "SIGTERM").
  vm_compute. discriminate.
Defined.

(** ** No task is lost *)

Section Accounting.

Context {R E : Type}.
Variable first : nat.

Lemma Acc_same (m m' : MeCab.t R E) :
  MeCab._tasks m' = MeCab._tasks m ->
  MeCab.created m' = MeCab.created m ->
  MeCab.trace m' = MeCab.trace m ->
  Accounted first m -> Accounted first m'.
Proof.
  intros H1 H2 H3 [Ha Hq]. constructor; rewrite ?H1, ?H2, ?H3; assumption.
Qed.

Lemma Acc_emit (m : MeCab.t R E) (fx : list (effect R E)) :
  Accounted first m -> Accounted first (MeCab.emit m fx).
Proof.
  intros [Ha Hq].
  constructor; cbn [MeCab._tasks MeCab.created MeCab.trace MeCab.emit].
  - intros id Hid. destruct (Ha id Hid) as [H|H]; [left|right; exact H].
    rewrite settledIds_app. apply in_or_app. left. exact H.
  - intros task Hin Hp. rewrite settledIds_app. apply in_or_app. left.
    apply Hq; assumption.
Qed.

(** The tasks stay accounted for when some of the queue settle and the
    queue is replaced, as long as every pending task has settled or is
    pending in the new queue and every settled task of the new queue has
    settled. *)
Lemma Acc_settle (m : MeCab.t R E) (tasks' : list (Task R E))
      (fx : list (effect R E)) :
  Accounted first m ->
  (forall id, In id (pendingIds (MeCab._tasks m)) ->
              In id (settledIds fx) \/ In id (pendingIds tasks')) ->
  (forall task, In task tasks' -> pending task = false ->
                In (task_id task) (settledIds (MeCab.trace m ++ fx))) ->
  Accounted first (MeCab.emit (MeCab.with_tasks m tasks') fx).
Proof.
  intros [Ha Hq] Hp Hs.
  constructor; cbn [MeCab._tasks MeCab.created MeCab.trace MeCab.emit
                    MeCab.with_tasks].
  - intros id Hid. rewrite settledIds_app. destruct (Ha id Hid) as [H|H].
    + left. apply in_or_app. left. exact H.
    + destruct (Hp id H) as [H'|H']; [left|right; exact H'].
      apply in_or_app. right. exact H'.
  - exact Hs.
Qed.

Lemma Acc_push (m : MeCab.t R E) (task : Task R E) :
  Accounted first m ->
  task_id task = MeCab.created m ->
  pending task = true ->
  Accounted first
            (fst (_addTask (MeCab.with_created m (S (MeCab.created m))) task)).
Proof.
  intros [Ha Hq] Hid Hp.
  assert (HA : Accounted first
                 (MeCab.with_tasks
                    (MeCab.with_created m (S (MeCab.created m)))
                    (MeCab._tasks m ++ [task]))).
  { constructor; cbn [MeCab._tasks MeCab.created MeCab.trace MeCab.emit
                      MeCab.with_tasks MeCab.with_created].
    - intros id Hr. unfold pendingIds. rewrite filter_app, map_app.
      destruct (Nat.eq_dec id (MeCab.created m)) as [->|Hne].
      + right. apply in_or_app. right. cbn [filter]. rewrite Hp.
        left. exact Hid.
      + destruct (Ha id ltac:(lia)) as [H|H];
          [left; exact H | right; apply in_or_app; left; exact H].
    - intros t Hin Hpt. apply in_app_or in Hin.
      destruct Hin as [Hin|[<-|[]]]; [apply Hq; assumption | congruence]. }
  unfold _addTask.
  match goal with |- context [if ?c then _ else _] => destruct c end;
    [|exact HA].
  match goal with |- context [start ?x ?t] => destruct (start x t) end;
    cbn [fst]; [apply Acc_emit|..]; exact HA.
Qed.

Lemma pendingIds_In (tasks : list (Task R E)) (id : nat) :
  In id (pendingIds tasks)
  <-> exists task, In task tasks /\ pending task = true /\ task_id task = id.
Proof.
  unfold pendingIds. rewrite in_map_iff. split.
  - intros (task & H1 & H2). apply filter_In in H2. exists task. tauto.
  - intros (task & H1 & H2 & H3). exists task. split; [exact H3|].
    apply filter_In. tauto.
Qed.

Lemma Acc_forEach (m : MeCab.t R E)
      (f : Task R E -> Task R E * list (effect R E)) :
  settles f ->
  Accounted first m ->
  Accounted first
            (MeCab.emit (MeCab.with_tasks m (fst (forEach f (MeCab._tasks m))))
                        (snd (forEach f (MeCab._tasks m))))
  /\ Accounted first
               (MeCab.emit (MeCab.with_tasks m [])
                           (snd (forEach f (MeCab._tasks m)))).
Proof.
  intros Hf HA.
  destruct (forEach_settles f (MeCab._tasks m) Hf) as (H1 & H2 & H3).
  split; apply (Acc_settle m _ _ HA).
  - intros id Hid. left. rewrite H3. exact Hid.
  - intros task' Hin Hp. rewrite forEach_map in Hin. cbn [fst] in Hin.
    apply in_map_iff in Hin. destruct Hin as (task & <- & Hin).
    destruct (Hf task) as [s Hs]. rewrite Hs, settleTask_id.
    rewrite settledIds_app. apply in_or_app.
    destruct (pending task) eqn:Hpt.
    + right. rewrite H3. apply pendingIds_In. exists task. tauto.
    + left. destruct HA as [_ Hq]. apply Hq; assumption.
  - intros id Hid. left. rewrite H3. exact Hid.
  - intros task [].
Qed.

Lemma Acc_onClose (m : MeCab.t R E) (code : option Z) :
  Accounted first m -> Accounted first (onClose m code).
Proof.
  intros HA. unfold onClose.
  destruct (Acc_forEach m (closeTask code) (closeTask_settles code) HA)
    as [H _].
  destruct (forEach (closeTask code) (MeCab._tasks m)). exact H.
Qed.

Lemma Acc_rejectAll (m : MeCab.t R E) (r : reason) :
  Accounted first m -> Accounted first (_rejectAllTasks m r).
Proof.
  intros HA. unfold _rejectAllTasks.
  destruct (Acc_forEach m (fun task => reject task r) (reject_settles r) HA)
    as [_ H].
  destruct (forEach (fun task => reject task r) (MeCab._tasks m)). exact H.
Qed.

Lemma Acc_onData (os : Platform) (m m' : MeCab.t R E) (data : bytes) :
  Accounted first m -> onData os m data = Normal m' -> Accounted first m'.
Proof.
  intros HA H. unfold onData in H.
  destruct (MeCab._tasks m) as [|[task|task] rest] eqn:Hq; try discriminate.
  destruct (readData os m task data) as [[[task' done] fx]| |] eqn:Hd;
    try discriminate.
  cbn [bind] in H. apply readData_super in Hd. destruct done.
  - pose proof (settleTask_ids (Read task)
                  (Fulfilled (Result (MeCabReadTask._result task')))) as Hi.
    rewrite Hd in Hi. cbn [snd] in Hi.
    assert (HA' : Accounted first (MeCab.emit (MeCab.with_tasks m rest) fx)).
    { apply (Acc_settle m rest fx HA).
      - intros id Hid. rewrite Hq, pendingIds_cons in Hid.
        apply in_app_or in Hid. rewrite Hi. tauto.
      - intros t Hin Hp. rewrite settledIds_app. apply in_or_app. left.
        destruct HA as [_ Hqu]. apply Hqu; [|exact Hp].
        rewrite Hq. right. exact Hin. }
    destruct rest as [|next rest'].
    + injection H as <-. exact HA'.
    + destruct (start _ next) as [started| |]; try discriminate.
      cbn [bind] in H. injection H as <-.
      apply Acc_emit. exact HA'.
  - destruct Hd as [Hsuper ->]. injection H as <-.
    assert (Hid : task_id (Read task') = task_id (Read task))
      by (unfold task_id; simpl; rewrite Hsuper; reflexivity).
    assert (Hpe : pending (Read task') = pending (Read task))
      by (unfold pending; simpl; rewrite Hsuper; reflexivity).
    apply (Acc_settle m (Read task' :: rest) [] HA).
    + assert (Hp1 : pendingIds [Read task'] = pendingIds [Read task]).
      { unfold pendingIds. cbn [filter]. rewrite Hpe.
        destruct (pending (Read task)); cbn [map]; rewrite ?Hid; reflexivity. }
      intros id Hin. right. rewrite Hq in Hin.
      rewrite pendingIds_cons in Hin. rewrite pendingIds_cons, Hp1.
      exact Hin.
    + intros t Hin Hp. rewrite app_nil_r. destruct HA as [_ Hqu].
      destruct Hin as [<-|Hin].
      * rewrite Hid. apply Hqu; [rewrite Hq; left; reflexivity|].
        rewrite <- Hpe. exact Hp.
      * apply Hqu; [rewrite Hq; right; exact Hin | exact Hp].
Qed.

Lemma Acc_step (os : Platform) (m m' : MeCab.t R E) (ev : event R E) :
  Accounted first m -> step os m ev = Normal m' -> Accounted first m'.
Proof.
  intros HA H. destruct ev; cbn [step] in H; try (injection H as <-).
  - unfold analyze in H. rewrite _countSentences_spec in H.
    cbn [bind] in H.
    match type of H with context [_addTask _ ?t] =>
      pose proof (Acc_push m t HA eq_refl eq_refl) as HA1
    end.
    destruct (_addTask _ _) as [m1 [|]]; cbn [fst] in HA1; injection H as <-.
    + apply Acc_emit. apply Acc_emit. exact HA1.
    + apply Acc_emit. exact HA1.
  - unfold kill.
    match goal with |- context [_addTask (MeCab.with_created ?x _) ?t] =>
      assert (HA' : Accounted first x)
        by (destruct optForce; [apply Acc_rejectAll|]; exact HA);
      pose proof (Acc_push x t HA' eq_refl eq_refl) as HA1
    end.
    destruct (_addTask _ _) as [m1 [|]]; cbn [fst] in HA1.
    + exact HA1.
    + apply Acc_emit. exact HA1.
  - apply (Acc_same m); auto.
  - apply (Acc_same m); auto.
  - apply (Acc_same m); [destruct sample|destruct sample|destruct sample|]; auto.
  - apply (Acc_same m); auto.
  - apply (Acc_same m); auto.
  - eapply Acc_onData; eassumption.
  - apply Acc_onClose. exact HA.
  - apply Acc_rejectAll. exact HA.
Qed.

Lemma Acc_run (os : Platform) (evs : list (event R E)) :
  forall m m' : MeCab.t R E,
    Accounted first m -> run os m evs = Normal m' -> Accounted first m'.
Proof.
  induction evs as [|ev evs IH]; intros m m' HA H.
  - injection H as <-. exact HA.
  - cbn [run] in H.
    destruct (step os m ev) as [m1| |] eqn:Hs; try discriminate.
    cbn [bind] in H. apply (IH m1); [|exact H].
    eapply Acc_step; eassumption.
Qed.

End Accounting.

(** X8.  No task is lost.  In every run that starts with an empty
    queue, every task constructed in the run has either settled or waits
    in the queue with its promise pending; and a task that is in the
    queue with its promise settled (as the handler of ['close'] leaves
    them) does appear among the settled ones. *)
Theorem no_task_is_lost :
  forall (R E : Type) (os : Platform) (start this : MeCab.t R E)
         (evs : list (event R E)) (id : nat),
    MeCab._tasks start = [] ->
    run os start evs = Normal this ->
    MeCab.created start <= id < MeCab.created this ->
    In id (settledIds (MeCab.trace this))
    \/ In id (pendingIds (MeCab._tasks this)).
Proof.
  intros R E os start this evs id Hq Hrun Hid.
  assert (HA : Accounted (MeCab.created start) start).
  { constructor; [intros i Hi; lia|]. rewrite Hq. intros task []. }
  destruct (Acc_run (MeCab.created start) os evs start this HA Hrun)
    as [Ha _].
  apply Ha. exact Hid.
Qed.

Lemma no_task_is_lost_witness :
  In 1 (settledIds (MeCab.trace Example.twoDone))
  \/ In 1 (pendingIds (MeCab._tasks Example.twoDone)).
Proof.
  apply (no_task_is_lost _ _ POSIX (spawn POSIX Example.child) Example.twoDone
                         Example.twoRequests 1 eq_refl).
  - vm_compute. reflexivity.
  - vm_compute. split; repeat constructor.
Defined.

(** ** The count of a request, in bytes *)

Lemma occurrences_single (c : Z) (s : bytes) :
  Spec.occurrences [c] s = count_occ Z.eq_dec s c.
Proof.
  induction s as [|x s IH]; [reflexivity|].
  cbn [Spec.occurrences startsWith count_occ]. rewrite IH, andb_true_r.
  destruct (Z.eq_dec x c) as [->|Hne].
  - rewrite Z.eqb_refl. reflexivity.
  - replace (c =? x)%Z with false; [reflexivity|].
    symmetry. apply Z.eqb_neq. congruence.
Qed.

Lemma occurrences_bound (pat s : bytes) : Spec.occurrences pat s <= length s.
Proof.
  induction s as [|x s IH]; [simpl; lia|].
  cbn [Spec.occurrences length]. destruct (startsWith pat (x :: s)); lia.
Qed.

Lemma firstTerminator_without_CR (s : bytes) :
  ~ In CR s ->
  Spec.firstTerminator s = Some [LF]
  \/ (Spec.firstTerminator s = None /\ ~ In LF s).
Proof.
  induction s as [|b s IH]; intros Hn; [right; split; [reflexivity | intros []]|].
  cbn [Spec.firstTerminator].
  destruct (b =? LF)%Z eqn:Hlf; [left; reflexivity|].
  destruct (b =? CR)%Z eqn:Hcr.
  - apply Z.eqb_eq in Hcr. exfalso. apply Hn. left. exact Hcr.
  - destruct IH as [H|[H1 H2]]; [intros H; apply Hn; right; exact H | left; exact H|].
    right. split; [exact H1|]. intros [H|H]; [|exact (H2 H)].
    apply Z.eqb_neq in Hlf. congruence.
Qed.

Lemma firstTerminator_without_LF (s : bytes) :
  ~ In LF s ->
  Spec.firstTerminator s = Some [CR]
  \/ (Spec.firstTerminator s = None /\ ~ In CR s).
Proof.
  induction s as [|b s IH]; intros Hn; [right; split; [reflexivity | intros []]|].
  cbn [Spec.firstTerminator].
  destruct (b =? LF)%Z eqn:Hlf.
  - apply Z.eqb_eq in Hlf. exfalso. apply Hn. left. exact Hlf.
  - destruct (b =? CR)%Z eqn:Hcr.
    + left. destruct s as [|c s]; [reflexivity|].
      replace (c =? LF)%Z with false; [reflexivity|].
      symmetry. apply Z.eqb_neq. intros ->. apply Hn. right. left. reflexivity.
    + destruct IH as [H|[H1 H2]];
        [intros H; apply Hn; right; exact H | left; exact H|].
      right. split; [exact H1|]. intros [H|H]; [|exact (H2 H)].
      apply Z.eqb_neq in Hcr. congruence.
Qed.

(** X9.  The number [_countSentences] returns, in bytes: for a payload
    without CR it is the number of LF bytes, for a payload without LF it
    is the number of CR bytes, and it is never more than the length of
    the payload. *)
Theorem count_of_line_breaks :
  forall payload : bytes,
    (~ In CR payload ->
     _countSentences payload = Normal (count_occ Z.eq_dec payload LF))
    /\ (~ In LF payload ->
        _countSentences payload = Normal (count_occ Z.eq_dec payload CR))
    /\ (exists n, _countSentences payload = Normal n /\ n <= length payload).
Proof.
  intros payload. rewrite _countSentences_spec. unfold Spec.terminators.
  split; [|split].
  - intros Hn. destruct (firstTerminator_without_CR payload Hn) as [->|[-> H]].
    + rewrite occurrences_single. reflexivity.
    + rewrite (count_occ_not_In Z.eq_dec payload LF) in H. rewrite H.
      reflexivity.
  - intros Hn. destruct (firstTerminator_without_LF payload Hn) as [->|[-> H]].
    + rewrite occurrences_single. reflexivity.
    + rewrite (count_occ_not_In Z.eq_dec payload CR) in H. rewrite H.
      reflexivity.
  - eexists. split; [reflexivity|].
    destruct (Spec.firstTerminator payload); [apply occurrences_bound | lia].
Qed.

Lemma count_of_line_breaks_witness :
  _countSentences (lit "A" ++ [LF] ++ lit "B" ++ [LF])
  = Normal (count_occ Z.eq_dec (lit "A" ++ [LF] ++ lit "B" ++ [LF]) LF).
Proof.
  apply (proj1 (count_of_line_breaks (lit "A" ++ [LF] ++ lit "B" ++ [LF]))).
  vm_compute. intros [H|[H|[H|[H|[]]]]]; discriminate.
Defined.

(** ** The fields of a line *)

Lemma split_class_length (sep : Z -> bool) (s : jsstring) :
  forall cur, length (split_class sep cur s) = S (length (filter sep s)).
Proof.
  induction s as [|c s IH]; intros cur; [reflexivity|].
  cbn [split_class filter]. destruct (sep c); cbn [length]; rewrite IH;
    reflexivity.
Qed.

Lemma split_class_concat (sep : Z -> bool) (s : jsstring) :
  forall cur,
    concat (split_class sep cur s)
    = rev cur ++ filter (fun c => negb (sep c)) s.
Proof.
  induction s as [|c s IH]; intros cur.
  - simpl. rewrite app_nil_r. reflexivity.
  - cbn [split_class filter]. destruct (sep c); cbn [negb concat].
    + rewrite IH. reflexivity.
    + rewrite IH. cbn [rev]. rewrite <- app_assoc. reflexivity.
Qed.

Lemma split_class_clean (sep : Z -> bool) (s : jsstring) :
  forall cur,
    filter sep cur = [] ->
    Forall (fun field => filter sep field = []) (split_class sep cur s).
Proof.
  assert (Hrev : forall cur, filter sep cur = [] -> filter sep (rev cur) = []).
  { intros cur H. induction cur as [|x cur IH]; [reflexivity|].
    cbn [filter] in H. destruct (sep x) eqn:Hx; [discriminate|].
    cbn [rev]. rewrite filter_app, (IH H). cbn [filter]. rewrite Hx.
    reflexivity. }
  induction s as [|c s IH]; intros cur Hc.
  - constructor; [apply Hrev; exact Hc | constructor].
  - cbn [split_class]. destruct (sep c) eqn:Hs.
    + constructor; [apply Hrev; exact Hc | apply IH; reflexivity].
    + apply IH. cbn [filter]. rewrite Hs. exact Hc.
Qed.

(** X10.  The fields a line parser made by [createLineParser] cuts a
    line into, for a class of separator characters: there is one field
    more than there are separators in the line, no field holds a
    separator, and the fields put together are the line without its
    separators, in order. *)
Theorem fields_of_a_line :
  forall (sep : Z -> bool) (line : jsstring),
    length (createLineParser sep line) = S (length (separators sep line))
    /\ Forall (fun field => separators sep field = [])
              (createLineParser sep line)
    /\ concat (createLineParser sep line)
       = filter (fun c => negb (sep c)) line.
Proof.
  intros sep line. unfold createLineParser, separators.
  split; [apply split_class_length|].
  split; [apply split_class_clean; reflexivity|].
  apply (split_class_concat sep line []).
Qed.

(** ** A kill behind a request *)

Lemma kill_lineParser {R E} (this : MeCab.t R E) (optForce : bool)
      (optSignal : string) :
  MeCab.lineParser (kill this optForce optSignal) = MeCab.lineParser this.
Proof. apply (kill_spec this optForce optSignal). Qed.

(** X11.  A kill that is not forced and is called while a request is
    under way sends no signal when it is called.  When the child
    process knows the signal, it is sent by the handler of ['data'],
    right after the chunk that completes the request has fulfilled its
    promise; the promise of the kill is then the only one pending.
    When the child process does not know the signal, none is sent: the
    call of [kill] returns all the same, and the handler of ['data']
    throws on the chunk that completes the request. *)
Theorem kill_waits_for_the_request :
  forall (R E : Type) (os : Platform) (this : MeCab.t R E)
         (task task' : MeCabReadTask.t R E) (data : bytes)
         (fx : list (effect R E)) (optSignal : string),
    MeCab._tasks this = [Read task] ->
    readData os this task data = Normal (task', true, fx) ->
    MeCab.trace (kill this false optSignal) = MeCab.trace this
    /\ pendingIds (MeCab._tasks (kill this false optSignal))
       = pendingIds [Read task] ++ [MeCab.created this]
    /\ if ChildProcess.signals (MeCab._process this) optSignal
       then exists this',
           run os this [CallKill false optSignal; StdoutData data]
           = Normal this'
           /\ MeCab.trace this'
              = MeCab.trace this ++ fx ++ [ProcessKill optSignal]
           /\ pendingIds (MeCab._tasks this') = [MeCab.created this]
       else run os this [CallKill false optSignal; StdoutData data]
            = TypeError.
Proof.
  intros R E os this task task' data fx optSignal Hq Hd.
  destruct (kill_behind_a_queue this optSignal) as [Ht Hk];
    [rewrite Hq; discriminate|].
  destruct (kill_spec this false optSignal) as (_ & _ & _ & Hp & _).
  split; [exact Ht|]. split.
  { rewrite Hk, Hq. unfold pendingIds. rewrite filter_app, map_app.
    reflexivity. }
  cbn [run step bind]. unfold onData. rewrite Hk, Hq. cbn [app].
  rewrite (readData_lineParser os (kill this false optSignal) this task data
             (kill_lineParser this false optSignal)), Hd.
  cbn [bind start MeCabKillTask._signal]. unfold ChildProcess.kill.
  cbn [MeCab._process MeCab.with_tasks MeCab.emit]. rewrite Hp.
  destruct (ChildProcess.signals (MeCab._process this) optSignal).
  - cbn [bind]. eexists. split; [reflexivity|].
    cbn [MeCab.trace MeCab.emit MeCab.with_tasks MeCab._tasks].
    rewrite Ht, <- app_assoc. split; reflexivity.
  - reflexivity.
Qed.

Lemma kill_waits_for_the_request_witness :
  (exists this',
      run POSIX Example.oneRequest
          [CallKill false "SIGTERM"; StdoutData Example.eos]
      = Normal this'
      /\ MeCab.trace this'
         = MeCab.trace Example.oneRequest
             ++ [Settle 0 (Fulfilled (Result []))] ++ [ProcessKill "SIGTERM"])
  /\ run POSIX Example.oneRequest
         [CallKill false "SIGNONE"; StdoutData Example.eos]
     = TypeError.
Proof.
  assert (Hq : MeCab._tasks Example.oneRequest = [Read Example.request])
    by (vm_compute; reflexivity).
  assert (Hd : readData POSIX Example.oneRequest Example.request Example.eos
               = Normal (Example.requestDone, true,
                         [Settle 0 (Fulfilled (Result []))]))
    by (vm_compute; reflexivity).
  split.
  - destruct (kill_waits_for_the_request
                _ _ POSIX Example.oneRequest Example.request
                Example.requestDone
                Example.eos [Settle 0 (Fulfilled (Result []))] "SIGTERM"
                Hq Hd)
      as (_ & _ & H).
    change (ChildProcess.signals (MeCab._process Example.oneRequest) "SIGTERM")
      with true in H.
    destruct H as (this' & H1 & H2 & _).
    exists this'. split; [exact H1 | exact H2].
  - destruct (kill_waits_for_the_request
                _ _ POSIX Example.oneRequest Example.request
                Example.requestDone
                Example.eos [Settle 0 (Fulfilled (Result []))] "SIGNONE"
                Hq Hd)
      as (_ & _ & H).
    change (ChildProcess.signals (MeCab._process Example.oneRequest) "SIGNONE")
      with false in H.
    exact H.
Defined.

(** ** The EOS sample *)

Lemma startsWith_self (pat s : list Z) : startsWith pat (pat ++ s) = true.
Proof.
  induction pat as [|x pat IH]; [apply startsWith_nil|].
  cbn [app startsWith]. rewrite Z.eqb_refl, IH. reflexivity.
Qed.

Lemma search_absent (c : Z) (pat s : list Z) :
  ~ In c s -> search (c :: pat) s 0 = None.
Proof.
  induction s as [|x s IH]; intros Hn; [reflexivity|].
  rewrite search_cons. cbn [startsWith].
  replace (c =? x)%Z with false
    by (symmetry; apply Z.eqb_neq; intros ->; apply Hn; left; reflexivity).
  cbn [andb]. rewrite IH; [reflexivity|].
  intros H. apply Hn. right. exact H.
Qed.

Lemma search_after (c : Z) (pat prefix suffix : list Z) :
  ~ In c prefix ->
  search (c :: pat) (prefix ++ (c :: pat) ++ suffix) 0 = Some (length prefix).
Proof.
  induction prefix as [|x prefix IH]; intros Hn.
  - cbn [app length]. change (c :: pat ++ suffix) with ((c :: pat) ++ suffix).
    destruct ((c :: pat) ++ suffix) eqn:Hs; [discriminate|].
    rewrite <- Hs. unfold search at 1.
    destruct ((c :: pat) ++ suffix) eqn:Hs'; [discriminate|].
    rewrite <- Hs', startsWith_self. reflexivity.
  - change ((x :: prefix) ++ (c :: pat) ++ suffix)
      with (x :: (prefix ++ (c :: pat) ++ suffix)).
    rewrite search_cons. cbn [startsWith].
    replace (c =? x)%Z with false
      by (symmetry; apply Z.eqb_neq; intros ->; apply Hn; left; reflexivity).
    cbn [andb]. rewrite IH; [reflexivity|].
    intros H. apply Hn. right. exact H.
Qed.

Lemma Buffer_from_ascii (s : jsstring) :
  Forall ascii7 s -> Buffer_from s = s.
Proof.
  unfold Buffer_from. induction s as [|c s IH]; intros H; [reflexivity|].
  apply Forall_cons_iff in H. destruct H as [Hc Hs]. unfold ascii7 in Hc.
  cbn [utf16_points]. unfold is_high, is_low.
  replace (0xD800 <=? c)%Z with false by (symmetry; apply Z.leb_gt; lia).
  replace (0xDC00 <=? c)%Z with false by (symmetry; apply Z.leb_gt; lia).
  cbn [andb flat_map]. unfold utf8_bytes at 1.
  replace (c <? 0x80)%Z with true by (symmetry; apply Z.ltb_lt; lia).
  cbn [app]. f_equal. apply IH. exact Hs.
Qed.

(** X12.  [setEOSSample] on a string replaces the first backslash
    followed by [n], and only the first, by [EOL]: for a string that has
    no backslash before it, the sample is made of what comes before,
    [EOL], and what comes after, left as it is, all encoded in UTF-8
    (byte for byte when the string is ASCII).  A string without a
    backslash is encoded as it is, and a Buffer is taken as it is. *)
Theorem eos_sample_of_a_string :
  forall (R E : Type) (os : Platform) (this : MeCab.t R E),
    (forall prefix suffix : jsstring,
        ~ In BACKSLASH prefix ->
        MeCab._eosSample
          (setEOSSample os this (Str (prefix ++ lit "\n" ++ suffix)))
        = Buffer_from (prefix ++ EOL os ++ suffix)
        /\ (Forall ascii7 (prefix ++ suffix) ->
            MeCab._eosSample
              (setEOSSample os this (Str (prefix ++ lit "\n" ++ suffix)))
            = prefix ++ EOL os ++ suffix))
    /\ (forall s : jsstring,
           ~ In BACKSLASH s ->
           MeCab._eosSample (setEOSSample os this (Str s)) = Buffer_from s)
    /\ (forall b : bytes, MeCab._eosSample (setEOSSample os this (Buf b)) = b).
Proof.
  intros R E os this. split; [|split].
  - intros prefix suffix Hn.
    assert (H : MeCab._eosSample
                  (setEOSSample os this (Str (prefix ++ lit "\n" ++ suffix)))
                = Buffer_from (prefix ++ EOL os ++ suffix)).
    { cbn [setEOSSample MeCab._eosSample MeCab.with_eosSample].
      unfold replace, indexOf. cbn [skipn]. rewrite Nat.min_0_l.
      change (lit "\n") with (BACKSLASH :: [110%Z]).
      rewrite (search_after BACKSLASH [110%Z] prefix suffix Hn).
      rewrite firstn_app_le by lia. rewrite firstn_all.
      rewrite skipn_app. rewrite skipn_all2 by (simpl; lia).
      replace (length prefix + length (BACKSLASH :: [110%Z]) - length prefix)
        with 2 by (simpl; lia).
      reflexivity. }
    split; [exact H|]. intros Ha. rewrite H. apply Buffer_from_ascii.
    apply Forall_app in Ha. destruct Ha as [Ha1 Ha2].
    apply Forall_app. split; [exact Ha1|]. apply Forall_app. split; [|exact Ha2].
    destruct os; repeat constructor; unfold ascii7; lia.
  - intros s Hn. cbn [setEOSSample MeCab._eosSample MeCab.with_eosSample].
    unfold replace, indexOf. cbn [skipn]. rewrite Nat.min_0_l.
    change (lit "\n") with (BACKSLASH :: [110%Z]).
    rewrite (search_absent BACKSLASH [110%Z] s Hn). reflexivity.
  - reflexivity.
Qed.

Lemma eos_sample_of_a_string_witness :
  MeCab._eosSample
    (setEOSSample Windows (spawn Windows Example.child)
                  (Str (lit "End of Sentence" ++ lit "\n" ++ lit "\n")))
  = lit "End of Sentence" ++ [CR; LF] ++ lit "\n".
Proof.
  apply (proj1 (eos_sample_of_a_string _ _ Windows (spawn Windows Example.child))
               (lit "End of Sentence") (lit "\n")).
  - vm_compute. intuition discriminate.
  - vm_compute. repeat constructor; discriminate.
Defined.

(** ** The result of a request *)

(** X13.  What the promise of a request is fulfilled with, whatever the
    chunks: for an EOS sample that is not empty and a read task just
    constructed to expect [n + 1] EOS, split the whole output fed to it
    on the EOS sample; when the task completes, the output holds at
    least [n + 1] EOS and the result is made of the records of each of
    the first [n] pieces with an EOS object after each, and the records
    of the next piece; the promise is fulfilled with this result. *)
Theorem result_of_a_request :
  forall (R E : Type) (os : Platform) (mecab : MeCab.t R E) (n : nat)
         (optDecoder : option (bytes -> decoded)) (chunks : list bytes)
         (this' : MeCabReadTask.t R E) (fx : list (effect R E)),
    MeCab._eosSample mecab <> [] ->
    feed os mecab (newReadTask mecab (S n) optDecoder) chunks
    = Normal (this', true, fx) ->
    let task := newReadTask mecab (S n) optDecoder in
    let segments := Spec.split (MeCab._eosSample mecab) (concat chunks) in
    S n < length segments
    /\ MeCabReadTask._result this'
       = framed os mecab task (firstn n segments)
           ++ records os mecab task (nth n segments [])
    /\ fx = [Settle (MeCab.created mecab)
                    (Fulfilled (Result (MeCabReadTask._result this')))].
Proof.
  intros R E os mecab n optDecoder chunks this' fx Hs H task segments.
  assert (Hfx : fx = [Settle (MeCab.created mecab)
                             (Fulfilled (Result (MeCabReadTask._result this')))]).
  { pose proof H as H'. apply feed_boundaries in H'; [|reflexivity].
    destruct H' as [_ Hr].
    cbv [DeferredTask.resolve DeferredTask.settle newReadTask
         MeCabReadTask.super DeferredTask.promise DeferredTask.id] in Hr.
    injection Hr as _ <-. reflexivity. }
  destruct chunks as [|data chunks]; [discriminate|].
  rewrite feed_cons, readData_rest in H.
  assert (Hpos : 0 < length (MeCabReadTask._eosSample task))
    by (subst task; simpl; destruct (MeCab._eosSample mecab);
        [contradiction | simpl; lia]).
  apply (readRest_framing os mecab _ _ _ _ _ _ n) in H;
    [|exact Hpos | reflexivity | reflexivity].
  destruct H as (H1 & H2 & _).
  split; [|split; [exact H2 | exact Hfx]].
  apply Nat.ltb_lt. symmetry. exact H1.
Qed.

Lemma result_of_a_request_witness :
  MeCabReadTask._result Example.doneAB
  = framed POSIX (spawn POSIX Example.child) (newReadTask (spawn POSIX Example.child) 2 None)
           [Example.a1a2]
      ++ records POSIX (spawn POSIX Example.child) (newReadTask (spawn POSIX Example.child) 2 None)
                 Example.b1b2.
Proof.
  assert (H : feed POSIX (spawn POSIX Example.child) (newReadTask (spawn POSIX Example.child) 2 None)
                   Example.chunksAB
              = Normal (Example.doneAB, true,
                        [Settle 0 (Fulfilled (Result Example.ab))]))
    by (vm_compute; reflexivity).
  destruct (result_of_a_request
              _ _ POSIX (spawn POSIX Example.child) 1 None Example.chunksAB Example.doneAB _
              ltac:(vm_compute; discriminate) H) as (_ & H2 & _).
  exact H2.
Defined.

(** ** Texts that end in a line terminator *)

Lemma search_exists (pat : list Z) :
  forall (s : list Z) (j : nat),
    startsWith pat (skipn j s) = true ->
    exists k, k <= j /\ search pat s 0 = Some k.
Proof.
  induction s as [|x s IH]; intros j H.
  - rewrite skipn_nil in H. exists 0. split; [lia|].
    simpl. rewrite H. reflexivity.
  - rewrite search_cons. destruct (startsWith pat (x :: s)) eqn:Hs.
    + exists 0. split; [lia | reflexivity].
    + destruct j as [|j]; [simpl in H; congruence|].
      simpl in H. destruct (IH j H) as (k & Hk & ->).
      exists (S k). split; [lia | reflexivity].
Qed.

Lemma startsWith_refl (pat : list Z) : startsWith pat pat = true.
Proof.
  rewrite <- (app_nil_r pat) at 2. apply startsWith_self.
Qed.

Lemma EOL_no_overlap (os : Platform) (s : list Z) (k : nat) :
  search (EOL os) (s ++ EOL os) 0 = Some k ->
  k < length s ->
  k + length (EOL os) <= length s.
Proof.
  intros Hk Hlt. destruct os; [simpl; lia|].
  destruct (Nat.eq_dec (S k) (length s)) as [He|Hne]; [|simpl; lia].
  exfalso. apply search_found in Hk.
  rewrite skipn_app_le in Hk by lia.
  assert (Hl : length (skipn k s) = 1) by (rewrite length_skipn; lia).
  destruct (skipn k s) as [|x [|y l]]; try discriminate.
  cbn in Hk. rewrite andb_false_r in Hk. discriminate.
Qed.

Lemma split_terminated (os : Platform) (n : nat) :
  forall s, length s <= n ->
            last (Spec.split (EOL os) (s ++ EOL os)) [0%Z] = [].
Proof.
  pose proof (EOL_length os) as Hpos.
  induction n as [|n IH]; intros s Hn;
    (destruct (search_exists (EOL os) (s ++ EOL os) (length s)) as (k & Hk & Hs);
     [rewrite skipn_app_le, skipn_all by lia; apply startsWith_refl|]);
    rewrite (split_some _ _ _ Hpos Hs).
  - assert (k = 0) as -> by lia. destruct s; [|simpl in Hn; lia].
    cbn [app Nat.add]. rewrite skipn_all. reflexivity.
  - destruct (Nat.eq_dec k (length s)) as [->|Hne].
    + replace (skipn (length s + length (EOL os)) (s ++ EOL os))
        with (@nil Z)
        by (symmetry; apply skipn_all2; rewrite length_app; lia).
      reflexivity.
    + pose proof (EOL_no_overlap os s k Hs ltac:(lia)) as Hb.
      rewrite skipn_app_le by exact Hb.
      pose proof (split_length (EOL os)
                    (skipn (k + length (EOL os)) s ++ EOL os)) as Hl.
      destruct (Spec.split (EOL os) (skipn (k + length (EOL os)) s ++ EOL os))
        as [|p ps] eqn:Hp; [simpl in Hl; lia|].
      change (last (firstn k (s ++ EOL os) :: p :: ps) [0%Z])
        with (last (p :: ps) [0%Z]).
      rewrite <- Hp. apply IH. rewrite length_skipn. lia.
Qed.

(** X14.  For a text that ends in [EOL], and for the empty text,
    [_parseSentence] pushes the parsed lines of the text as the
    specification has them: the pieces between the line terminators, in
    order, without the empty piece after the last one. *)
Theorem terminated_text_gives_its_lines :
  forall (R E : Type) (os : Platform) (mecab : MeCab.t R E)
         (this : MeCabReadTask.t R E) (text : jsstring),
    _parseSentence os mecab this (text ++ EOL os)
    = Normal (pushAll this
                (map (fun line => Parsed (MeCab.lineParser mecab line))
                     (Spec.lines (EOL os) (text ++ EOL os))))
    /\ _parseSentence os mecab this [] = Normal this
    /\ Spec.lines (EOL os) [] = [].
Proof.
  intros R E os mecab this text. split; [|split; reflexivity].
  rewrite _parseSentence_spec. unfold Spec.lines, Spec.terminatedLines.
  rewrite (split_terminated os (length text) text (le_n _)). reflexivity.
Qed.
